(** * The GraphQL mirror of sourcecred: schema decomposition and layout
      initialisation ([src/graphql/mirror.js])

    A shallow embedding of [_buildSchemaInfo], [isSqlSafe],
    [primitivesTableName], [_inTransaction] and [Mirror._initialize],
    together with a small model of the relational engine they drive, and
    the properties of the design document stated over them. *)

From Stdlib Require Import String Ascii List Bool NArith ZArith Lia.
From stdpp Require Import base option list strings gmap.

Import ListNotations.
Local Open Scope string_scope.
Local Open Scope list_scope.

(** ** Exceptions

    Everything the mirror can throw.  The JavaScript code throws plain
    [Error] objects that differ by their message; a constructor stands for
    each message.  Errors of the engine are a class of their own
    ([SqliteError] in better-sqlite3). *)

Inductive SqliteError : Type :=
| TableAlreadyExists (name : string)
| IndexAlreadyExists (name : string)
| NoSuchTable (name : string)
| NoSuchColumn (name : string)
| DuplicateColumnName (name : string)
| TooManyColumns (table : string)
| ForeignKeyConstraintFailed
| ConstraintFailed (table column : string)
| TransactionWithinTransaction
| NoTransactionActive.

Inductive Exception : Type :=
| AlreadyInTransaction
    (* new Error("already in transaction") *)
| IncompatibleSchema
    (* new Error("Database already populated with incompatible schema
       or version") *)
| InvalidObjectTypeName (typename : string)
    (* new Error("invalid object type name: " + JSON.stringify(typename)) *)
| InvalidFieldName (fieldname : string)
    (* new Error("invalid field name: " + JSON.stringify(fieldname)) *)
| InvariantViolation (typename : string)
    (* new Error("Invariant violation: invalid object type name " + ...) *)
| TypeError
    (* reading a property of [undefined] *)
| EngineError (e : SqliteError).

(** The pure exception monad, for code without a database. *)
Definition Result (A : Type) : Type := Exception + A.

#[global] Instance Result_ret : MRet Result := fun A x => inr x.
#[global] Instance Result_bind : MBind Result := fun A B f m =>
  match m with
  | inl e => inl e
  | inr x => f x
  end.

(** [for (const x of xs) { acc = body(acc, x) }] where the body may throw. *)
Fixpoint forOf {A S : Type} (xs : list A) (body : S -> A -> Result S) (acc : S)
  : Result S :=
  match xs with
  | [] => inr acc
  | x :: rest =>
      match body acc x with
      | inl e => inl e
      | inr acc' => forOf rest body acc'
      end
  end.

(** ** JavaScript objects used as dictionaries

    An object is the list of its own enumerable string-keyed properties,
    in the order [Object.keys] reports them.  [obj[k]] reads the first
    binding of [k]; a JavaScript object binds each key once, and nothing
    below needs that. *)
Module Js.

Definition Obj (V : Type) : Type := list (string * V).

Definition keys {V : Type} (o : Obj V) : list string := map fst o.

Fixpoint get {V : Type} (o : Obj V) (k : string) : option V :=
  match o with
  | [] => None
  | (k', v) :: rest => if String.eqb k' k then Some v else get rest k
  end.

(** [obj[k].something]: reading through [undefined] throws. *)
Definition prop {V : Type} (o : Obj V) (k : string) : Result V :=
  match get o k with
  | Some v => inr v
  | None => inl TypeError
  end.

End Js.

(** ** The schema ([./schema], imported by the mirror) *)
Module Schema.

Abbreviation Typename := string (only parsing).
Abbreviation Fieldname := string (only parsing).

(** Modelled from the spec: the declarations of [./schema] are not part
    of the sources at hand.  A field is one of four kinds, told apart by
    the [type] discriminant: ID | Primitive | Node(targetType) |
    Connection(elementType). *)
Inductive FieldType : Type :=
| ID
| PRIMITIVE
| NODE (elementType : Typename)
| CONNECTION (elementType : Typename).

(** Modelled from the spec: a type declaration is an object with its
    [fields] (Fieldname to FieldKind) or a union with its [clauses]
    (Typename to unit). *)
Inductive NodeType : Type :=
| OBJECT (fields : Js.Obj FieldType)
| UNION (clauses : Js.Obj unit).

Definition Schema : Type := Js.Obj NodeType.

End Schema.

Import Schema.

(** ** Schema decomposition: [_buildSchemaInfo] *)

Record ObjectInfo : Type := mkObjectInfo {
  fields : Js.Obj FieldType;
  primitiveFieldNames : list Fieldname;
  linkFieldNames : list Fieldname;
  connectionFieldNames : list Fieldname
}.

Record UnionInfo : Type := mkUnionInfo {
  clauses : list Typename
}.

Record SchemaInfo : Type := mkSchemaInfo {
  objectTypes : gmap string ObjectInfo;
  unionTypes : gmap string UnionInfo
}.

(** The body of the inner loop: one field is dispatched on its kind and
    pushed onto the matching array of the entry. *)
Definition addField (type_fields : Js.Obj FieldType)
    (entry : ObjectInfo) (fieldname : Fieldname) : Result ObjectInfo :=
  field ← Js.prop type_fields fieldname;
  match field with
  | ID => mret entry
  | PRIMITIVE =>
      mret (mkObjectInfo (fields entry)
              (primitiveFieldNames entry ++ [fieldname])
              (linkFieldNames entry)
              (connectionFieldNames entry))
  | NODE _ =>
      mret (mkObjectInfo (fields entry)
              (primitiveFieldNames entry)
              (linkFieldNames entry ++ [fieldname])
              (connectionFieldNames entry))
  | CONNECTION _ =>
      mret (mkObjectInfo (fields entry)
              (primitiveFieldNames entry)
              (linkFieldNames entry)
              (connectionFieldNames entry ++ [fieldname]))
  end.

(** The entry of an object type.  The source stores the entry in
    [result.objectTypes] first and fills its arrays through the alias; as
    nothing reads the result in between, the entry is stored here when it
    is complete. *)
Definition buildObjectEntry (type_fields : Js.Obj FieldType) : Result ObjectInfo :=
  forOf (Js.keys type_fields) (addField type_fields)
        (mkObjectInfo type_fields [] [] []).

(** The body of the outer loop.  [result.objectTypes[typename] = entry]
    adds an entry under every key but [__proto__]: an assignment to that
    key sets the prototype of the object and adds no property, so for a
    type of that name the entry stored here is not in the result of the
    code. *)
Definition addType (schema : Schema) (result : SchemaInfo) (typename : Typename)
  : Result SchemaInfo :=
  type ← Js.prop schema typename;
  match type with
  | OBJECT type_fields =>
      entry ← buildObjectEntry type_fields;
      mret (mkSchemaInfo (<[typename := entry]> (objectTypes result))
                         (unionTypes result))
  | UNION type_clauses =>
      mret (mkSchemaInfo (objectTypes result)
                         (<[typename := mkUnionInfo (Js.keys type_clauses)]>
                            (unionTypes result)))
  end.

Definition _buildSchemaInfo (schema : Schema) : Result SchemaInfo :=
  forOf (Js.keys schema) (addType schema) (mkSchemaInfo ∅ ∅).

(** ** Identifier safety: [isSqlSafe]

    A character of a string stands for one code unit. *)

Definition inRange (lo hi : N) (c : ascii) : bool :=
  ((lo <=? N_of_ascii c) && (N_of_ascii c <=? hi))%N.

(** The class [A-Za-z0-9_]. *)
Definition isWordChar (c : ascii) : bool :=
  inRange 65 90 c || inRange 97 122 c || inRange 48 57 c
  || (N_of_ascii c =? 95)%N.

(** [token.match(/[^A-Za-z0-9_]/)]: the search succeeds when some code
    unit of the token is outside the class. *)
Fixpoint matchNonWordChar (token : string) : bool :=
  match token with
  | EmptyString => false
  | String c rest => negb (isWordChar c) || matchNonWordChar rest
  end.

Definition isSqlSafe (token : string) : bool :=
  negb (matchNonWordChar token).

(** The predicate of the design document, [s matches ^[A-Za-z0-9_]+$]:
    one code unit of the class or more, and nothing else.  (Without the
    [m] flag, [$] matches at the very end only.) *)
Fixpoint allWordChars (s : string) : bool :=
  match s with
  | EmptyString => true
  | String c rest => isWordChar c && allWordChars rest
  end.

Definition matchesIdentifierPattern (s : string) : bool :=
  match s with
  | EmptyString => false
  | String c rest => isWordChar c && allWordChars rest
  end.


(** ** The relational engine

    What [mirror.js] needs of better-sqlite3 and the SQLite behind it:
    tables with named columns and rows, indices, one level of
    transaction, and the statements [_initialize] prepares.  Names of
    tables, indices and columns are compared the way SQLite compares
    them, ignoring the case of ASCII letters.  Limits of the engine
    other than the number of columns of a table, and failures of the
    storage below it, are not part of the model. *)
Module Sqlite.

Inductive Value : Type :=
| Null
| Integer (z : Z)
| Text (s : string).

(** An identifier as the statement spells it: bare, or between double
    quotes.  For the names that reach a statement here (they pass
    [isSqlSafe], or are literals of the source) both spell the name
    itself. *)
Inductive Ident : Type :=
| Bare (name : string)
| Quoted (name : string).

Definition identName (i : Ident) : string :=
  match i with
  | Bare name => name
  | Quoted name => name
  end.

Record ColumnDef : Type := mkColumn {
  col_ident : Ident;
  col_type : string;
  col_not_null : bool;
  col_primary_key : bool
}.

Definition col_name (c : ColumnDef) : string := identName (col_ident c).

(** The statements of [mirror.js].  Table constraints (UNIQUE, CHECK,
    FOREIGN KEY) are kept as written; they bear on rows that
    initialisation never writes. *)
Inductive Sql : Type :=
| BEGIN
| COMMIT
| ROLLBACK
| CREATE_TABLE (if_not_exists : bool) (name : Ident)
               (columns : list ColumnDef) (constraints : list string)
| CREATE_INDEX (unique : bool) (name table : string) (columns : list string)
| SELECT (column table : string)
| INSERT (table : string) (columns : list string) (values : list Value).

Record Table : Type := mkTable {
  tbl_name : string;
  tbl_columns : list ColumnDef;
  tbl_constraints : list string;
  tbl_rows : list (list Value)
}.

Record Index : Type := mkIndex {
  idx_name : string;
  idx_unique : bool;
  idx_table : string;
  idx_columns : list string
}.

(** What the database file holds. *)
Record Database : Type := mkDatabase {
  tables : list Table;
  indices : list Index
}.

(** A connection: the database as the connection sees it, the state to
    return to on ROLLBACK while a transaction is open, and the
    statements run so far (oldest first), kept for the properties that
    speak of what was executed. *)
Record Connection : Type := mkConnection {
  content : Database;
  saved : option Database;
  executed : list Sql
}.

(** [db.inTransaction] *)
Definition inTransaction (c : Connection) : bool :=
  match saved c with
  | Some _ => true
  | None => false
  end.

Definition emptyDatabase : Database := mkDatabase [] [].

(** A connection just opened on an empty database. *)
Definition fresh : Connection := mkConnection emptyDatabase None [].

Definition lowerAscii (c : ascii) : ascii :=
  if inRange 65 90 c then ascii_of_N (N_of_ascii c + 32) else c.

Fixpoint foldCase (s : string) : string :=
  match s with
  | EmptyString => EmptyString
  | String c rest => String (lowerAscii c) (foldCase rest)
  end.

Definition nameEq (a b : string) : bool :=
  String.eqb (foldCase a) (foldCase b).

Definition lookupTable (name : string) (d : Database) : option Table :=
  find (fun t => nameEq (tbl_name t) name) (tables d).

Definition lookupIndex (name : string) (d : Database) : option Index :=
  find (fun i => nameEq (idx_name i) name) (indices d).

Definition hasName (name : string) (names : list string) : bool :=
  existsb (nameEq name) names.

(** The most columns a table may have (SQLITE_MAX_COLUMN). *)
Definition SQLITE_MAX_COLUMN : nat := 2000.

(** What the engine says of the columns of a CREATE TABLE, which it
    takes one by one in the order written, [seen] being the columns
    taken before: a column beyond the limit is one too many, and a
    column with the name of an earlier one is a duplicate, reported as
    it is spelled. *)
Fixpoint columnError (table : string) (seen names : list string)
  : option SqliteError :=
  match names with
  | [] => None
  | n :: rest =>
      if (SQLITE_MAX_COLUMN <=? length seen)%nat
      then Some (TooManyColumns table)
      else if hasName n seen then Some (DuplicateColumnName n)
      else columnError table (n :: seen) rest
  end.

(** The position of a column in a table. *)
Fixpoint columnIndex (name : string) (cols : list ColumnDef) : option nat :=
  match cols with
  | [] => None
  | c :: rest =>
      if nameEq (col_name c) name then Some 0
      else option_map S (columnIndex name rest)
  end.

(** The first of [names] that is no column of [cols]. *)
Definition missingColumn (names : list string) (cols : list ColumnDef)
  : option string :=
  find (fun n => negb (hasName n (map col_name cols))) names.

(** The value an INSERT gives to column [c]. *)
Fixpoint insertedValue (c : string) (names : list string) (vals : list Value)
  : Value :=
  match names, vals with
  | n :: names', v :: vals' =>
      if nameEq n c then v else insertedValue c names' vals'
  | _, _ => Null
  end.

Definition valueEqb (a b : Value) : bool :=
  match a, b with
  | Null, Null => true
  | Integer x, Integer y => Z.eqb x y
  | Text x, Text y => String.eqb x y
  | _, _ => false
  end.

(** The first column of the table whose constraint the new row breaks:
    NULL in a NOT NULL column, or a primary key some row already has. *)
Fixpoint violatedColumn (cols : list ColumnDef) (pos : nat)
    (rows : list (list Value)) (row : list Value) : option string :=
  match cols with
  | [] => None
  | c :: rest =>
      let v := nth pos row Null in
      if col_not_null c && valueEqb v Null then Some (col_name c)
      else if col_primary_key c
              && existsb (fun r => valueEqb (nth pos r Null) v) rows
           then Some (col_name c)
      else violatedColumn rest (S pos) rows row
  end.

Definition replaceTable (t : Table) (d : Database) : Database :=
  mkDatabase
    (map (fun t' => if nameEq (tbl_name t') (tbl_name t) then t else t')
         (tables d))
    (indices d).

(** The effect of one statement on the database, outside of transaction
    control: the new database and, for a SELECT, the plucked column of
    the first row ([undefined] when there is no row).  Rows are kept in
    the order of insertion, which is the order a SELECT reads them in
    for a table filled the way the mirror fills [meta], with one row. *)
Definition apply (q : Sql) (d : Database)
  : SqliteError + (option Value * Database) :=
  match q with
  | BEGIN | COMMIT | ROLLBACK => inr (None, d)
  | CREATE_TABLE if_not_exists name columns constraints =>
      let n := identName name in
      match lookupTable n d with
      | Some _ =>
          if if_not_exists then inr (None, d) else inl (TableAlreadyExists n)
      | None =>
          match lookupIndex n d with
          | Some _ => inl (IndexAlreadyExists n)
          | None =>
              match columnError n [] (map col_name columns) with
              | Some e => inl e
              | None =>
                  inr (None,
                       mkDatabase
                         (tables d ++ [mkTable n columns constraints []])
                         (indices d))
              end
          end
      end
  | CREATE_INDEX unique name table columns =>
      match lookupTable table d with
      | None => inl (NoSuchTable table)
      | Some t =>
          match lookupIndex name d, lookupTable name d with
          | Some _, _ => inl (IndexAlreadyExists name)
          | None, Some _ => inl (TableAlreadyExists name)
          | None, None =>
              match missingColumn columns (tbl_columns t) with
              | Some c => inl (NoSuchColumn c)
              | None =>
                  inr (None,
                       mkDatabase
                         (tables d)
                         (indices d ++ [mkIndex name unique table columns]))
              end
          end
      end
  | SELECT column table =>
      match lookupTable table d with
      | None => inl (NoSuchTable table)
      | Some t =>
          match columnIndex column (tbl_columns t) with
          | None => inl (NoSuchColumn column)
          | Some pos =>
              inr (option_map (fun row => nth pos row Null)
                              (head (tbl_rows t)), d)
          end
      end
  | INSERT table columns values =>
      match lookupTable table d with
      | None => inl (NoSuchTable table)
      | Some t =>
          match missingColumn columns (tbl_columns t) with
          | Some c => inl (NoSuchColumn c)
          | None =>
              let row :=
                map (fun c => insertedValue (col_name c) columns values)
                    (tbl_columns t) in
              match violatedColumn (tbl_columns t) 0 (tbl_rows t) row with
              | Some c => inl (ConstraintFailed (tbl_name t) c)
              | None =>
                  inr (None,
                       replaceTable
                         (mkTable (tbl_name t) (tbl_columns t)
                                  (tbl_constraints t) (tbl_rows t ++ [row]))
                         d)
              end
          end
      end
  end.

(** Running a statement on a connection.  A statement that fails leaves
    the database as it was.  Here the COMMIT of an open transaction
    always goes through; [AnyEngine] below has an engine that refuses
    it. *)
Definition step (q : Sql) (c : Connection)
  : (SqliteError + option Value) * Connection :=
  let log := executed c ++ [q] in
  match q with
  | BEGIN =>
      match saved c with
      | Some _ => (inl TransactionWithinTransaction,
                   mkConnection (content c) (saved c) log)
      | None => (inr None, mkConnection (content c) (Some (content c)) log)
      end
  | COMMIT =>
      match saved c with
      | Some _ => (inr None, mkConnection (content c) None log)
      | None => (inl NoTransactionActive,
                 mkConnection (content c) (saved c) log)
      end
  | ROLLBACK =>
      match saved c with
      | Some before => (inr None, mkConnection before None log)
      | None => (inl NoTransactionActive,
                 mkConnection (content c) (saved c) log)
      end
  | _ =>
      match apply q (content c) with
      | inl e => (inl e, mkConnection (content c) (saved c) log)
      | inr (v, d) => (inr v, mkConnection d (saved c) log)
      end
  end.

End Sqlite.

Import Sqlite.

(** ** Code that talks to the database

    A computation takes the connection, returns a value or throws, and
    leaves the connection in a new state. *)
Definition M (A : Type) : Type := Connection -> Result A * Connection.

#[global] Instance M_ret : MRet M := fun A x c => (inr x, c).
#[global] Instance M_bind : MBind M := fun A B f m c =>
  match m c with
  | (inl e, c') => (inl e, c')
  | (inr x, c') => f x c'
  end.

Definition throw {A : Type} (e : Exception) : M A := fun c => (inl e, c).

(** A pure computation run in the middle of database code. *)
Definition lift {A : Type} (r : Result A) : M A := fun c => (r, c).

(** [db.prepare(sql).pluck().get()] *)
Definition pluckGet (q : Sql) : M (option Value) := fun c =>
  match step q c with
  | (inl e, c') => (inl (EngineError e), c')
  | (inr v, c') => (inr v, c')
  end.

(** [db.prepare(sql).run()] *)
Definition run (q : Sql) : M unit := fun c =>
  match step q c with
  | (inl e, c') => (inl (EngineError e), c')
  | (inr _, c') => (inr tt, c')
  end.

(** Reading [db.inTransaction]. *)
Definition getInTransaction : M bool := fun c => (inr (inTransaction c), c).

(** [try { body } finally { cleanup }]: the cleanup runs however the body
    ends; when the cleanup throws, its exception is the one that leaves
    the statement. *)
Definition tryFinally {A : Type} (body : M A) (cleanup : M unit) : M A :=
  fun c =>
    let (outcome, c1) := body c in
    match cleanup c1 with
    | (inl e, c2) => (inl e, c2)
    | (inr _, c2) => (outcome, c2)
    end.

(** [for (const x of xs) { body(x) }] in database code. *)
Fixpoint forEach {A : Type} (xs : list A) (body : A -> M unit) : M unit :=
  match xs with
  | [] => mret tt
  | x :: rest => body x ;; forEach rest body
  end.

(** ** [_inTransaction] *)
Definition _inTransaction {R : Type} (fn : M R) : M R :=
  busy ← getInTransaction;
  if (busy : bool) then throw AlreadyInTransaction
  else
    tryFinally
      (run BEGIN ;;
       result ← fn;
       open ← getInTransaction;
       (if (open : bool) then run COMMIT else mret tt) ;;
       mret result)
      (open ← getInTransaction;
       if (open : bool) then run ROLLBACK else mret tt).

(** ** [primitivesTableName]

    The name comes back double-quoted. *)
Definition primitivesTableName (typename : Typename) : Result Ident :=
  if negb (isSqlSafe typename) then inl (InvariantViolation typename)
  else inr (Quoted ("primitives_" ++ typename)).

(** ** [Mirror._initialize] *)

Definition plainColumn (name type : string) (not_null primary_key : bool)
  : ColumnDef :=
  mkColumn (Bare name) type not_null primary_key.

(** CREATE TABLE IF NOT EXISTS meta (...) *)
Definition createMeta : Sql :=
  CREATE_TABLE true (Bare "meta")
    [plainColumn "zero" "INTEGER" false true;
     plainColumn "schema" "TEXT" true false]
    [].

(** SELECT schema FROM meta *)
Definition selectMeta : Sql := SELECT "schema" "meta".

(** INSERT INTO meta (zero, schema) VALUES (0, ?), run with the blob. *)
Definition insertMeta (blob : string) : Sql :=
  INSERT "meta" ["zero"; "schema"] [Integer 0; Text blob].

(** The tables and indices that do not depend on the schema, in the
    order of the source. *)
Definition structuralTables : list Sql :=
  [ CREATE_TABLE false (Bare "updates")
      [plainColumn "rowid" "INTEGER" false true;
       plainColumn "time_epoch_millis" "INTEGER" true false]
      [];
    CREATE_TABLE false (Bare "objects")
      [plainColumn "id" "TEXT" true true;
       plainColumn "typename" "TEXT" true false;
       plainColumn "last_update" "INTEGER" false false]
      ["FOREIGN KEY(last_update) REFERENCES updates(rowid)"];
    CREATE_TABLE false (Bare "links")
      [plainColumn "rowid" "INTEGER" false true;
       plainColumn "parent_id" "TEXT" true false;
       plainColumn "fieldname" "TEXT" true false;
       plainColumn "child_id" "TEXT" false false]
      ["UNIQUE(parent_id, fieldname)";
       "FOREIGN KEY(parent_id) REFERENCES objects(id)";
       "FOREIGN KEY(child_id) REFERENCES objects(id)"];
    CREATE_INDEX true "idx_links__parent_id__fieldname" "links"
      ["parent_id"; "fieldname"];
    CREATE_TABLE false (Bare "connections")
      [plainColumn "rowid" "INTEGER" false true;
       plainColumn "object_id" "TEXT" true false;
       plainColumn "fieldname" "TEXT" true false;
       plainColumn "last_update" "INTEGER" false false;
       plainColumn "total_count" "INTEGER" false false;
       plainColumn "has_next_page" "BOOLEAN" false false;
       plainColumn "end_cursor" "TEXT" false false]
      ["CHECK((last_update IS NULL) = (total_count IS NULL))";
       "CHECK((last_update IS NULL) = (has_next_page IS NULL))";
       "CHECK((last_update IS NULL) <= (end_cursor IS NULL))";
       "UNIQUE(object_id, fieldname)";
       "FOREIGN KEY(object_id) REFERENCES objects(id)";
       "FOREIGN KEY(last_update) REFERENCES updates(rowid)"];
    CREATE_INDEX true "idx_connections__object_id__fieldname" "connections"
      ["object_id"; "fieldname"];
    CREATE_TABLE false (Bare "connection_entries")
      [plainColumn "rowid" "INTEGER" false true;
       plainColumn "connection_id" "INTEGER" true false;
       plainColumn "idx" "INTEGER" true false;
       plainColumn "child_id" "TEXT" false false]
      ["UNIQUE(connection_id, idx)";
       "FOREIGN KEY(connection_id) REFERENCES connections(rowid)";
       "FOREIGN KEY(child_id) REFERENCES objects(id)"];
    CREATE_INDEX false "idx_connection_entries__connection_id"
      "connection_entries" ["connection_id"] ].

(** The inner loop of the OBJECT case: primitive field names are checked
    and collected, the other kinds are passed over. *)
Definition collectPrimitive (nodeType_fields : Js.Obj FieldType)
    (primitiveFieldNames : list Fieldname) (fieldname : Fieldname)
  : Result (list Fieldname) :=
  field ← Js.prop nodeType_fields fieldname;
  match field with
  | ID => mret primitiveFieldNames
  | NODE _ => mret primitiveFieldNames
  | CONNECTION _ => mret primitiveFieldNames
  | PRIMITIVE =>
      if negb (isSqlSafe fieldname) then inl (InvalidFieldName fieldname)
      else mret (primitiveFieldNames ++ [fieldname])
  end.

(** A primitive field becomes a column with its name between double
    quotes and nothing else. *)
Definition primitiveColumn (fieldname : Fieldname) : ColumnDef :=
  mkColumn (Quoted fieldname) EmptyString false false.

(** The columns and the constraint of a primitives table. *)
Definition tableSpec (primitiveFieldNames : list Fieldname)
  : list ColumnDef * list string :=
  (plainColumn "id" "TEXT" true true
     :: map primitiveColumn primitiveFieldNames,
   ["FOREIGN KEY(id) REFERENCES objects(id)"]).

(** The body of the loop over the types of the schema. *)
Definition createPrimitivesTable (schema : Schema) (typename : Typename)
  : M unit :=
  nodeType ← lift (Js.prop schema typename);
  match nodeType with
  | UNION _ => mret tt
  | OBJECT nodeType_fields =>
      if negb (isSqlSafe typename)
      then throw (InvalidObjectTypeName typename)
      else
        primitiveFieldNames ←
          lift (forOf (Js.keys nodeType_fields)
                      (collectPrimitive nodeType_fields) []);
        tableName ← lift (primitivesTableName typename);
        let spec := tableSpec primitiveFieldNames in
        run (CREATE_TABLE false tableName (fst spec) (snd spec))
  end.

(** [existingBlob === blob] *)
Definition strictEqualsString (v : option Value) (s : string) : bool :=
  match v with
  | Some (Text t) => String.eqb t s
  | _ => false
  end.

(** The object handed to the serialiser. *)
Record MetaObject : Type := mkMeta {
  version : string;
  schema : Schema
}.

Section Initialize.

(** [stringify] of json-stable-stringify: a library, taken as it
    comes. *)
Variable stringify : MetaObject -> string.

(** The callback given to [_inTransaction]. *)
Definition initializeCallback (blob : string) (this_schema : Schema) : M unit :=
  run createMeta ;;
  existingBlob ← pluckGet selectMeta;
  if strictEqualsString existingBlob blob then mret tt
  else if bool_decide (existingBlob ≠ None) then throw IncompatibleSchema
  else
    run (insertMeta blob) ;;
    forEach structuralTables run ;;
    forEach (Js.keys this_schema) (createPrimitivesTable this_schema).

Definition _initialize (this_schema : Schema) : M unit :=
  let blob := stringify (mkMeta "MIRROR_v1" this_schema) in
  _inTransaction (initializeCallback blob this_schema).

End Initialize.

(** ** A serialiser to run the mirror with

    The properties below hold for any [stringify].  To evaluate the
    mirror on an example one is needed: this one writes the JSON of
    json-stable-stringify for the schema objects, keys sorted by code
    unit and no white space. *)
Module StableJson.

Local Open Scope string_scope.

Definition doubleQuote : string := String (ascii_of_N 34) EmptyString.
Definition backslash : string := String (ascii_of_N 92) EmptyString.

Definition hexDigit (n : N) : string :=
  String (ascii_of_N (if (n <? 10)%N then 48 + n else 87 + n)) EmptyString.

Definition escapeChar (c : ascii) : string :=
  let n := N_of_ascii c in
  if (n =? 34)%N then backslash ++ doubleQuote
  else if (n =? 92)%N then backslash ++ backslash
  else if (n =? 8)%N then backslash ++ "b"
  else if (n =? 9)%N then backslash ++ "t"
  else if (n =? 10)%N then backslash ++ "n"
  else if (n =? 12)%N then backslash ++ "f"
  else if (n =? 13)%N then backslash ++ "r"
  else if (n <? 32)%N
       then backslash ++ "u00" ++ hexDigit (n / 16) ++ hexDigit (n mod 16)
  else String c EmptyString.

Fixpoint escape (s : string) : string :=
  match s with
  | EmptyString => EmptyString
  | String c rest => escapeChar c ++ escape rest
  end.

Definition quote (s : string) : string := doubleQuote ++ escape s ++ doubleQuote.

Fixpoint insertSorted {V : Type} (kv : string * V) (o : Js.Obj V) : Js.Obj V :=
  match o with
  | [] => [kv]
  | kv' :: rest =>
      if String.leb (fst kv) (fst kv') then kv :: o
      else kv' :: insertSorted kv rest
  end.

Definition sortKeys {V : Type} (o : Js.Obj V) : Js.Obj V :=
  fold_right insertSorted [] o.

Definition object {V : Type} (value : V -> string) (o : Js.Obj V) : string :=
  "{" ++ String.concat ","
           (map (fun kv => quote (fst kv) ++ ":" ++ value (snd kv))
                (sortKeys o))
      ++ "}".

Definition fieldType (f : FieldType) : string :=
  match f with
  | ID => object quote [("type", "ID")]
  | PRIMITIVE => object quote [("type", "PRIMITIVE")]
  | NODE t => object quote [("type", "NODE"); ("elementType", t)]
  | CONNECTION t => object quote [("type", "CONNECTION"); ("elementType", t)]
  end.

Definition nodeType (t : NodeType) : string :=
  match t with
  | OBJECT fs =>
      object id [("type", quote "OBJECT"); ("fields", object fieldType fs)]
  | UNION cs =>
      object id [("type", quote "UNION");
                 ("clauses", object (fun _ : unit => "true") cs)]
  end.

Definition stringify (m : MetaObject) : string :=
  object id [("version", quote (version m));
             ("schema", object nodeType (schema m))].

End StableJson.

(** ** Vocabulary of the properties *)

Definition isId (k : FieldType) : bool :=
  match k with ID => true | _ => false end.
Definition isPrimitive (k : FieldType) : bool :=
  match k with PRIMITIVE => true | _ => false end.
Definition isLink (k : FieldType) : bool :=
  match k with NODE _ => true | _ => false end.
Definition isConnection (k : FieldType) : bool :=
  match k with CONNECTION _ => true | _ => false end.

(** Field [f] of the object with fields [fs] is of a kind that [p]
    accepts. *)
Definition fieldHas (p : FieldType -> bool) (fs : Js.Obj FieldType)
    (f : Fieldname) : bool :=
  match Js.get fs f with
  | Some k => p k
  | None => false
  end.

(** The field names of a kind, in the order of [Object.keys]. *)
Definition fieldsOfKind (p : FieldType -> bool) (fs : Js.Obj FieldType)
  : list Fieldname :=
  List.filter (fieldHas p fs) (Js.keys fs).

Definition idFieldCount (fs : Js.Obj FieldType) : nat :=
  length (fieldsOfKind isId fs).

(** The entry of an object type in [SchemaInfo], in closed form. *)
Definition entryOf (fs : Js.Obj FieldType) : ObjectInfo :=
  mkObjectInfo fs (fieldsOfKind isPrimitive fs) (fieldsOfKind isLink fs)
               (fieldsOfKind isConnection fs).

(** A well-formed schema: every object type has exactly one ID field. *)
Definition wellFormed (s : Schema) : bool :=
  forallb (fun kv => match snd kv with
                     | OBJECT fs => Nat.eqb (idFieldCount fs) 1
                     | UNION _ => true
                     end) s.

(** The two errors of the identifier check of [_initialize]. *)
Definition isIdentifierError (e : Exception) : bool :=
  match e with
  | InvalidObjectTypeName _ | InvalidFieldName _ => true
  | _ => false
  end.

Definition isEngineError (e : Exception) : bool :=
  match e with
  | EngineError _ => true
  | _ => false
  end.

(** The names [_initialize] checks: object type names and the names of
    primitive fields of object types. *)
Definition objectNamesSafe (typename : Typename) (t : NodeType) : bool :=
  match t with
  | UNION _ => true
  | OBJECT fs =>
      isSqlSafe typename && forallb isSqlSafe (fieldsOfKind isPrimitive fs)
  end.

(** The error the identifier check has for a type: for an object type
    whose name does not pass, [InvalidObjectTypeName] with the name;
    else for the first primitive field, in the order of the keys, whose
    name does not pass, [InvalidFieldName] with that name. *)
Definition identifierError (typename : Typename) (t : NodeType)
  : option Exception :=
  match t with
  | UNION _ => None
  | OBJECT fs =>
      if isSqlSafe typename
      then option_map InvalidFieldName
             (find (fun f => negb (isSqlSafe f)) (fieldsOfKind isPrimitive fs))
      else Some (InvalidObjectTypeName typename)
  end.

(** Some object type name, or some primitive field name of an object
    type, does not pass [isSqlSafe]. *)
Definition hasUnsafeName (s : Schema) : Prop :=
  exists typename t,
    Js.get s typename = Some t /\ objectNamesSafe typename t = false.

(** All of them pass. *)
Definition checkedNamesSafe (s : Schema) : Prop :=
  forall typename t,
    Js.get s typename = Some t -> objectNamesSafe typename t = true.

(** Some name that [_initialize] does not check fails [isSqlSafe]: the
    name of a union type, or of a link or connection field. *)
Definition uncheckedNameUnsafe (typename : Typename) (t : NodeType) : bool :=
  match t with
  | UNION _ => negb (isSqlSafe typename)
  | OBJECT fs =>
      negb (forallb isSqlSafe (fieldsOfKind isLink fs)
            && forallb isSqlSafe (fieldsOfKind isConnection fs))
  end.

Definition hasUncheckedUnsafeName (s : Schema) : Prop :=
  exists typename t,
    Js.get s typename = Some t /\ uncheckedNameUnsafe typename t = true.

(** The connection after [_inTransaction] has run BEGIN on [c]. *)
Definition begun (c : Connection) : Connection :=
  mkConnection (content c) (Some (content c)) (executed c ++ [BEGIN]).

(** The table [_initialize] creates for an object type. *)
Definition primitivesTable (typename : Typename) (fs : Js.Obj FieldType)
  : Table :=
  mkTable ("primitives_" ++ typename)
          (plainColumn "id" "TEXT" true true
             :: map primitiveColumn (fieldsOfKind isPrimitive fs))
          ["FOREIGN KEY(id) REFERENCES objects(id)"]
          [].

(** ** Vocabulary for database code *)

(** Every run of [m] relates the connection before to the one after. *)
Definition preserves (R : Connection -> Connection -> Prop) {A : Type}
    (m : M A) : Prop :=
  forall c, R c (snd (m c)).

(** The transaction of the connection is the one it had. *)
Definition sameTransaction (c c' : Connection) : Prop := saved c' = saved c.

(** Tables were added at the end, if anything; no transaction was begun
    or ended; the log of statements grew. *)
Definition grown (c c' : Connection) : Prop :=
  saved c' = saved c
  /\ (exists ts, tables (content c') = tables (content c) ++ ts)
  /\ (exists qs, executed c' = executed c ++ qs).

Definition isControl (q : Sql) : bool :=
  match q with
  | BEGIN | COMMIT | ROLLBACK => true
  | _ => false
  end.

Definition isDdl (q : Sql) : bool :=
  match q with
  | CREATE_TABLE _ _ _ _ | CREATE_INDEX _ _ _ _ => true
  | _ => false
  end.

(** What [SELECT schema FROM meta] plucks from a database. *)
Definition metaBlob (d : Database) : option Value :=
  match apply selectMeta d with
  | inr (v, _) => v
  | inl _ => None
  end.

(** The connection where [_inTransaction] leaves a callback that threw
    in state [c1]. *)
Definition rolledBack (c1 : Connection) : Connection :=
  match saved c1 with
  | Some before => mkConnection before None (executed c1 ++ [ROLLBACK])
  | None => c1
  end.

(** The connection where [_inTransaction] leaves a callback that
    returned in state [c1]. *)
Definition committed (c1 : Connection) : Connection :=
  match saved c1 with
  | Some _ => mkConnection (content c1) None (executed c1 ++ [COMMIT])
  | None => c1
  end.

(** The schema-independent part of the callback of [_initialize]. *)
Definition structuralPart (blob : string) : M unit :=
  run createMeta ;;
  pluckGet selectMeta ;;
  run (insertMeta blob) ;;
  forEach structuralTables run.

(** A fresh connection after BEGIN and the schema-independent part. *)
Definition afterStructural (blob : string) : Connection :=
  snd (structuralPart blob (begun fresh)).

(** Whether the engine takes the tables of the types [ks] on a fresh
    database, [seen] being the object types that have their table: the
    name of an object type must differ, also when case is ignored, from
    those seen, and its columns, no more than the engine allows, from
    each other. *)
Fixpoint acceptsFrom (s : Schema) (seen ks : list string) : bool :=
  match ks with
  | [] => true
  | k :: rest =>
      match Js.get s k with
      | Some (OBJECT fs) =>
          negb (hasName k seen)
          && match columnError ("primitives_" ++ k) []
                     ("id" :: fieldsOfKind isPrimitive fs) with
             | None => true
             | Some _ => false
             end
          && acceptsFrom s (k :: seen) rest
      | _ => acceptsFrom s seen rest
      end
  end.

Definition engineAccepts (s : Schema) : bool :=
  acceptsFrom s [] (Js.keys s).

(** The names of the primitives tables of the types in [seen] are taken,
    no other name of that form is, and no index has such a name. *)
Definition onlySeen (seen : list string) (d : Database) : Prop :=
  (forall k : string, hasName k seen = false ->
                      lookupTable ("primitives_" ++ k) d = None)
  /\ (forall k : string, lookupIndex ("primitives_" ++ k) d = None).

(** Two connections with the same database and the same transaction:
    they may differ in the log of what was executed. *)
Definition sameData (c c' : Connection) : Prop :=
  content c = content c' /\ saved c = saved c'.

(** A computation that never looks at the log. *)
Definition logBlind {A : Type} (m : M A) : Prop :=
  forall c c', sameData c c' ->
    fst (m c) = fst (m c') /\ sameData (snd (m c)) (snd (m c')).

(** ** Examples to run *)
Module Examples.

(** Scenario S2 of the design document. *)
Definition issueSchema : Schema :=
  [("Issue", OBJECT [("id", ID); ("title", PRIMITIVE);
                     ("author", NODE "User");
                     ("comments", CONNECTION "Comment")])].

(** Scenario S4: [Issue] also has a primitive [body]. *)
Definition issueWithBody : Schema :=
  [("Issue", OBJECT [("id", ID); ("title", PRIMITIVE);
                     ("body", PRIMITIVE);
                     ("author", NODE "User");
                     ("comments", CONNECTION "Comment")])].

(** Scenario S6: an object type name that is no identifier. *)
Definition dropTableSchema : Schema :=
  [("Issue; DROP TABLE objects;--", OBJECT [("id", ID)])].

(** Object types without an ID field, and with two. *)
Definition oddIdSchema : Schema :=
  [("NoId", OBJECT [("name", PRIMITIVE)]);
   ("TwoIds", OBJECT [("id", ID); ("other", ID); ("name", PRIMITIVE)])].

(** Names that [_initialize] does not check are unsafe here (a union, a
    link field, a connection field); the checked ones are safe. *)
Definition uncheckedSchema : Schema :=
  [("Actor-Union", UNION [("User", tt)]);
   ("User", OBJECT [("id", ID); ("login", PRIMITIVE);
                    ("best friend", NODE "User");
                    ("repos!", CONNECTION "Repo")])].

(** As above, with a primitive field called [id]. *)
Definition primitiveIdSchema : Schema :=
  [("Actor-Union", UNION [("User", tt)]);
   ("User", OBJECT [("id", PRIMITIVE);
                    ("best friend", NODE "User")])].

(** A callback that inserts a meta row and throws, and one that inserts
    and returns. *)
Definition insertThenThrow : M nat :=
  run createMeta ;; run (insertMeta "x") ;; throw TypeError.

Definition insertThenReturn : M nat :=
  run createMeta ;; run (insertMeta "x") ;; mret 7.

End Examples.

(** ** The constructor of [Mirror] *)

(** What the constructor throws: its own errors on a missing argument
    ([new Error("db: " + String(db))] and the like for the schema), or
    whatever [_initialize] throws. *)
Inductive ConstructorError : Type :=
| ArgumentMissing (argument : string)
| Thrown (e : Exception).

(** The fields of a mirror; [_db] is the connection as construction left
    it. *)
Record Mirror : Type := mkMirror {
  _db : Connection;
  _schema : Schema;
  _schemaInfo : SchemaInfo
}.

Section Constructor.

Variable stringify : MetaObject -> string.

(** [new Mirror(db, schema)]: [None] stands for [null] or [undefined].
    Returned with the outcome is the connection after the call, when
    there is one. *)
Definition constructor (db : option Connection) (schema : option Schema)
  : (ConstructorError + Mirror) * option Connection :=
  match db with
  | None => (inl (ArgumentMissing "db"), None)
  | Some c =>
      match schema with
      | None => (inl (ArgumentMissing "schema"), Some c)
      | Some this_schema =>
          match _buildSchemaInfo this_schema with
          | inl e => (inl (Thrown e), Some c)
          | inr this_schemaInfo =>
              match _initialize stringify this_schema c with
              | (inl e, c') => (inl (Thrown e), Some c')
              | (inr _, c') =>
                  (inr (mkMirror c' this_schema this_schemaInfo), Some c')
              end
          end
      end
  end.

End Constructor.

(** ** Vocabulary for the layout *)

(** The object types of a schema with their fields, in the order of
    [Object.keys]. *)
Definition objectTypesAmong (s : Schema) (ks : list string)
  : list (string * Js.Obj FieldType) :=
  omap (fun k => match Js.get s k with
                 | Some (OBJECT fs) => Some (k, fs)
                 | _ => None
                 end) ks.

Definition objectTypesOf (s : Schema) : list (string * Js.Obj FieldType) :=
  objectTypesAmong s (Js.keys s).

(** The statement [_initialize] runs for an object type. *)
Definition createPrimitives (kfs : string * Js.Obj FieldType) : Sql :=
  CREATE_TABLE false (Quoted ("primitives_" ++ fst kfs))
    (tbl_columns (primitivesTable (fst kfs) (snd kfs)))
    (tbl_constraints (primitivesTable (fst kfs) (snd kfs))).

(** The empty table a CREATE TABLE makes, the index a CREATE INDEX
    makes. *)
Definition createdTable (q : Sql) : option Table :=
  match q with
  | CREATE_TABLE _ name columns constraints =>
      Some (mkTable (identName name) columns constraints [])
  | _ => None
  end.

Definition createdIndex (q : Sql) : option Index :=
  match q with
  | CREATE_INDEX unique name table columns =>
      Some (mkIndex name unique table columns)
  | _ => None
  end.

(** The [meta] table with its one row. *)
Definition metaTable (blob : string) : Table :=
  mkTable "meta"
    [plainColumn "zero" "INTEGER" false true;
     plainColumn "schema" "TEXT" true false]
    []
    [[Integer 0; Text blob]].

(** The database of a mirror: [meta] with the blob, the structural
    tables, one primitives table for each object type, all without rows,
    and the three structural indices. *)
Definition mirrorLayout (blob : string) (s : Schema) : Database :=
  mkDatabase
    (metaTable blob
       :: omap createdTable structuralTables
       ++ map (fun kfs => primitivesTable (fst kfs) (snd kfs))
              (objectTypesOf s))
    (omap createdIndex structuralTables).

(** What an exception of [_initialize] says, read against the schema:
    an identifier error names an object type, or a primitive field of an
    object type, that does not pass [isSqlSafe]. *)
Definition namesCulprit (s : Schema) (e : Exception) : Prop :=
  match e with
  | InvalidObjectTypeName typename =>
      exists fs, Js.get s typename = Some (OBJECT fs)
                 /\ isSqlSafe typename = false
  | InvalidFieldName fieldname =>
      exists typename fs,
        Js.get s typename = Some (OBJECT fs)
        /\ isSqlSafe typename = true
        /\ Js.get fs fieldname = Some PRIMITIVE
        /\ isSqlSafe fieldname = false
  | _ => True
  end.

(** The names of the primitives tables of the types in [seen], and only
    those, are taken. *)
Definition exactlySeen (seen : list string) (d : Database) : Prop :=
  (forall k : string,
     lookupTable ("primitives_" ++ k) d = None <-> hasName k seen = false)
  /\ (forall k : string, lookupIndex ("primitives_" ++ k) d = None).

(** ** Identities ([src/ledger/identity.js]) *)
Module Identity.

Inductive IdentityError : Type :=
| InvalidIdentityName (identityName : string)
    (* new Error(`invalid identityName: ${identityName}`) *)
| InvalidIdentitySubtype (subtype : string)
    (* new Error(`invalid identity subtype: ${subtype}`) *)
| AddressError (message : string).
    (* what [NodeAddress.append] throws on a part it does not take *)

(** The class [A-Za-z0-9-] of [IDENTITY_NAME_PATTERN]. *)
Definition isIdentityNameChar (c : ascii) : bool :=
  inRange 65 90 c || inRange 97 122 c || inRange 48 57 c
  || (N_of_ascii c =? 45)%N.

Fixpoint allIdentityNameChars (s : string) : bool :=
  match s with
  | EmptyString => true
  | String c rest => isIdentityNameChar c && allIdentityNameChars rest
  end.

(** [identityName.match(IDENTITY_NAME_PATTERN)] with the pattern
    [^[A-Za-z0-9-]+$]: one code unit of the class or more, and nothing
    else. *)
Definition matchesIdentityNamePattern (identityName : string) : bool :=
  match identityName with
  | EmptyString => false
  | String c rest => isIdentityNameChar c && allIdentityNameChars rest
  end.

(** [toLowerCase] turns the letters A to Z into a to z.  It is applied
    to strings that match the pattern only, where no other code unit is
    changed. *)
Definition toLowerCase (s : string) : string := foldCase s.

Definition identityNameFromString (identityName : string)
  : IdentityError + string :=
  if negb (matchesIdentityNamePattern identityName)
  then inl (InvalidIdentityName identityName)
  else inr (toLowerCase identityName).

Section Graph.

(** Node addresses and [NodeAddress.append] belong to [../core/graph],
    [exactly] to [../util/combo]; they are taken as they come, as is
    the value [randomUuid] draws.  [append] may throw. *)
Variable NodeAddressT : Type.
Variable append : NodeAddressT -> list string -> IdentityError + NodeAddressT.
Variable IDENTITY_PREFIX : NodeAddressT.
Variable exactly : list string -> string -> bool.

Record Alias : Type := mkAlias {
  alias_description : string;
  alias_address : NodeAddressT
}.

Record Identity : Type := mkIdentity {
  id : string;
  name : string;
  subtype : string;
  address : NodeAddressT;
  aliases : list Alias
}.

Record GraphNode : Type := mkGraphNode {
  node_address : NodeAddressT;
  node_description : string;
  node_timestampMs : option Z
}.

Record NodeContraction : Type := mkContraction {
  replacement : GraphNode;
  old : list NodeAddressT
}.

(** [identitySubtypeParser.parseOrThrow(subtype)] does not throw. *)
Definition identitySubtypeParser (subtype : string) : bool :=
  exactly ["USER"; "BOT"; "ORGANIZATION"; "PROJECT"] subtype.

(** [newIdentity], [randomUuid()] having returned [uuid].  The fields
    of the object returned are evaluated in the order they are written:
    the address before the name. *)
Definition newIdentity (uuid : string) (subtype name : string)
  : IdentityError + Identity :=
  if negb (identitySubtypeParser subtype)
  then inl (InvalidIdentitySubtype subtype)
  else
    match append IDENTITY_PREFIX [subtype; uuid] with
    | inl e => inl e
    | inr address =>
        match identityNameFromString name with
        | inl e => inl e
        | inr name' => inr (mkIdentity uuid name' subtype address [])
        end
    end.

Definition graphNode (i : Identity) : GraphNode :=
  mkGraphNode (address i) (name i) None.

Definition contractions (identities : list Identity) : list NodeContraction :=
  map (fun i => mkContraction (graphNode i) (map alias_address (aliases i)))
      identities.

End Graph.

End Identity.

(** ** More examples to run *)
Module Scenarios.

(** An object type with two primitive fields, and the same type with
    the fields declared in another order. *)
Definition titleThenBody : Schema :=
  [("Issue", OBJECT [("id", ID); ("title", PRIMITIVE); ("body", PRIMITIVE)])].

Definition bodyThenTitle : Schema :=
  [("Issue", OBJECT [("body", PRIMITIVE); ("id", ID); ("title", PRIMITIVE)])].

(** Two object types whose names differ by case only. *)
Definition caseClash : Schema :=
  [("Issue", OBJECT [("id", ID)]); ("issue", OBJECT [("id", ID)])].

(** A type the engine refuses (its primitive field [id] clashes with the
    column [id]), and after it the type of scenario S6. *)
Definition refusedThenUnsafe : Schema :=
  [("Actor", OBJECT [("id", PRIMITIVE)]);
   ("Issue; DROP TABLE objects;--", OBJECT [("id", ID)])].

(** Two parts for a callback that commits and begins again between
    them. *)
Definition createMetaOnly : M nat := run createMeta ;; mret 1.

Definition insertRowThenThrow (n : nat) : M nat :=
  run (insertMeta "x") ;; throw TypeError.

(** The names of the tables the structural DDL creates. *)
Definition structuralTableNames : list string :=
  map tbl_name (omap createdTable structuralTables).

(** A database that is not a mirror and has a table called [links]. *)
Definition foreignLinks : Connection :=
  mkConnection
    (mkDatabase [mkTable "links" [plainColumn "url" "TEXT" false false] [] []]
                [])
    None [].

End Scenarios.

(** ** [_inTransaction] over any engine

    [_inTransaction] uses two things of [this._db]: it runs statements,
    and it reads [inTransaction].  Here the wrapper is written over any
    database that offers the two, so that what is proved of it does not
    rest on how one engine answers a statement.  In SQLite a COMMIT can
    be refused, for one when a deferred foreign key is violated, and the
    transaction then stays open. *)
Module AnyEngine.

(** A database as [_inTransaction] meets it: [exec] is what
    [db.prepare(sql).run()] does, [active] what [db.inTransaction]
    reads. *)
Record Engine : Type := mkEngine {
  Db : Type;
  exec : Sql -> Db -> (SqliteError + option Value) * Db;
  active : Db -> bool
}.

Section Wrapper.

Variable E : Engine.

(** Code that talks to the database of the engine. *)
Definition On (A : Type) : Type := Db E -> Result A * Db E.

(** [db.prepare(sql).run()] *)
Definition run (q : Sql) : On unit := fun c =>
  match exec E q c with
  | (inl e, c') => (inl (EngineError e), c')
  | (inr _, c') => (inr tt, c')
  end.

(** [_inTransaction]: the first [match] is the [try] block, what
    follows it the [finally] block. *)
Definition _inTransaction {R : Type} (fn : On R) : On R := fun c =>
  if active E c then (inl AlreadyInTransaction, c)
  else
    let (outcome, c') :=
      match run BEGIN c with
      | (inl e, c1) => (inl e, c1)
      | (inr _, c1) =>
          match fn c1 with
          | (inl e, c2) => (inl e, c2)
          | (inr result, c2) =>
              if active E c2 then
                match run COMMIT c2 with
                | (inl e, c3) => (inl e, c3)
                | (inr _, c3) => (inr result, c3)
                end
              else (inr result, c2)
          end
      end in
    if active E c' then
      match run ROLLBACK c' with
      | (inl e, c'') => (inl e, c'')
      | (inr _, c'') => (outcome, c'')
      end
    else (outcome, c').

(** A callback that does a first part, commits, begins again and does a
    second part. *)
Definition commitThenBegin {A B : Type} (first : On A) (second : A -> On B)
  : On B := fun c =>
  match first c with
  | (inl e, c1) => (inl e, c1)
  | (inr x, c1) =>
      match run COMMIT c1 with
      | (inl e, c2) => (inl e, c2)
      | (inr _, c2) =>
          match run BEGIN c2 with
          | (inl e, c3) => (inl e, c3)
          | (inr _, c3) => second x c3
          end
      end
  end.

(** What one sees of a database: the data it holds, and, in a
    transaction, the data a ROLLBACK brings back. *)
Record View : Type := mkView {
  Data : Type;
  data : Db E -> Data;
  held : Db E -> option Data
}.

(** What makes an engine transactional.  Outside a transaction BEGIN
    opens one and keeps the data for a ROLLBACK, which brings them back
    and ends the transaction.  A COMMIT that goes through ends the
    transaction and leaves the data; a COMMIT that is refused leaves
    the transaction open, or has rolled it back. *)
Record Transactional (V : View) : Prop := mkTransactional {
  active_held : forall c, active E c = true <-> held V c <> None;
  begin_opens : forall c,
    active E c = false ->
    exists v c',
      exec E BEGIN c = (inr v, c')
      /\ data V c' = data V c /\ held V c' = Some (data V c);
  rollback_restores : forall c d,
    held V c = Some d ->
    exists v c',
      exec E ROLLBACK c = (inr v, c')
      /\ data V c' = d /\ held V c' = None;
  commit_ends : forall c d,
    held V c = Some d ->
    match exec E COMMIT c with
    | (inr _, c') => data V c' = data V c /\ held V c' = None
    | (inl _, c') =>
        held V c' = Some d \/ (held V c' = None /\ data V c' = d)
    end
}.

End Wrapper.

Arguments On E A : clear implicits.
Arguments run {E} q c.
Arguments _inTransaction {E R} fn c.
Arguments commitThenBegin {E A B} first second c.
Arguments Data {E} v.
Arguments data {E} v c.
Arguments held {E} v c.
Arguments Transactional E V : clear implicits.

(** The engine modelled above. *)
Definition sqlite : Engine := mkEngine Connection step inTransaction.

Definition sqliteView : View sqlite := mkView sqlite Database content saved.

(** The same engine with deferred foreign keys.  [pending] counts the
    rows written in the transaction whose deferred foreign key has no
    parent row.  While there is such a row COMMIT is refused and the
    transaction stays open; a COMMIT that goes through and a ROLLBACK
    leave no such row. *)
Record Deferring : Type := mkDeferring {
  connection : Connection;
  pending : nat
}.

Definition stepDeferring (q : Sql) (c : Deferring)
  : (SqliteError + option Value) * Deferring :=
  match q with
  | COMMIT =>
      if inTransaction (connection c) && negb (pending c =? 0)%nat
      then (inl ForeignKeyConstraintFailed,
            mkDeferring
              (mkConnection (content (connection c)) (saved (connection c))
                            (executed (connection c) ++ [COMMIT]))
              (pending c))
      else let (r, c') := step COMMIT (connection c) in (r, mkDeferring c' 0)
  | ROLLBACK =>
      let (r, c') := step ROLLBACK (connection c) in (r, mkDeferring c' 0)
  | _ =>
      let (r, c') := step q (connection c) in (r, mkDeferring c' (pending c))
  end.

Definition deferring : Engine :=
  mkEngine Deferring stepDeferring (fun c => inTransaction (connection c)).

Definition deferringView : View deferring :=
  mkView deferring Database (fun c => content (connection c))
         (fun c => saved (connection c)).

(** A callback that writes a row and returns; the deferred foreign key
    of the row has no parent row. *)
Definition orphanRow : On deferring nat := fun c =>
  let (r, c') := Examples.insertThenReturn (connection c) in
  (r, mkDeferring c' (S (pending c))).

End AnyEngine.

(** * Properties *)

(** ** JavaScript objects *)
Section JsFacts.
Context {V : Type}.
Implicit Types (o : Js.Obj V) (k : string).

Lemma get_some_in o k v : Js.get o k = Some v -> (k, v) ∈ o.
Proof.
  induction o as [|[k' v'] o IH]; simpl; [discriminate|].
  destruct (String.eqb_spec k' k) as [->|Hne]; intros H.
  - injection H as ->. left.
  - right. auto.
Qed.

Lemma get_some_key o k v : Js.get o k = Some v -> k ∈ Js.keys o.
Proof.
  intros H. apply get_some_in in H. unfold Js.keys.
  apply list_elem_of_In, in_map_iff. exists (k, v). split; [done|].
  by apply list_elem_of_In.
Qed.

Lemma key_get_some o k : k ∈ Js.keys o -> exists v, Js.get o k = Some v.
Proof.
  unfold Js.keys. induction o as [|[k' v'] o IH]; simpl.
  - intros H. by apply elem_of_nil in H.
  - intros H. destruct (String.eqb_spec k' k) as [->|Hne]; [eauto|].
    apply elem_of_cons in H as [H|H]; [congruence|auto].
Qed.

Lemma prop_of_key o k : k ∈ Js.keys o -> exists v, Js.prop o k = inr v /\ Js.get o k = Some v.
Proof.
  intros [v Hv]%key_get_some. exists v. unfold Js.prop. by rewrite Hv.
Qed.

End JsFacts.

(** ** [isSqlSafe] *)

Lemma isSqlSafe_allWordChars s : isSqlSafe s = allWordChars s.
Proof.
  unfold isSqlSafe. induction s as [|c s IH]; simpl; [done|].
  rewrite negb_orb, negb_involutive. by rewrite IH.
Qed.

Lemma isSqlSafe_cases s :
  isSqlSafe s = true <-> s = EmptyString \/ matchesIdentifierPattern s = true.
Proof.
  rewrite isSqlSafe_allWordChars. destruct s as [|c s]; simpl.
  - split; auto.
  - split; [auto|]. by intros [?|?].
Qed.

(** ** [_buildSchemaInfo] *)

Lemma forOf_addField fs ks : forall p l c,
  (forall k, k ∈ ks -> k ∈ Js.keys fs) ->
  forOf ks (addField fs) (mkObjectInfo fs p l c)
  = inr (mkObjectInfo fs
           (p ++ List.filter (fieldHas isPrimitive fs) ks)
           (l ++ List.filter (fieldHas isLink fs) ks)
           (c ++ List.filter (fieldHas isConnection fs) ks)).
Proof.
  induction ks as [|k ks IH]; intros p l c Hks; simpl.
  - by rewrite !app_nil_r.
  - destruct (prop_of_key fs k) as (v & Hprop & Hget); [apply Hks; left|].
    assert (Hkind : forall q, fieldHas q fs k = q v)
      by (intros q; unfold fieldHas; by rewrite Hget).
    unfold addField at 1. rewrite Hprop. cbn [List.filter]. rewrite !Hkind.
    destruct v; cbn -[List.filter fieldHas];
      rewrite IH by (intros; apply Hks; by right);
      by rewrite <- ?app_assoc.
Qed.

Lemma buildObjectEntry_total fs : buildObjectEntry fs = inr (entryOf fs).
Proof. unfold buildObjectEntry. by rewrite forOf_addField. Qed.

Lemma addType_other s acc k acc' T :
  addType s acc k = inr acc' -> T <> k ->
  objectTypes acc' !! T = objectTypes acc !! T.
Proof.
  unfold addType. intros Hstep Hne.
  destruct (Js.prop s k) as [e|[fs|cs]]; simpl in Hstep; [done|..].
  - rewrite buildObjectEntry_total in Hstep. injection Hstep as <-.
    simpl. by rewrite lookup_insert_ne.
  - by injection Hstep as <-.
Qed.

Lemma addType_total s acc k :
  k ∈ Js.keys s ->
  exists acc',
    addType s acc k = inr acc'
    /\ forall fs, Js.get s k = Some (OBJECT fs) ->
         objectTypes acc' !! k = Some (entryOf fs).
Proof.
  intros Hk. destruct (prop_of_key s k Hk) as (v & Hprop & Hget).
  unfold addType. rewrite Hprop, Hget. destruct v as [fs0|cs]; simpl.
  - rewrite buildObjectEntry_total. eexists. split; [reflexivity|].
    intros fs [= ->]. simpl. apply lookup_insert_eq.
  - eexists. split; [reflexivity|]. intros fs [=].
Qed.

Lemma forOf_addType_other s T ks : forall acc info,
  T ∉ ks -> forOf ks (addType s) acc = inr info ->
  objectTypes info !! T = objectTypes acc !! T.
Proof.
  induction ks as [|k ks IH]; intros acc info Hnin; simpl.
  - by intros [= <-].
  - apply not_elem_of_cons in Hnin as [Hne Hnin].
    destruct (addType s acc k) as [e|acc'] eqn:Hstep; [done|].
    intros Hrun. rewrite (IH acc' info Hnin Hrun).
    by eapply addType_other.
Qed.

(** The outer loop never throws, and the entry of a type it has passed
    is the closed form of the fields the schema gives to that name. *)
Lemma forOf_addType s ks : forall acc,
  (forall k, k ∈ ks -> k ∈ Js.keys s) ->
  exists info,
    forOf ks (addType s) acc = inr info
    /\ forall T fs, T ∈ ks -> Js.get s T = Some (OBJECT fs) ->
         objectTypes info !! T = Some (entryOf fs).
Proof.
  induction ks as [|k ks IH]; intros acc Hks; simpl.
  - exists acc. split; [done|]. intros T fs H. by apply elem_of_nil in H.
  - destruct (addType_total s acc k) as (acc' & Hstep & Hk);
      [apply Hks; left|].
    rewrite Hstep.
    destruct (IH acc') as (info & Hrun & Hinfo);
      [intros; apply Hks; by right|].
    exists info. split; [done|].
    intros T fs HT HTget.
    destruct (decide (T ∈ ks)) as [Hin|Hnin]; [by apply Hinfo|].
    apply elem_of_cons in HT as [->|?]; [|done].
    rewrite (forOf_addType_other s _ ks acc' info Hnin Hrun). by apply Hk.
Qed.

Lemma buildSchemaInfo_object s T fs :
  Js.get s T = Some (OBJECT fs) ->
  exists info,
    _buildSchemaInfo s = inr info
    /\ objectTypes info !! T = Some (entryOf fs).
Proof.
  intros HT. unfold _buildSchemaInfo.
  destruct (forOf_addType s (Js.keys s) (mkSchemaInfo ∅ ∅)) as (info & Hrun & Hinfo);
    [done|].
  exists info. split; [done|]. apply Hinfo; [|done]. by eapply get_some_key.
Qed.

Lemma elem_fieldsOfKind p fs (f : string) :
  f ∈ fieldsOfKind p fs <-> exists k, Js.get fs f = Some k /\ p k = true.
Proof.
  unfold fieldsOfKind, fieldHas.
  rewrite list_elem_of_In, filter_In, <- list_elem_of_In. split.
  - intros [_ H]. destruct (Js.get fs f) as [k|]; [eauto|done].
  - intros (k & Hget & Hp). split; [by eapply get_some_key|].
    by rewrite Hget.
Qed.

Lemma kinds_exclusive (p q : FieldType -> bool) fs :
  (forall k, p k = true -> q k = true -> False) ->
  fieldsOfKind p fs ## fieldsOfKind q fs.
Proof.
  intros Hpq f (k & Hk & Hp)%elem_fieldsOfKind (k' & Hk' & Hq)%elem_fieldsOfKind.
  rewrite Hk in Hk'. injection Hk' as <-. eauto.
Qed.

Lemma wellFormed_object s (T : string) fs :
  wellFormed s = true -> Js.get s T = Some (OBJECT fs) -> idFieldCount fs = 1.
Proof.
  unfold wellFormed. rewrite forallb_forall. intros Hwf HT.
  apply get_some_in, list_elem_of_In, Hwf in HT. simpl in HT.
  by apply Nat.eqb_eq.
Qed.

(** C4. For a well-formed schema and each of its object types,
    [_buildSchemaInfo] returns an entry whose three sequences are
    pairwise disjoint and hold no ID field, and whose members together
    with the ID field of the type are exactly the keys of its fields. *)
Theorem partition_completeness s (T : string) fs :
  wellFormed s = true ->
  Js.get s T = Some (OBJECT fs) ->
  exists info entry idField,
    _buildSchemaInfo s = inr info
    /\ objectTypes info !! T = Some entry
    /\ fields entry = fs
    /\ (forall f, Js.get fs f = Some ID <-> f = idField)
    /\ primitiveFieldNames entry ## linkFieldNames entry
    /\ primitiveFieldNames entry ## connectionFieldNames entry
    /\ linkFieldNames entry ## connectionFieldNames entry
    /\ (idField ∉ primitiveFieldNames entry ++ linkFieldNames entry
                    ++ connectionFieldNames entry)
    /\ forall f, f ∈ Js.keys fs <->
         f = idField \/ f ∈ primitiveFieldNames entry
         \/ f ∈ linkFieldNames entry \/ f ∈ connectionFieldNames entry.
Proof.
  intros Hwf HT.
  destruct (buildSchemaInfo_object s T fs HT) as (info & Hrun & Hentry).
  pose proof (wellFormed_object s T fs Hwf HT) as Hone.
  unfold idFieldCount in Hone.
  destruct (fieldsOfKind isId fs) as [|idField [|]] eqn:Hids; try done.
  assert (Hid : forall f, Js.get fs f = Some ID <-> f = idField).
  { intros f. transitivity (f ∈ fieldsOfKind isId fs).
    - rewrite elem_fieldsOfKind. split; [eauto|].
      by intros ([] & ? & ?).
    - rewrite Hids. apply list_elem_of_singleton. }
  exists info, (entryOf fs), idField. simpl.
  repeat split; try done.
  - by apply Hid.
  - by apply Hid.
  - apply kinds_exclusive. by intros [].
  - apply kinds_exclusive. by intros [].
  - apply kinds_exclusive. by intros [].
  - rewrite !elem_of_app, !elem_fieldsOfKind.
    assert (Js.get fs idField = Some ID) as Hget by by apply Hid.
    intros [(k & Hk & ?)|[(k & Hk & ?)|(k & Hk & ?)]];
      rewrite Hget in Hk; by injection Hk as <-.
  - intros [k Hk]%key_get_some. rewrite !elem_fieldsOfKind.
    destruct k; [left; by apply Hid|right..]; eauto 6.
  - rewrite !elem_fieldsOfKind.
    intros [->|[(k & Hk & _)|[(k & Hk & _)|(k & Hk & _)]]];
      try by eapply get_some_key.
    eapply get_some_key. by apply Hid.
Qed.

Lemma partition_completeness_witness :
  exists info entry idField,
    _buildSchemaInfo Examples.issueSchema = inr info
    /\ objectTypes info !! "Issue" = Some entry
    /\ fields entry = [("id", ID); ("title", PRIMITIVE);
                       ("author", NODE "User");
                       ("comments", CONNECTION "Comment")]
    /\ (forall f, Js.get (fields entry) f = Some ID <-> f = idField)
    /\ primitiveFieldNames entry ## linkFieldNames entry.
Proof.
  destruct (partition_completeness Examples.issueSchema "Issue"
              [("id", ID); ("title", PRIMITIVE); ("author", NODE "User");
               ("comments", CONNECTION "Comment")] eq_refl eq_refl)
    as (info & entry & idField & H1 & H2 & H3 & H4 & H5 & _).
  exists info, entry, idField. rewrite H3. auto.
Defined.

(** C10. [_buildSchemaInfo] does not ask for exactly one ID field: for
    an object type with none, or with several, it returns normally, and
    no ID field is in any of the three sequences, while the fields
    mapping of the entry still has it. *)
Theorem id_count_not_enforced s (T : string) fs :
  Js.get s T = Some (OBJECT fs) ->
  idFieldCount fs <> 1 ->
  exists info entry,
    _buildSchemaInfo s = inr info
    /\ objectTypes info !! T = Some entry
    /\ forall f, Js.get fs f = Some ID ->
         (f ∉ primitiveFieldNames entry)
         /\ (f ∉ linkFieldNames entry)
         /\ (f ∉ connectionFieldNames entry)
         /\ Js.get (fields entry) f = Some ID.
Proof.
  intros HT _.
  destruct (buildSchemaInfo_object s T fs HT) as (info & Hrun & Hentry).
  exists info, (entryOf fs). repeat split; try done; simpl;
    rewrite elem_fieldsOfKind; intros (k & Hk & Hp);
    rewrite H in Hk; by injection Hk as <-.
Qed.

Lemma id_count_not_enforced_witness :
  idFieldCount [("id", ID); ("other", ID); ("name", PRIMITIVE)] = 2
  /\ exists info entry,
       _buildSchemaInfo Examples.oddIdSchema = inr info
       /\ objectTypes info !! "TwoIds" = Some entry
       /\ forall f,
            Js.get [("id", ID); ("other", ID); ("name", PRIMITIVE)] f = Some ID ->
            (f ∉ primitiveFieldNames entry)
            /\ (f ∉ linkFieldNames entry)
            /\ (f ∉ connectionFieldNames entry)
            /\ Js.get (fields entry) f = Some ID.
Proof.
  split; [reflexivity|].
  apply (id_count_not_enforced Examples.oddIdSchema "TwoIds"
           [("id", ID); ("other", ID); ("name", PRIMITIVE)]).
  - reflexivity.
  - vm_compute. lia.
Defined.

(** C6, as the code has it. [isSqlSafe] returns true exactly when no
    code unit of the string is outside [A-Za-z0-9_]: when the string is
    empty or matches [^[A-Za-z0-9_]+$]. *)
Theorem isSqlSafe_characterisation s :
  isSqlSafe s = true
  <-> s = EmptyString \/ matchesIdentifierPattern s = true.
Proof. apply isSqlSafe_cases. Qed.

(** C6 fails at the empty string: [isSqlSafe] accepts it, the pattern
    does not. *)
Lemma isSqlSafe_accepts_empty_string :
  isSqlSafe EmptyString = true
  /\ matchesIdentifierPattern EmptyString = false.
Proof. split; reflexivity. Qed.

(** ** Database code: how computations compose *)

Lemma bind_unfold {A B : Type} (m : M A) (f : A -> M B) c :
  (m ≫= f) c = match m c with
               | (inl e, c') => (inl e, c')
               | (inr x, c') => f x c'
               end.
Proof. reflexivity. Qed.

(** A relation between the connection before and after, kept by every
    step of a computation, is kept by the computation. *)
Section Preservation.

Variable R : Connection -> Connection -> Prop.
Hypothesis R_refl : forall c, R c c.
Hypothesis R_trans : forall c1 c2 c3, R c1 c2 -> R c2 c3 -> R c1 c3.

Lemma preserves_ret {A : Type} (x : A) : preserves R (mret x).
Proof. intros c. apply R_refl. Qed.

Lemma preserves_throw {A : Type} (e : Exception) : preserves R (@throw A e).
Proof. intros c. apply R_refl. Qed.

Lemma preserves_lift {A : Type} (r : Result A) : preserves R (lift r).
Proof. intros c. apply R_refl. Qed.

Lemma preserves_bind {A B : Type} (m : M A) (f : A -> M B) :
  preserves R m -> (forall x, preserves R (f x)) -> preserves R (m ≫= f).
Proof.
  intros Hm Hf c. rewrite bind_unfold. specialize (Hm c).
  destruct (m c) as [[e|x] c']; simpl in *; [done|].
  eapply R_trans; [exact Hm|apply Hf].
Qed.

Lemma preserves_forEach {A : Type} (xs : list A) (body : A -> M unit) :
  (forall x, x ∈ xs -> preserves R (body x)) -> preserves R (forEach xs body).
Proof.
  induction xs as [|x xs IH]; intros Hbody; simpl.
  - apply preserves_ret.
  - apply preserves_bind; [apply Hbody; left|].
    intros _. apply IH. intros; apply Hbody. by right.
Qed.

End Preservation.

(** ** The engine *)

Lemma nameEq_iff a b : nameEq a b = true <-> foldCase a = foldCase b.
Proof. unfold nameEq. apply String.eqb_eq. Qed.

Lemma nameEq_refl a : nameEq a a = true.
Proof. by apply nameEq_iff. Qed.

Lemma nameEq_trans_false a b c :
  nameEq a b = false -> nameEq b c = true -> nameEq a c = false.
Proof.
  unfold nameEq. rewrite !String.eqb_neq, String.eqb_eq. congruence.
Qed.

Lemma step_data q c :
  isControl q = false ->
  step q c = match apply q (content c) with
             | inl e =>
                 (inl e, mkConnection (content c) (saved c) (executed c ++ [q]))
             | inr (v, d) =>
                 (inr v, mkConnection d (saved c) (executed c ++ [q]))
             end.
Proof. by destruct q. Qed.

Lemma run_data q c :
  isControl q = false ->
  run q c = match apply q (content c) with
            | inl e => (inl (EngineError e),
                        mkConnection (content c) (saved c) (executed c ++ [q]))
            | inr (_, d) =>
                (inr tt, mkConnection d (saved c) (executed c ++ [q]))
            end.
Proof.
  intros Hq. unfold run. rewrite step_data by done.
  by destruct (apply q (content c)) as [e|[v d]].
Qed.

Lemma pluckGet_data q c :
  isControl q = false ->
  pluckGet q c = match apply q (content c) with
                 | inl e => (inl (EngineError e),
                             mkConnection (content c) (saved c)
                                          (executed c ++ [q]))
                 | inr (v, d) =>
                     (inr v, mkConnection d (saved c) (executed c ++ [q]))
                 end.
Proof.
  intros Hq. unfold pluckGet. rewrite step_data by done.
  by destruct (apply q (content c)) as [e|[v d]].
Qed.

Lemma run_sameTransaction q :
  isControl q = false -> preserves sameTransaction (run q).
Proof.
  intros Hq c. rewrite run_data by done.
  by destruct (apply q (content c)) as [e|[v d]].
Qed.

Lemma pluckGet_sameTransaction q :
  isControl q = false -> preserves sameTransaction (pluckGet q).
Proof.
  intros Hq c. rewrite pluckGet_data by done.
  by destruct (apply q (content c)) as [e|[v d]].
Qed.

Lemma grown_refl c : grown c c.
Proof.
  repeat split; [by exists []; rewrite app_nil_r..].
Qed.

Lemma grown_trans c1 c2 c3 : grown c1 c2 -> grown c2 c3 -> grown c1 c3.
Proof.
  intros (Hs & [ts Ht] & [qs Hq]) (Hs' & [ts' Ht'] & [qs' Hq']).
  repeat split.
  - congruence.
  - exists (ts ++ ts'). rewrite Ht', Ht. by rewrite app_assoc.
  - exists (qs ++ qs'). rewrite Hq', Hq. by rewrite app_assoc.
Qed.

(** A successful CREATE adds at the end or changes nothing. *)
Lemma apply_ddl_tables q d v d' :
  isDdl q = true -> apply q d = inr (v, d') ->
  exists ts, tables d' = tables d ++ ts.
Proof.
  destruct q as [| | |ine name cols cons|u name table cols| |]; try done;
    intros _; simpl.
  - destruct (lookupTable _ d).
    + destruct ine; [|done]. intros [= _ <-]. exists []. by rewrite app_nil_r.
    + destruct (lookupIndex _ d); [done|].
      destruct (columnError _ _ _); [done|]. intros [= _ <-]. simpl. eauto.
  - destruct (lookupTable table d); [|done].
    destruct (lookupIndex name d); [done|].
    destruct (lookupTable name d); [done|].
    destruct (missingColumn _ _); [done|]. intros [= _ <-]. simpl.
    exists []. by rewrite app_nil_r.
Qed.

Lemma run_grown q : isDdl q = true -> preserves grown (run q).
Proof.
  intros Hq c. rewrite run_data by by destruct q.
  destruct (apply q (content c)) as [e|[v d]] eqn:Happly; simpl.
  - repeat split; simpl; eauto. exists []. by rewrite app_nil_r.
  - repeat split; simpl; eauto. by eapply apply_ddl_tables.
Qed.

Lemma lookupTable_grown name d d' t ts :
  tables d' = tables d ++ ts ->
  lookupTable name d = Some t -> lookupTable name d' = Some t.
Proof.
  unfold lookupTable. intros -> H.
  induction (tables d) as [|t0 l IH]; simpl in *; [done|].
  destruct (nameEq (tbl_name t0) name); [done|auto].
Qed.

Lemma lookupTable_added name d d' t :
  tables d' = tables d ++ [t] ->
  lookupTable name d = None -> nameEq (tbl_name t) name = true ->
  lookupTable name d' = Some t.
Proof.
  unfold lookupTable. intros -> H Ht.
  induction (tables d) as [|t0 l IH]; simpl in *; [by rewrite Ht|].
  destruct (nameEq (tbl_name t0) name); [done|auto].
Qed.

(** ** [_inTransaction] *)

Lemma inTransaction_busy {R : Type} (fn : M R) c :
  inTransaction c = true ->
  _inTransaction fn c = (inl AlreadyInTransaction, c).
Proof.
  intros Hc. unfold _inTransaction. rewrite bind_unfold.
  unfold getInTransaction. by rewrite Hc.
Qed.

Lemma cleanup_outcome c1 :
  (open ← getInTransaction;
   if (open : bool) then run ROLLBACK else mret tt) c1
  = (inr tt, rolledBack c1).
Proof.
  unfold mbind, M_bind, mret, M_ret, getInTransaction, inTransaction,
         rolledBack, run, step.
  destruct c1 as [d [before|] log]; reflexivity.
Qed.

Lemma commit_outcome {R : Type} (v : R) c1 :
  (open ← getInTransaction;
   (if (open : bool) then run COMMIT else mret tt) ;;
   mret v) c1
  = (inr v, committed c1).
Proof.
  unfold mbind, M_bind, mret, M_ret, getInTransaction, inTransaction,
         committed, run, step.
  destruct c1 as [d [before|] log]; reflexivity.
Qed.

Lemma rolledBack_committed c1 : rolledBack (committed c1) = committed c1.
Proof.
  unfold rolledBack, committed.
  destruct (saved c1) eqn:Hsaved; simpl; by rewrite ?Hsaved.
Qed.

Lemma inTransaction_outcome {R : Type} (fn : M R) c :
  inTransaction c = false ->
  _inTransaction fn c = match fn (begun c) with
                        | (inl e, c1) => (inl e, rolledBack c1)
                        | (inr v, c1) => (inr v, committed c1)
                        end.
Proof.
  intros Hc. unfold _inTransaction. rewrite bind_unfold.
  unfold getInTransaction at 1. rewrite Hc. unfold tryFinally.
  rewrite bind_unfold.
  assert (Hbegin : run BEGIN c = (inr tt, begun c)).
  { unfold run, step, begun. unfold inTransaction in Hc.
    by destruct (saved c). }
  rewrite Hbegin, bind_unfold.
  destruct (fn (begun c)) as [[e|v] c1]; cbv beta iota;
    [|rewrite commit_outcome; cbv beta iota]; rewrite cleanup_outcome;
    by rewrite ?rolledBack_committed.
Qed.

(** ** [_inTransaction] over any engine *)

(** [_inTransaction] on the engine modelled above is the wrapper over
    any engine, taken at that engine. *)
Lemma inTransaction_sqlite {R : Type} (fn : M R) c :
  _inTransaction fn c = AnyEngine._inTransaction (E := AnyEngine.sqlite) fn c.
Proof.
  assert (Hfinally : forall (outcome : Result R) c',
            (let (r, c2) :=
               (open ← getInTransaction;
                if (open : bool) then run ROLLBACK else mret tt) c' in
             match r with
             | inl e => (inl e, c2)
             | inr _ => (outcome, c2)
             end)
            = if inTransaction c'
              then match run ROLLBACK c' with
                   | (inl e, c2) => (inl e, c2)
                   | (inr _, c2) => (outcome, c2)
                   end
              else (outcome, c')).
  { intros outcome c'. rewrite bind_unfold. unfold getInTransaction.
    by destruct (inTransaction c'). }
  unfold _inTransaction, AnyEngine._inTransaction, tryFinally.
  rewrite !bind_unfold. unfold getInTransaction at 1.
  cbn [AnyEngine.active AnyEngine.sqlite].
  destruct (inTransaction c); [reflexivity|].
  rewrite bind_unfold.
  change (@AnyEngine.run AnyEngine.sqlite) with run.
  destruct (run BEGIN c) as [[e|[]] c1]; [apply Hfinally|].
  rewrite bind_unfold.
  destruct (fn c1) as [[e|v] c2]; [apply Hfinally|].
  rewrite bind_unfold. unfold getInTransaction at 1.
  destruct (inTransaction c2); rewrite bind_unfold.
  - destruct (run COMMIT c2) as [[e|[]] c3]; apply Hfinally.
  - apply Hfinally.
Qed.

Lemma sqlite_transactional :
  AnyEngine.Transactional AnyEngine.sqlite AnyEngine.sqliteView.
Proof.
  split; simpl.
  - intros c. unfold inTransaction. by destruct (saved c).
  - intros c Hc. unfold inTransaction in Hc. unfold step.
    destruct (saved c); [done|]. by eexists _, _.
  - intros c d Hd. unfold step. rewrite Hd. by eexists _, _.
  - intros c d Hd. unfold step. by rewrite Hd.
Qed.

Lemma deferring_transactional :
  AnyEngine.Transactional AnyEngine.deferring AnyEngine.deferringView.
Proof.
  split; simpl.
  - intros c. unfold inTransaction. by destruct (saved (AnyEngine.connection c)).
  - intros c Hc. unfold inTransaction in Hc. unfold step.
    destruct (saved (AnyEngine.connection c)); [done|]. by eexists _, _.
  - intros c d Hd. unfold step. rewrite Hd. by eexists _, _.
  - intros c d Hd. unfold inTransaction, step. rewrite Hd. simpl.
    destruct (negb _); simpl; [by left|done].
Qed.

Section AnyEngineFacts.

Import AnyEngine.

Variable E : Engine.
Variable V : View E.
Hypothesis T : Transactional E V.

Lemma active_of_held c d : held V c = Some d -> active E c = true.
Proof. intros Hd. apply (active_held E V T). by rewrite Hd. Qed.

Lemma inactive_of_held c : held V c = None -> active E c = false.
Proof.
  intros Hd. destruct (active E c) eqn:Hc; [|done].
  by apply (active_held E V T) in Hc.
Qed.

Lemma held_of_active c : active E c = true -> exists d, held V c = Some d.
Proof.
  intros Hc. apply (active_held E V T) in Hc.
  destruct (held V c); [eauto|done].
Qed.

(** The [finally] block. *)
Lemma finally_outcome {R : Type} (outcome : Result R) c :
  exists c',
    (if active E c
     then match run ROLLBACK c with
          | (inl e, c'') => (inl e, c'')
          | (inr _, c'') => (outcome, c'')
          end
     else (outcome, c)) = (outcome, c')
    /\ active E c' = false
    /\ (active E c = false -> c' = c)
    /\ (forall d, held V c = Some d ->
          data V c' = d
          /\ exists v, exec E ROLLBACK c = (inr v, c')).
Proof.
  destruct (active E c) eqn:Hc.
  - destruct (held_of_active c Hc) as [d Hd].
    destruct (rollback_restores E V T c d Hd) as (v & c' & Hrun & Hdata & Hheld).
    exists c'. unfold run. rewrite Hrun.
    split; [done|]. split; [by apply inactive_of_held|]. split; [done|].
    intros d' Hd'. split; [congruence|eauto].
  - exists c. split; [done|]. split; [done|]. split; [done|].
    intros d Hd. apply active_of_held in Hd. congruence.
Qed.

(** The wrapper once BEGIN has gone through. *)
Lemma inTransaction_begun {R : Type} (fn : On E R) c v0 c1 :
  active E c = false ->
  exec E BEGIN c = (inr v0, c1) ->
  AnyEngine._inTransaction fn c
  = let (outcome, c') :=
      match fn c1 with
      | (inl e, c2) => (inl e, c2)
      | (inr result, c2) =>
          if active E c2 then
            match exec E COMMIT c2 with
            | (inl e, c3) => (inl (EngineError e), c3)
            | (inr _, c3) => (inr result, c3)
            end
          else (inr result, c2)
      end in
    if active E c' then
      match run ROLLBACK c' with
      | (inl e, c'') => (inl e, c'')
      | (inr _, c'') => (outcome, c'')
      end
    else (outcome, c').
Proof.
  intros Hc Hbegin. unfold AnyEngine._inTransaction. rewrite Hc.
  unfold run at 1. rewrite Hbegin.
  destruct (fn c1) as [[e|x] c2]; [done|].
  destruct (active E c2); [|done].
  unfold run at 1. by destruct (exec E COMMIT c2) as [[e|v] c3].
Qed.

End AnyEngineFacts.

Section Contract.

Import AnyEngine.

(** C8, as the code has it, over any transactional engine.
    [_inTransaction] on a database that is in a transaction throws and
    runs nothing, not even BEGIN.  Otherwise it runs BEGIN and the
    callback.  When the callback throws, the same exception reaches the
    caller, a transaction still open is rolled back, and the database
    is in no transaction.  When the callback returns and no transaction
    is open, its value is returned.  When it returns and a transaction
    is open, COMMIT is run: if that goes through, the value of the
    callback is returned and what it wrote stays; if the engine refuses
    the COMMIT, the call throws the error of the engine instead of
    returning, and the transaction is rolled back. *)
Theorem inTransaction_contract (E : Engine) (V : View E)
    (T : Transactional E V) {R : Type} (fn : On E R) (c : Db E) :
  (active E c = true ->
     AnyEngine._inTransaction fn c = (inl AlreadyInTransaction, c))
  /\ (active E c = false ->
      exists v0 c1,
        exec E BEGIN c = (inr v0, c1)
        /\ forall c2,
          (forall e, fn c1 = (inl e, c2) ->
             exists c3,
               AnyEngine._inTransaction fn c = (inl e, c3)
               /\ active E c3 = false
               /\ (active E c2 = false -> c3 = c2)
               /\ (forall d, held V c2 = Some d ->
                     data V c3 = d
                     /\ exists v, exec E ROLLBACK c2 = (inr v, c3)))
          /\ (forall r, fn c1 = (inr r, c2) ->
                (active E c2 = false ->
                   AnyEngine._inTransaction fn c = (inr r, c2))
                /\ (forall d, held V c2 = Some d ->
                      match exec E COMMIT c2 with
                      | (inr _, c3) =>
                          AnyEngine._inTransaction fn c = (inr r, c3)
                          /\ active E c3 = false
                          /\ data V c3 = data V c2
                      | (inl err, c3) =>
                          exists c4,
                            AnyEngine._inTransaction fn c
                            = (inl (EngineError err), c4)
                            /\ active E c4 = false
                            /\ data V c4 = d
                      end))).
Proof.
  split.
  - intros Hc. unfold AnyEngine._inTransaction. by rewrite Hc.
  - intros Hc. destruct (begin_opens E V T c Hc) as (v0 & c1 & Hbegin & _).
    exists v0, c1. split; [done|]. intros c2.
    rewrite (inTransaction_begun E fn c v0 c1 Hc Hbegin). split.
    + intros e ->. cbv beta iota.
      destruct (finally_outcome E V T (inl e : Result R) c2)
        as (c3 & Heq & Hc3 & Hsame & Hback).
      exists c3. split; [exact Heq|done].
    + intros r ->. cbv beta iota. split.
      * intros Hc2. by rewrite Hc2, Hc2.
      * intros d Hd. rewrite (active_of_held E V T c2 d Hd).
        pose proof (commit_ends E V T c2 d Hd) as Hcommit.
        destruct (exec E COMMIT c2) as [[err|v] c3]; cbv beta iota.
        -- destruct (finally_outcome E V T
                       (inl (EngineError err) : Result R) c3)
             as (c4 & Heq & Hc4 & Hsame & Hback).
           exists c4. split; [exact Heq|]. split; [done|].
           destruct Hcommit as [Hopen|[Hclosed Hdata]].
           ++ by destruct (Hback d Hopen).
           ++ rewrite Hsame; [done|]. by apply (inactive_of_held E V T).
        -- destruct Hcommit as [Hdata Hclosed].
           by rewrite (inactive_of_held E V T c3 Hclosed).
Qed.

Lemma inTransaction_contract_witness :
  (active deferring (mkDeferring fresh 0) = true ->
     AnyEngine._inTransaction orphanRow (mkDeferring fresh 0)
     = (inl AlreadyInTransaction, mkDeferring fresh 0))
  /\ (active deferring (mkDeferring fresh 0) = false ->
      exists v0 c1,
        exec deferring BEGIN (mkDeferring fresh 0) = (inr v0, c1)
        /\ forall c2,
          (forall e, orphanRow c1 = (inl e, c2) ->
             exists c3,
               AnyEngine._inTransaction orphanRow (mkDeferring fresh 0)
               = (inl e, c3)
               /\ active deferring c3 = false
               /\ (active deferring c2 = false -> c3 = c2)
               /\ (forall d, held deferringView c2 = Some d ->
                     data deferringView c3 = d
                     /\ exists v, exec deferring ROLLBACK c2 = (inr v, c3)))
          /\ (forall r, orphanRow c1 = (inr r, c2) ->
                (active deferring c2 = false ->
                   AnyEngine._inTransaction orphanRow (mkDeferring fresh 0)
                   = (inr r, c2))
                /\ (forall d, held deferringView c2 = Some d ->
                      match exec deferring COMMIT c2 with
                      | (inr _, c3) =>
                          AnyEngine._inTransaction orphanRow
                            (mkDeferring fresh 0) = (inr r, c3)
                          /\ active deferring c3 = false
                          /\ data deferringView c3 = data deferringView c2
                      | (inl err, c3) =>
                          exists c4,
                            AnyEngine._inTransaction orphanRow
                              (mkDeferring fresh 0)
                            = (inl (EngineError err), c4)
                            /\ active deferring c4 = false
                            /\ data deferringView c4 = d
                      end))).
Proof.
  apply (inTransaction_contract deferring deferringView
           deferring_transactional orphanRow (mkDeferring fresh 0)).
Defined.

(** C8 fails where the engine refuses the COMMIT: the callback has
    returned 7, and the call throws the error of the engine; what the
    callback wrote is rolled back. *)
Lemma commit_refused_after_return :
  fst (orphanRow (mkDeferring (begun fresh) 0)) = inr 7
  /\ AnyEngine._inTransaction orphanRow (mkDeferring fresh 0)
     = (inl (EngineError ForeignKeyConstraintFailed),
        mkDeferring
          (mkConnection emptyDatabase None
             [BEGIN; createMeta; insertMeta "x"; COMMIT; ROLLBACK])
          0).
Proof. split; reflexivity. Qed.

End Contract.

(** ** [_initialize]: what fails is rolled back *)

Lemma sameTransaction_refl c : sameTransaction c c.
Proof. done. Qed.

Lemma sameTransaction_trans c1 c2 c3 :
  sameTransaction c1 c2 -> sameTransaction c2 c3 -> sameTransaction c1 c3.
Proof. unfold sameTransaction. congruence. Qed.

Lemma grown_sameTransaction {A : Type} (m : M A) :
  preserves grown m -> preserves sameTransaction m.
Proof. intros Hm c. by destruct (Hm c). Qed.

Lemma createPrimitivesTable_grown s (typename : string) :
  preserves grown (createPrimitivesTable s typename).
Proof.
  unfold createPrimitivesTable.
  apply preserves_bind; [apply grown_trans| |].
  { apply preserves_lift, grown_refl. }
  intros [fs|cs]; [|apply preserves_ret, grown_refl].
  destruct (negb (isSqlSafe typename));
    [apply preserves_throw, grown_refl|].
  apply preserves_bind; [apply grown_trans| |].
  { apply preserves_lift, grown_refl. }
  intros names.
  apply preserves_bind; [apply grown_trans| |].
  { apply preserves_lift, grown_refl. }
  intros tableName. by apply run_grown.
Qed.

Lemma primitivesLoop_grown s ks :
  preserves grown (forEach ks (createPrimitivesTable s)).
Proof.
  apply preserves_forEach; [apply grown_refl|apply grown_trans|].
  intros. apply createPrimitivesTable_grown.
Qed.

Lemma structuralLoop_grown : preserves grown (forEach structuralTables run).
Proof.
  apply preserves_forEach; [apply grown_refl|apply grown_trans|].
  intros q Hq. apply run_grown.
  unfold structuralTables in Hq.
  repeat (apply elem_of_cons in Hq as [->|Hq]; [done|]).
  by apply elem_of_nil in Hq.
Qed.

Lemma callback_sameTransaction blob s :
  preserves sameTransaction (initializeCallback blob s).
Proof.
  unfold initializeCallback.
  apply preserves_bind; [apply sameTransaction_trans| |].
  { by apply run_sameTransaction. }
  intros _.
  apply preserves_bind; [apply sameTransaction_trans| |].
  { by apply pluckGet_sameTransaction. }
  intros existingBlob.
  destruct (strictEqualsString existingBlob blob);
    [apply preserves_ret, sameTransaction_refl|].
  destruct (bool_decide (existingBlob <> None));
    [apply preserves_throw, sameTransaction_refl|].
  apply preserves_bind; [apply sameTransaction_trans| |].
  { by apply run_sameTransaction. }
  intros _.
  apply preserves_bind; [apply sameTransaction_trans| |].
  { apply grown_sameTransaction, structuralLoop_grown. }
  intros _. apply grown_sameTransaction, primitivesLoop_grown.
Qed.

(** How [_initialize] ends on a connection that is in no transaction:
    the callback runs after BEGIN, and its transaction is committed or
    rolled back. *)
Lemma initialize_outcome stringify s c :
  inTransaction c = false ->
  let blob := stringify (mkMeta "MIRROR_v1" s) in
  _initialize stringify s c
  = match initializeCallback blob s (begun c) with
    | (inl e, c1) =>
        (inl e, mkConnection (content c) None (executed c1 ++ [ROLLBACK]))
    | (inr v, c1) =>
        (inr v, mkConnection (content c1) None (executed c1 ++ [COMMIT]))
    end.
Proof.
  intros Hc blob. unfold _initialize. fold blob.
  rewrite inTransaction_outcome by done.
  pose proof (callback_sameTransaction blob s (begun c)) as Hsaved.
  unfold sameTransaction in Hsaved.
  destruct (initializeCallback blob s (begun c)) as [[e|v] c1];
    simpl in Hsaved; unfold rolledBack, committed; by rewrite Hsaved.
Qed.

Lemma initialize_failure stringify s c e c' :
  _initialize stringify s c = (inl e, c') ->
  content c' = content c /\ saved c' = saved c.
Proof.
  destruct (inTransaction c) eqn:Hc.
  - unfold _initialize. rewrite inTransaction_busy by done.
    by intros [= _ <-].
  - rewrite initialize_outcome by done.
    destruct (initializeCallback _ s (begun c)) as [[e1|v] c1];
      [|done].
    intros [= _ <-]. simpl. split; [done|].
    unfold inTransaction in Hc. by destruct (saved c).
Qed.

(** C3. When [_initialize] fails on a fresh database, whatever the
    reason, the database is empty as before: no table, no index, no
    [meta] row, and no transaction left open. *)
Theorem all_or_nothing (stringify : MetaObject -> string) s e c' :
  _initialize stringify s fresh = (inl e, c') ->
  content c' = emptyDatabase
  /\ inTransaction c' = false
  /\ metaBlob (content c') = None.
Proof.
  intros [Hcontent Hsaved]%initialize_failure.
  unfold inTransaction. rewrite Hcontent, Hsaved. done.
Qed.

Lemma all_or_nothing_witness :
  fst (_initialize StableJson.stringify Examples.dropTableSchema fresh)
  = inl (InvalidObjectTypeName "Issue; DROP TABLE objects;--")
  /\ content (snd (_initialize StableJson.stringify
                     Examples.dropTableSchema fresh)) = emptyDatabase.
Proof.
  split; [reflexivity|].
  apply (all_or_nothing StableJson.stringify Examples.dropTableSchema
           (InvalidObjectTypeName "Issue; DROP TABLE objects;--")).
  reflexivity.
Defined.

(** ** The [meta] row *)

Lemma nameEq_sym a b : nameEq a b = nameEq b a.
Proof.
  unfold nameEq.
  destruct (String.eqb_spec (foldCase a) (foldCase b)) as [->|Hne].
  - by rewrite String.eqb_refl.
  - symmetry. apply String.eqb_neq. congruence.
Qed.

Lemma metaBlob_lookup d :
  metaBlob d
  = match lookupTable "meta" d with
    | None => None
    | Some t =>
        match columnIndex "schema" (tbl_columns t) with
        | None => None
        | Some pos =>
            option_map (fun row => nth pos row Null) (head (tbl_rows t))
        end
    end.
Proof.
  unfold metaBlob, apply, selectMeta.
  destruct (lookupTable "meta" d) as [t|]; [|done].
  by destruct (columnIndex "schema" (tbl_columns t)).
Qed.

Lemma apply_select_same column table d v d' :
  apply (SELECT column table) d = inr (v, d') -> d' = d.
Proof.
  simpl. destruct (lookupTable table d) as [t|]; [|done].
  destruct (columnIndex column (tbl_columns t)); [|done].
  by intros [= _ <-].
Qed.

Lemma metaBlob_select d v :
  metaBlob d = Some v ->
  apply selectMeta d = inr (Some v, d)
  /\ exists t, lookupTable "meta" d = Some t.
Proof.
  unfold metaBlob. intros H.
  destruct (apply selectMeta d) as [e|[v' d']] eqn:Hsel; [done|].
  pose proof (apply_select_same _ _ _ _ _ Hsel) as ->. subst v'.
  split; [done|]. simpl in Hsel.
  destruct (lookupTable "meta" d); [eauto|done].
Qed.

Lemma metaBlob_grown d d' ts t :
  tables d' = tables d ++ ts ->
  lookupTable "meta" d = Some t ->
  metaBlob d' = metaBlob d.
Proof.
  intros Hts Ht. rewrite !metaBlob_lookup.
  by rewrite (lookupTable_grown _ _ _ _ _ Hts Ht), Ht.
Qed.

Lemma lookupTable_replaceTable name d t t' :
  lookupTable name d = Some t -> tbl_name t' = tbl_name t ->
  lookupTable name (replaceTable t' d) = Some t'.
Proof.
  unfold lookupTable, replaceTable. simpl. intros Hfind Hname.
  assert (Ht : nameEq (tbl_name t') name = true).
  { rewrite Hname. by apply find_some in Hfind as [_ ?]. }
  induction (tables d) as [|t0 l IH]; simpl in *; [done|].
  destruct (nameEq (tbl_name t0) name) eqn:Ht0.
  - injection Hfind as ->.
    rewrite Hname, nameEq_refl. simpl. by rewrite Ht.
  - rewrite (nameEq_trans_false _ _ _ Ht0) by (by rewrite nameEq_sym).
    simpl. rewrite Ht0. auto.
Qed.

Lemma columnIndex_nth {A : Type} name cols pos (f : ColumnDef -> A) dflt :
  columnIndex name cols = Some pos ->
  exists c, nameEq (col_name c) name = true
            /\ nth pos (map f cols) dflt = f c.
Proof.
  revert pos. induction cols as [|c cols IH]; intros pos; simpl; [done|].
  destruct (nameEq (col_name c) name) eqn:Hc.
  - intros [= <-]. eauto.
  - destruct (columnIndex name cols) as [p|]; [|done].
    intros [= <-]. simpl. by apply IH.
Qed.

(** After the INSERT of [_initialize] on a [meta] table without rows,
    the table has the blob. *)
Lemma insertMeta_blob blob d d0 v d' :
  apply selectMeta d = inr (None, d0) ->
  apply (insertMeta blob) d = inr (v, d') ->
  metaBlob d' = Some (Text blob)
  /\ exists t, lookupTable "meta" d' = Some t.
Proof.
  unfold selectMeta, insertMeta, apply.
  destruct (lookupTable "meta" d) as [t|] eqn:Ht; [|done].
  destruct (columnIndex "schema" (tbl_columns t)) as [pos|] eqn:Hpos;
    [|done].
  destruct (tbl_rows t) as [|r rows] eqn:Hrows; [|done]. intros _.
  destruct (missingColumn _ _); [done|].
  destruct (violatedColumn _ _ _ _); [done|].
  intros [= _ <-].
  set (t' := mkTable _ _ _ _).
  assert (Ht' : lookupTable "meta" (replaceTable t' d) = Some t')
    by by apply (lookupTable_replaceTable _ _ t).
  split; [|eauto].
  rewrite metaBlob_lookup, Ht'. simpl. rewrite Hpos. simpl.
  destruct (columnIndex_nth "schema" (tbl_columns t) pos
              (fun c => if nameEq "zero" (col_name c) then Integer 0
                        else if nameEq "schema" (col_name c) then Text blob
                        else Null) Null Hpos)
    as (c & Hc & ->).
  rewrite (nameEq_trans_false "zero" "schema" (col_name c))
    by (done || by rewrite nameEq_sym).
  by rewrite nameEq_sym, Hc.
Qed.

Lemma strictEqualsString_true v blob :
  strictEqualsString v blob = true -> v = Some (Text blob).
Proof.
  destruct v as [[| |t]|]; try done. simpl.
  by intros ->%String.eqb_eq.
Qed.

(** When the callback of [_initialize] returns, [meta] holds the blob. *)
Lemma callback_success blob s c c1 :
  initializeCallback blob s c = (inr tt, c1) ->
  metaBlob (content c1) = Some (Text blob).
Proof.
  unfold initializeCallback.
  rewrite bind_unfold, run_data by done.
  destruct (apply createMeta (content c)) as [e|[v0 d0]]; [done|].
  rewrite bind_unfold, pluckGet_data by done. simpl content.
  destruct (apply selectMeta d0) as [e|[existing d1]] eqn:Hsel; [done|].
  pose proof (apply_select_same _ _ _ _ _ Hsel) as ->.
  destruct (strictEqualsString existing blob) eqn:Hsame.
  { intros [= <-]. simpl. unfold metaBlob. rewrite Hsel.
    by apply strictEqualsString_true. }
  destruct (bool_decide (existing <> None)) eqn:Hsome; [done|].
  apply bool_decide_eq_false in Hsome.
  assert (existing = None) as ->
    by (destruct existing; [by destruct Hsome|done]).
  rewrite bind_unfold, run_data by done. simpl content.
  destruct (apply (insertMeta blob) d0) as [e|[v1 d1]] eqn:Hins; [done|].
  destruct (insertMeta_blob _ _ _ _ _ Hsel Hins) as [Hblob [t Ht]].
  rewrite bind_unfold.
  set (c2 := mkConnection d1 _ _).
  pose proof (structuralLoop_grown c2) as (_ & [ts Hts] & _).
  destruct (forEach structuralTables run c2) as [[e|[]] c3]; [done|].
  simpl in Hts.
  pose proof (primitivesLoop_grown s (Js.keys s) c3) as (_ & [ts' Hts'] & _).
  intros Hloop. rewrite Hloop in Hts'. simpl in Hts'.
  rewrite Hts, <- app_assoc in Hts'.
  by rewrite (metaBlob_grown d1 _ _ t Hts' Ht).
Qed.

(** ** The log of statements does not influence the mirror *)

Lemma logBlind_ret {A : Type} (x : A) : logBlind (mret x).
Proof. by intros c c' H. Qed.

Lemma logBlind_throw {A : Type} (e : Exception) : logBlind (@throw A e).
Proof. by intros c c' H. Qed.

Lemma logBlind_lift {A : Type} (r : Result A) : logBlind (lift r).
Proof. by intros c c' H. Qed.

Lemma logBlind_getInTransaction : logBlind getInTransaction.
Proof.
  intros c c' [Hd Hs]. unfold getInTransaction, inTransaction. simpl.
  by rewrite Hs.
Qed.

Lemma logBlind_bind {A B : Type} (m : M A) (f : A -> M B) :
  logBlind m -> (forall x, logBlind (f x)) -> logBlind (m ≫= f).
Proof.
  intros Hm Hf c c' Hc. rewrite !bind_unfold.
  destruct (Hm c c' Hc) as [Hfst Hsnd].
  destruct (m c) as [[e|x] c1], (m c') as [[e'|x'] c1']; simpl in *;
    try done.
  - by injection Hfst as <-.
  - injection Hfst as <-. by apply Hf.
Qed.

Lemma logBlind_forEach {A : Type} (xs : list A) (body : A -> M unit) :
  (forall x, logBlind (body x)) -> logBlind (forEach xs body).
Proof.
  intros Hbody. induction xs as [|x xs IH]; simpl.
  - apply logBlind_ret.
  - apply logBlind_bind; [apply Hbody|by intros _].
Qed.

Lemma logBlind_tryFinally {A : Type} (body : M A) (cleanup : M unit) :
  logBlind body -> logBlind cleanup -> logBlind (tryFinally body cleanup).
Proof.
  intros Hbody Hcleanup c c' Hc. unfold tryFinally.
  destruct (Hbody c c' Hc) as [Hfst Hsnd].
  destruct (body c) as [r c1], (body c') as [r' c1']; simpl in *.
  destruct (Hcleanup c1 c1' Hsnd) as [Hfst' Hsnd'].
  destruct (cleanup c1) as [[e|[]] c2], (cleanup c1') as [[e'|[]] c2'];
    simpl in *; try done; split; try done; congruence.
Qed.

Lemma step_logBlind q c c' :
  sameData c c' ->
  fst (step q c) = fst (step q c')
  /\ sameData (snd (step q c)) (snd (step q c')).
Proof.
  destruct c as [d sv log], c' as [d' sv' log'].
  intros [Hd Hs]. simpl in Hd, Hs. subst d' sv'.
  destruct q; simpl; try (by destruct sv);
    match goal with
    | |- context [match ?a with inl _ => _ | inr _ => _ end] =>
        by destruct a as [?|[? ?]]
    end.
Qed.

Lemma logBlind_run q : logBlind (run q).
Proof.
  intros c c' Hc. unfold run.
  destruct (step_logBlind q c c' Hc) as [Hfst Hsnd].
  destruct (step q c) as [[e|v] c1], (step q c') as [[e'|v'] c1'];
    simpl in *; try done.
  by injection Hfst as <-.
Qed.

Lemma logBlind_pluckGet q : logBlind (pluckGet q).
Proof.
  intros c c' Hc. unfold pluckGet.
  destruct (step_logBlind q c c' Hc) as [Hfst Hsnd].
  destruct (step q c) as [[e|v] c1], (step q c') as [[e'|v'] c1'];
    simpl in *; try done.
  - by injection Hfst as <-.
  - by injection Hfst as <-.
Qed.

Lemma logBlind_createPrimitivesTable s (typename : string) :
  logBlind (createPrimitivesTable s typename).
Proof.
  unfold createPrimitivesTable.
  apply logBlind_bind; [apply logBlind_lift|].
  intros [fs|cs]; [|apply logBlind_ret].
  destruct (negb (isSqlSafe typename)); [apply logBlind_throw|].
  apply logBlind_bind; [apply logBlind_lift|]. intros names.
  apply logBlind_bind; [apply logBlind_lift|]. intros tableName.
  apply logBlind_run.
Qed.

Lemma logBlind_callback blob s : logBlind (initializeCallback blob s).
Proof.
  unfold initializeCallback.
  apply logBlind_bind; [apply logBlind_run|]. intros _.
  apply logBlind_bind; [apply logBlind_pluckGet|]. intros existing.
  destruct (strictEqualsString existing blob); [apply logBlind_ret|].
  destruct (bool_decide (existing <> None)); [apply logBlind_throw|].
  apply logBlind_bind; [apply logBlind_run|]. intros _.
  apply logBlind_bind;
    [apply logBlind_forEach, logBlind_run|]. intros _.
  apply logBlind_forEach, logBlind_createPrimitivesTable.
Qed.

Lemma logBlind_inTransaction {R : Type} (fn : M R) :
  logBlind fn -> logBlind (_inTransaction fn).
Proof.
  intros Hfn. unfold _inTransaction.
  apply logBlind_bind; [apply logBlind_getInTransaction|].
  intros [|]; [apply logBlind_throw|].
  apply logBlind_tryFinally.
  - apply logBlind_bind; [apply logBlind_run|]. intros _.
    apply logBlind_bind; [done|]. intros result.
    apply logBlind_bind; [apply logBlind_getInTransaction|].
    intros open. apply logBlind_bind; [|intros; apply logBlind_ret].
    destruct open; [apply logBlind_run|apply logBlind_ret].
  - apply logBlind_bind; [apply logBlind_getInTransaction|].
    intros [|]; [apply logBlind_run|apply logBlind_ret].
Qed.

Lemma logBlind_initialize stringify s : logBlind (_initialize stringify s).
Proof. apply logBlind_inTransaction, logBlind_callback. Qed.

(** ** [_initialize] on a database that has its [meta] row *)

Lemma callback_again blob' s' c b :
  metaBlob (content c) = Some (Text b) ->
  initializeCallback blob' s' c
  = (if String.eqb b blob' then inr tt else inl IncompatibleSchema,
     mkConnection (content c) (saved c)
                  (executed c ++ [createMeta; selectMeta])).
Proof.
  intros [Hsel [t Ht]]%metaBlob_select.
  unfold initializeCallback.
  rewrite bind_unfold, run_data by done.
  assert (apply createMeta (content c) = inr (None, content c)) as ->
    by (unfold createMeta, apply; simpl identName; by rewrite Ht).
  rewrite bind_unfold, pluckGet_data by done. simpl content.
  rewrite Hsel. simpl. rewrite <- app_assoc. simpl.
  by destruct (String.eqb b blob').
Qed.

Lemma initialize_again stringify s' c b :
  inTransaction c = false ->
  metaBlob (content c) = Some (Text b) ->
  _initialize stringify s' c
  = if String.eqb b (stringify (mkMeta "MIRROR_v1" s'))
    then (inr tt,
          mkConnection (content c) None
            (executed c ++ [BEGIN; createMeta; selectMeta; COMMIT]))
    else (inl IncompatibleSchema,
          mkConnection (content c) None
            (executed c ++ [BEGIN; createMeta; selectMeta; ROLLBACK])).
Proof.
  intros Hc Hblob. rewrite initialize_outcome by done. cbv zeta.
  rewrite (callback_again _ _ _ b) by done. simpl.
  destruct (String.eqb b _); by rewrite <- !app_assoc.
Qed.

Lemma initialize_success stringify s c c1 :
  _initialize stringify s c = (inr tt, c1) ->
  inTransaction c1 = false
  /\ metaBlob (content c1) = Some (Text (stringify (mkMeta "MIRROR_v1" s))).
Proof.
  destruct (inTransaction c) eqn:Hc.
  { unfold _initialize. by rewrite inTransaction_busy. }
  rewrite initialize_outcome by done. cbv zeta.
  destruct (initializeCallback _ s (begun c)) as [[e|[]] c0] eqn:Hcallback;
    [done|].
  intros [= <-]. split; [done|]. simpl.
  by eapply callback_success.
Qed.

(** Two calls in a row, whatever the first one did. *)
Lemma initialize_twice stringify s c r1 c1 :
  _initialize stringify s c = (r1, c1) ->
  exists r2 c2,
    _initialize stringify s c1 = (r2, c2)
    /\ content c2 = content c1
    /\ saved c2 = saved c1
    /\ (r1 = inr tt ->
        r2 = inr tt
        /\ inTransaction c2 = false
        /\ executed c2
           = executed c1 ++ [BEGIN; createMeta; selectMeta; COMMIT]).
Proof.
  intros Hfirst. destruct r1 as [e|[]].
  - destruct (initialize_failure _ _ _ _ _ Hfirst) as [Hcontent Hsaved].
    destruct (logBlind_initialize stringify s c1 c) as [Hsame _]; [done|].
    rewrite Hfirst in Hsame.
    destruct (_initialize stringify s c1) as [r2 c2] eqn:Hsecond.
    simpl in Hsame. subst r2.
    destruct (initialize_failure _ _ _ _ _ Hsecond) as [Hcontent' Hsaved'].
    exists (inl e), c2. by repeat split.
  - destruct (initialize_success _ _ _ _ Hfirst) as [Hc1 Hblob].
    rewrite (initialize_again _ _ _ _ Hc1 Hblob), String.eqb_refl.
    eexists _, _. split; [reflexivity|]. simpl.
    unfold inTransaction in Hc1. by destruct (saved c1).
Qed.

(** C2. For every schema and every database, a second call of
    [_initialize] with the same schema leaves the database as the first
    call left it.  When the first call has succeeded, the second
    succeeds too, with no transaction open; it runs BEGIN, the
    [CREATE TABLE IF NOT EXISTS meta] that finds the table, the SELECT
    and COMMIT, and nothing else: it creates nothing and inserts no
    row. *)
Theorem idempotent_reinit (stringify : MetaObject -> string) s c r1 c1 :
  _initialize stringify s c = (r1, c1) ->
  exists r2 c2,
    _initialize stringify s c1 = (r2, c2)
    /\ content c2 = content c1
    /\ saved c2 = saved c1
    /\ (r1 = inr tt ->
        r2 = inr tt
        /\ inTransaction c2 = false
        /\ executed c2
           = executed c1 ++ [BEGIN; createMeta; selectMeta; COMMIT]).
Proof. apply initialize_twice. Qed.

Lemma idempotent_reinit_witness :
  exists c2,
    _initialize StableJson.stringify Examples.issueSchema
      (snd (_initialize StableJson.stringify Examples.issueSchema fresh))
    = (inr tt, c2)
    /\ content c2
       = content (snd (_initialize StableJson.stringify
                         Examples.issueSchema fresh))
    /\ inTransaction c2 = false.
Proof.
  destruct (idempotent_reinit StableJson.stringify Examples.issueSchema
              fresh (inr tt)
              (snd (_initialize StableJson.stringify
                      Examples.issueSchema fresh)) eq_refl)
    as (r2 & c2 & Hsecond & Hcontent & _ & Hok).
  destruct (Hok eq_refl) as (-> & Hout & _).
  exists c2. by repeat split.
Defined.

(** C1. After [_initialize] has succeeded on a fresh database with
    schema [s], a call with a schema whose serialisation differs fails
    with the mismatch error, which is no error of the engine, and the
    database is as the first call left it. *)
Theorem strict_version_gating (stringify : MetaObject -> string) s s' c1 :
  _initialize stringify s fresh = (inr tt, c1) ->
  stringify (mkMeta "MIRROR_v1" s) <> stringify (mkMeta "MIRROR_v1" s') ->
  exists c2,
    _initialize stringify s' c1 = (inl IncompatibleSchema, c2)
    /\ isEngineError IncompatibleSchema = false
    /\ content c2 = content c1
    /\ inTransaction c2 = false.
Proof.
  intros [Hc1 Hblob]%initialize_success Hdiff.
  rewrite (initialize_again _ _ _ _ Hc1 Hblob).
  apply String.eqb_neq in Hdiff. rewrite Hdiff.
  eexists. split; [reflexivity|]. done.
Qed.

Lemma strict_version_gating_witness :
  exists c2,
    _initialize StableJson.stringify Examples.issueWithBody
      (snd (_initialize StableJson.stringify Examples.issueSchema fresh))
    = (inl IncompatibleSchema, c2)
    /\ isEngineError IncompatibleSchema = false
    /\ content c2
       = content (snd (_initialize StableJson.stringify
                         Examples.issueSchema fresh))
    /\ inTransaction c2 = false.
Proof.
  apply (strict_version_gating StableJson.stringify Examples.issueSchema
           Examples.issueWithBody).
  - reflexivity.
  - vm_compute. discriminate.
Defined.

(** ** The primitives tables *)

(** The inner loop of [_initialize] stops at the first primitive field
    whose name is unsafe, and collects the primitive fields otherwise. *)
Lemma forOf_collectPrimitive fs ks : forall acc,
  (forall k, k ∈ ks -> k ∈ Js.keys fs) ->
  forOf ks (collectPrimitive fs) acc
  = match find (fun f => negb (isSqlSafe f))
               (List.filter (fieldHas isPrimitive fs) ks) with
    | Some f => inl (InvalidFieldName f)
    | None => inr (acc ++ List.filter (fieldHas isPrimitive fs) ks)
    end.
Proof.
  induction ks as [|k ks IH]; intros acc Hks; simpl.
  - by rewrite app_nil_r.
  - destruct (prop_of_key fs k) as (v & Hprop & Hget); [apply Hks; left|].
    assert (Hkind : fieldHas isPrimitive fs k = isPrimitive v)
      by (unfold fieldHas; by rewrite Hget).
    unfold collectPrimitive at 1. rewrite Hprop, Hkind.
    assert (Htail : forall k', k' ∈ ks -> k' ∈ Js.keys fs)
      by (intros; apply Hks; by right).
    destruct v; simpl; try by rewrite IH.
    destruct (isSqlSafe k); simpl; [|done].
    rewrite IH by done.
    destruct (find _ _); [done|]. by rewrite <- app_assoc.
Qed.

Lemma find_unsafe_none names :
  find (fun f => negb (isSqlSafe f)) names = None
  <-> forallb isSqlSafe names = true.
Proof.
  induction names as [|n names IH]; simpl; [done|].
  destruct (isSqlSafe n); simpl; [done|]. split; discriminate.
Qed.

(** One turn of the loop over the types, in closed form. *)
Lemma createPrimitivesTable_object s (typename : string) fs c :
  Js.get s typename = Some (OBJECT fs) ->
  createPrimitivesTable s typename c
  = if negb (isSqlSafe typename)
    then (inl (InvalidObjectTypeName typename), c)
    else match find (fun f => negb (isSqlSafe f))
                    (fieldsOfKind isPrimitive fs) with
         | Some f => (inl (InvalidFieldName f), c)
         | None =>
             run (CREATE_TABLE false (Quoted ("primitives_" ++ typename))
                    (tbl_columns (primitivesTable typename fs))
                    (tbl_constraints (primitivesTable typename fs))) c
         end.
Proof.
  intros Hget. unfold createPrimitivesTable, Js.prop. rewrite Hget.
  rewrite bind_unfold. unfold lift at 1. simpl.
  destruct (isSqlSafe typename) eqn:Hsafe; simpl; [|done].
  rewrite bind_unfold. unfold lift at 1.
  rewrite forOf_collectPrimitive by done. fold (fieldsOfKind isPrimitive fs).
  destruct (find _ (fieldsOfKind isPrimitive fs)); [done|].
  rewrite bind_unfold. unfold lift, primitivesTableName.
  by rewrite Hsafe.
Qed.

Lemma createPrimitivesTable_union s (typename : string) cs c :
  Js.get s typename = Some (UNION cs) ->
  createPrimitivesTable s typename c = (inr tt, c).
Proof.
  intros Hget. unfold createPrimitivesTable, Js.prop. by rewrite Hget.
Qed.

(** A turn that returns for an object type has added its table, under a
    name that was free. *)
Lemma createPrimitivesTable_added s (typename : string) fs c c1 :
  Js.get s typename = Some (OBJECT fs) ->
  createPrimitivesTable s typename c = (inr tt, c1) ->
  lookupTable ("primitives_" ++ typename) (content c) = None
  /\ tables (content c1)
     = tables (content c) ++ [primitivesTable typename fs].
Proof.
  intros Hget. rewrite (createPrimitivesTable_object _ _ fs) by done.
  destruct (negb (isSqlSafe typename)); [done|].
  destruct (find _ _); [done|].
  rewrite run_data by done. unfold apply. simpl identName.
  destruct (lookupTable _ (content c)); [done|].
  destruct (lookupIndex _ (content c)); [done|].
  destruct (columnError _ _ _); [done|].
  by intros [= <-].
Qed.

Lemma primitivesLoop_tables s ks : forall c c',
  forEach ks (createPrimitivesTable s) c = (inr tt, c') ->
  forall (T : string) fs,
    T ∈ ks -> Js.get s T = Some (OBJECT fs) ->
    lookupTable ("primitives_" ++ T) (content c')
    = Some (primitivesTable T fs).
Proof.
  induction ks as [|k ks IH]; intros c c' Hrun T fs HT Hget.
  - by apply elem_of_nil in HT.
  - simpl in Hrun. rewrite bind_unfold in Hrun.
    destruct (createPrimitivesTable s k c) as [[e|[]] c1] eqn:Hstep;
      [done|].
    destruct (decide (T = k)) as [->|Hne].
    + destruct (createPrimitivesTable_added _ _ _ _ _ Hget Hstep)
        as [Hfree Hadded].
      pose proof (primitivesLoop_grown s ks c1) as (_ & [ts Hts] & _).
      rewrite Hrun in Hts. simpl in Hts.
      eapply lookupTable_grown; [exact Hts|].
      eapply lookupTable_added; [exact Hadded|exact Hfree|].
      apply nameEq_refl.
    + apply elem_of_cons in HT as [?|HT]; [done|].
      by apply (IH c1 c').
Qed.

Lemma callback_fresh blob s :
  initializeCallback blob s (begun fresh)
  = forEach (Js.keys s) (createPrimitivesTable s) (afterStructural blob).
Proof. reflexivity. Qed.

Lemma primitivesTable_column_names (T : string) fs :
  map col_name (tbl_columns (primitivesTable T fs))
  = "id" :: fieldsOfKind isPrimitive fs.
Proof.
  simpl. f_equal. rewrite map_map. simpl. apply map_id.
Qed.

(** What a successful [_initialize] has done on a fresh database. *)
Lemma initialize_fresh_success stringify s c1 :
  _initialize stringify s fresh = (inr tt, c1) ->
  exists c0,
    forEach (Js.keys s) (createPrimitivesTable s)
            (afterStructural (stringify (mkMeta "MIRROR_v1" s)))
    = (inr tt, c0)
    /\ c1 = mkConnection (content c0) None (executed c0 ++ [COMMIT]).
Proof.
  rewrite initialize_outcome by done. cbv zeta. rewrite callback_fresh.
  destruct (forEach _ _ _) as [[e|[]] c0]; [done|].
  intros [= <-]. eauto.
Qed.

(** C5. After [_initialize] has succeeded on a fresh database, every
    object type [T] of the schema has its table [primitives_T], whose
    columns are the primary key [id] and, for each primitive field of
    [T] in [SchemaInfo], one column declared by the double-quoted field
    name alone and named exactly as the field; there is no other
    column.  The table is the same after the database is initialised
    again with that schema. *)
Theorem column_presence (stringify : MetaObject -> string) s c1
    (T : string) fs :
  _initialize stringify s fresh = (inr tt, c1) ->
  Js.get s T = Some (OBJECT fs) ->
  exists info entry t,
    _buildSchemaInfo s = inr info
    /\ objectTypes info !! T = Some entry
    /\ lookupTable ("primitives_" ++ T) (content c1) = Some t
    /\ tbl_columns t
       = mkColumn (Bare "id") "TEXT" true true
           :: map (fun f => mkColumn (Quoted f) EmptyString false false)
                  (primitiveFieldNames entry)
    /\ map col_name (tbl_columns t) = "id" :: primitiveFieldNames entry
    /\ (forall f, f ∈ primitiveFieldNames entry
                  <-> Js.get fs f = Some PRIMITIVE)
    /\ lookupTable ("primitives_" ++ T)
         (content (snd (_initialize stringify s c1))) = Some t.
Proof.
  intros Hfirst Hget.
  destruct (initialize_twice _ _ _ _ _ Hfirst)
    as (r2 & c2 & Hsecond & Hcontent & _).
  rewrite Hsecond. cbn [snd]. rewrite Hcontent. clear Hsecond Hcontent.
  apply initialize_fresh_success in Hfirst as (c0 & Hloop & ->).
  cbn [content].
  destruct (buildSchemaInfo_object s T fs Hget) as (info & Hinfo & Hentry).
  assert (Htable : lookupTable ("primitives_" ++ T) (content c0)
                   = Some (primitivesTable T fs)).
  { eapply primitivesLoop_tables; [exact Hloop| |exact Hget].
    by eapply get_some_key. }
  exists info, (entryOf fs), (primitivesTable T fs).
  split; [exact Hinfo|]. split; [exact Hentry|].
  split; [exact Htable|]. split; [reflexivity|].
  split; [apply primitivesTable_column_names|].
  split; [|exact Htable].
  intros f. cbn [entryOf primitiveFieldNames].
  rewrite elem_fieldsOfKind. split.
  - by intros ([] & Hk & Hp).
  - eauto.
Qed.

Lemma column_presence_witness :
  exists info entry t,
    _buildSchemaInfo Examples.issueSchema = inr info
    /\ objectTypes info !! "Issue" = Some entry
    /\ lookupTable "primitives_Issue"
         (content (snd (_initialize StableJson.stringify
                          Examples.issueSchema fresh))) = Some t
    /\ tbl_columns t
       = mkColumn (Bare "id") "TEXT" true true
           :: map (fun f => mkColumn (Quoted f) EmptyString false false)
                  (primitiveFieldNames entry)
    /\ map col_name (tbl_columns t) = "id" :: primitiveFieldNames entry.
Proof.
  destruct (column_presence StableJson.stringify Examples.issueSchema
              (snd (_initialize StableJson.stringify
                      Examples.issueSchema fresh)) "Issue"
              [("id", ID); ("title", PRIMITIVE); ("author", NODE "User");
               ("comments", CONNECTION "Comment")] eq_refl eq_refl)
    as (info & entry & t & H1 & H2 & H3 & H4 & H5 & _).
  exists info, entry, t.
  split; [exact H1|]. split; [exact H2|]. split; [exact H3|].
  split; [exact H4|exact H5].
Defined.

(** The columns of scenario S2, written out. *)
Example issue_columns :
  option_map (fun t => map col_name (tbl_columns t))
    (lookupTable "primitives_Issue"
       (content (snd (_initialize StableJson.stringify
                        Examples.issueSchema fresh))))
  = Some ["id"; "title"].
Proof. reflexivity. Qed.

(** ** Which errors [_initialize] raises *)

Lemma createPrimitivesTable_unsafe s (k : string) t c :
  Js.get s k = Some t -> objectNamesSafe k t = false ->
  exists e, createPrimitivesTable s k c = (inl e, c)
            /\ isIdentifierError e = true.
Proof.
  intros Hget Hunsafe. destruct t as [fs|cs]; [|done].
  rewrite (createPrimitivesTable_object _ _ fs) by done.
  simpl in Hunsafe. destruct (isSqlSafe k); simpl in *; [|eauto].
  destruct (find _ _) as [f|] eqn:Hfind; [eauto|].
  apply find_unsafe_none in Hfind. congruence.
Qed.

Lemma run_error q c e c' : run q c = (inl e, c') -> isEngineError e = true.
Proof.
  unfold run. destruct (step q c) as [[e0|v] c0]; [|done].
  by intros [= <- _].
Qed.

Lemma pluckGet_error q c e c' :
  pluckGet q c = (inl e, c') -> isEngineError e = true.
Proof.
  unfold pluckGet. destruct (step q c) as [[e0|v] c0]; [|done].
  by intros [= <- _].
Qed.

Lemma createPrimitivesTable_error s (k : string) c e c' :
  k ∈ Js.keys s ->
  createPrimitivesTable s k c = (inl e, c') ->
  isIdentifierError e || isEngineError e = true.
Proof.
  intros [t Hget]%key_get_some. destruct t as [fs|cs].
  - rewrite (createPrimitivesTable_object _ _ fs) by done.
    destruct (negb (isSqlSafe k)); [by intros [= <- _]|].
    destruct (find _ _); [by intros [= <- _]|].
    intros ->%run_error. apply orb_true_r.
  - by rewrite (createPrimitivesTable_union _ _ cs).
Qed.

Lemma createPrimitivesTable_safe_error s (k : string) t c e c' :
  Js.get s k = Some t -> objectNamesSafe k t = true ->
  createPrimitivesTable s k c = (inl e, c') ->
  isEngineError e = true.
Proof.
  intros Hget Hsafe. destruct t as [fs|cs].
  - rewrite (createPrimitivesTable_object _ _ fs) by done.
    simpl in Hsafe. apply andb_true_iff in Hsafe as [-> Hfields].
    apply find_unsafe_none in Hfields. simpl. rewrite Hfields.
    apply run_error.
  - by rewrite (createPrimitivesTable_union _ _ cs).
Qed.

(** A loop over types of which one has an unsafe name does not return. *)
Lemma primitivesLoop_unsafe s ks : forall c,
  (forall k, k ∈ ks -> k ∈ Js.keys s) ->
  (exists k t, k ∈ ks /\ Js.get s k = Some t
               /\ objectNamesSafe k t = false) ->
  exists e c',
    forEach ks (createPrimitivesTable s) c = (inl e, c')
    /\ isIdentifierError e || isEngineError e = true.
Proof.
  induction ks as [|k ks IH]; intros c Hks (k0 & t & Hk0 & Hget & Hunsafe).
  - by apply elem_of_nil in Hk0.
  - simpl. rewrite bind_unfold.
    destruct (createPrimitivesTable s k c) as [[e|[]] c1] eqn:Hstep.
    + exists e, c1. split; [done|].
      eapply createPrimitivesTable_error; [|exact Hstep]. apply Hks. left.
    + apply IH; [intros; apply Hks; by right|].
      exists k0, t. repeat split; try done.
      apply elem_of_cons in Hk0 as [->|?]; [|done].
      destruct (createPrimitivesTable_unsafe s k t c Hget Hunsafe)
        as (e & He & _).
      congruence.
Qed.

(** With safe names, the loop fails on errors of the engine only. *)
Lemma primitivesLoop_safe_error s ks : forall c e c',
  (forall k, k ∈ ks -> k ∈ Js.keys s) ->
  checkedNamesSafe s ->
  forEach ks (createPrimitivesTable s) c = (inl e, c') ->
  isEngineError e = true.
Proof.
  induction ks as [|k ks IH]; intros c e c' Hks Hsafe; simpl; [done|].
  rewrite bind_unfold.
  destruct (createPrimitivesTable s k c) as [[e1|[]] c1] eqn:Hstep.
  - intros [= <- _].
    destruct (key_get_some s k) as [t Hget]; [apply Hks; left|].
    eapply createPrimitivesTable_safe_error; eauto.
  - apply IH; [intros; apply Hks; by right|done].
Qed.

Lemma structuralLoop_error qs : forall c e c',
  forEach qs run c = (inl e, c') -> isEngineError e = true.
Proof.
  induction qs as [|q qs IH]; intros c e c'; simpl; [done|].
  rewrite bind_unfold.
  destruct (run q c) as [[e1|[]] c1] eqn:Hstep.
  - intros [= <- _]. by eapply run_error.
  - apply IH.
Qed.

Lemma callback_safe_error blob s c e c' :
  checkedNamesSafe s ->
  initializeCallback blob s c = (inl e, c') ->
  isIdentifierError e = false.
Proof.
  intros Hsafe. unfold initializeCallback.
  assert (Hengine : forall e0, isEngineError e0 = true ->
                               isIdentifierError e0 = false)
    by (by intros []).
  rewrite bind_unfold.
  destruct (run createMeta c) as [[e1|[]] c1] eqn:H1.
  { intros [= <- _]. eapply Hengine, run_error, H1. }
  rewrite bind_unfold.
  destruct (pluckGet selectMeta c1) as [[e2|existing] c2] eqn:H2.
  { intros [= <- _]. eapply Hengine, pluckGet_error, H2. }
  destruct (strictEqualsString existing blob); [done|].
  destruct (bool_decide (existing <> None)); [by intros [= <- _]|].
  rewrite bind_unfold.
  destruct (run (insertMeta blob) c2) as [[e3|[]] c3] eqn:H3.
  { intros [= <- _]. eapply Hengine, run_error, H3. }
  rewrite bind_unfold.
  destruct (forEach structuralTables run c3) as [[e4|[]] c4] eqn:H4.
  { intros [= <- _]. eapply Hengine, structuralLoop_error, H4. }
  intros H5. eapply Hengine, primitivesLoop_safe_error; eauto.
Qed.

(** ** When the engine takes every table *)

Lemma primitives_nameEq (a b : string) :
  nameEq ("primitives_" ++ a) ("primitives_" ++ b) = nameEq a b.
Proof. reflexivity. Qed.

Lemma onlySeen_afterStructural blob :
  onlySeen [] (content (afterStructural blob)).
Proof. split; intros k; reflexivity. Qed.

Lemma lookupTable_other name d t :
  lookupTable name d = None -> nameEq (tbl_name t) name = false ->
  lookupTable name (mkDatabase (tables d ++ [t]) (indices d)) = None.
Proof.
  unfold lookupTable. simpl. intros Hd Ht.
  induction (tables d) as [|t0 l IH]; simpl in *; [by rewrite Ht|].
  destruct (nameEq (tbl_name t0) name); [done|auto].
Qed.

Lemma primitivesLoop_accepted s ks : forall seen c,
  (forall k, k ∈ ks -> k ∈ Js.keys s) ->
  checkedNamesSafe s ->
  onlySeen seen (content c) ->
  acceptsFrom s seen ks = true ->
  exists c', forEach ks (createPrimitivesTable s) c = (inr tt, c').
Proof.
  induction ks as [|k ks IH]; intros seen c Hks Hsafe Hseen Hacc; simpl.
  - by eexists.
  - rewrite bind_unfold. cbn [acceptsFrom] in Hacc.
    assert (Htail : forall k', k' ∈ ks -> k' ∈ Js.keys s)
      by (intros; apply Hks; by right).
    destruct (key_get_some s k) as [t Hget]; [apply Hks; left|].
    rewrite Hget in Hacc. pose proof (Hsafe k t Hget) as Hnames.
    destruct t as [fs|cs].
    + apply andb_true_iff in Hacc as [[Hnew Hcols]%andb_true_iff Hacc].
      apply negb_true_iff in Hnew.
      simpl in Hnames. apply andb_true_iff in Hnames as [Hk Hfields].
      apply find_unsafe_none in Hfields.
      rewrite (createPrimitivesTable_object _ _ fs) by done.
      rewrite Hk, Hfields. simpl negb. cbv iota.
      rewrite run_data by done. unfold apply. simpl identName.
      destruct Hseen as [Htables Hindices].
      rewrite (Htables k Hnew), (Hindices k).
      rewrite primitivesTable_column_names.
      destruct (columnError _ _ _); [done|].
      apply (IH (k :: seen)); try done.
      split; simpl.
      * intros k' [Hk' Hseen']%orb_false_iff.
        apply lookupTable_other; [by apply Htables|].
        simpl. by rewrite primitives_nameEq, nameEq_sym.
      * apply Hindices.
    + rewrite (createPrimitivesTable_union _ _ cs) by done.
      by apply (IH seen).
Qed.

(** ** Identifier safety and [_initialize] *)

Lemma afterStructural_executed blob :
  executed (afterStructural blob)
  = [BEGIN; createMeta; selectMeta; insertMeta blob] ++ structuralTables.
Proof. reflexivity. Qed.

Lemma lookupTable_snoc name ts ixs t :
  lookupTable name (mkDatabase (ts ++ [t]) ixs)
  = match lookupTable name (mkDatabase ts ixs) with
    | Some t0 => Some t0
    | None => if nameEq (tbl_name t) name then Some t else None
    end.
Proof.
  unfold lookupTable. simpl.
  induction ts as [|t0 ts IH]; simpl; [done|].
  by destruct (nameEq (tbl_name t0) name).
Qed.

Lemma exactlySeen_afterStructural blob :
  exactlySeen [] (content (afterStructural blob)).
Proof. split; intros k; [split|]; reflexivity. Qed.

Lemma exactlySeen_added seen d (k : string) fs :
  exactlySeen seen d ->
  exactlySeen (k :: seen)
    (mkDatabase (tables d ++ [primitivesTable k fs]) (indices d)).
Proof.
  intros [Htables Hindices]. split; [|done].
  intros k'. rewrite lookupTable_snoc. simpl tbl_name.
  rewrite primitives_nameEq, (nameEq_sym k k').
  specialize (Htables k'). destruct d as [ts ixs]. simpl in *.
  destruct (lookupTable _ _) as [t0|].
  - split; [done|]. intros [_ Hseen]%orb_false_iff.
    by apply Htables in Hseen.
  - destruct Htables as [Hseen _]. rewrite (Hseen eq_refl).
    destruct (nameEq k' k); simpl; split; done.
Qed.

Lemma forEach_app {A : Type} (xs ys : list A) (body : A -> M unit) c :
  forEach (xs ++ ys) body c
  = match forEach xs body c with
    | (inl e, c') => (inl e, c')
    | (inr _, c') => forEach ys body c'
    end.
Proof.
  revert c. induction xs as [|x xs IH]; intros c; simpl; [done|].
  rewrite !bind_unfold. destruct (body x c) as [[e|[]] c1]; [done|apply IH].
Qed.

Lemma identifierError_none (k : string) t :
  identifierError k t = None <-> objectNamesSafe k t = true.
Proof.
  destruct t as [fs|cs]; simpl; [|done].
  destruct (isSqlSafe k); simpl; [|done].
  rewrite <- find_unsafe_none. by destruct (find _ _).
Qed.

Lemma createPrimitivesTable_identifierError s (k : string) t ie c :
  Js.get s k = Some t -> identifierError k t = Some ie ->
  createPrimitivesTable s k c = (inl ie, c).
Proof.
  intros Hget. destruct t as [fs|cs]; [|done].
  rewrite (createPrimitivesTable_object _ _ fs) by done. simpl.
  destruct (isSqlSafe k); simpl; [|by intros [= <-]].
  destruct (find _ _); simpl; [by intros [= <-]|done].
Qed.

(** The keys up to the first type with a name that does not pass. *)
Lemma first_unsafe s ks :
  (forall k, k ∈ ks -> k ∈ Js.keys s) ->
  (exists k t, k ∈ ks /\ Js.get s k = Some t
               /\ objectNamesSafe k t = false) ->
  exists pre k t post,
    ks = pre ++ k :: post
    /\ (forall k', k' ∈ pre ->
          exists t', Js.get s k' = Some t' /\ objectNamesSafe k' t' = true)
    /\ Js.get s k = Some t
    /\ objectNamesSafe k t = false.
Proof.
  induction ks as [|k ks IH]; intros Hks (k0 & t0 & Hk0 & Hget0 & Hunsafe0).
  - by apply elem_of_nil in Hk0.
  - destruct (key_get_some s k) as [t Hget]; [apply Hks; left|].
    destruct (objectNamesSafe k t) eqn:Hsafe.
    + destruct IH as (pre & k1 & t1 & post & -> & Hpre & Hget1 & Hunsafe1).
      * intros; apply Hks; by right.
      * exists k0, t0. repeat split; try done.
        apply elem_of_cons in Hk0 as [->|?]; [congruence|done].
      * exists (k :: pre), k1, t1, post. repeat split; try done.
        intros k' [->|Hk']%elem_of_cons; [eauto|by apply Hpre].
    + exists [], k, t, ks. repeat split; try done.
      intros k' Hk'. by apply elem_of_nil in Hk'.
Qed.

Lemma objectTypesAmong_cons s (k : string) ks :
  objectTypesAmong s (k :: ks)
  = match Js.get s k with
    | Some (OBJECT fs) => (k, fs) :: objectTypesAmong s ks
    | _ => objectTypesAmong s ks
    end.
Proof.
  unfold objectTypesAmong. simpl. by destruct (Js.get s k) as [[fs|cs]|].
Qed.

(** The loop over types whose names pass: it returns when the engine
    takes every table, and stops at the first table the engine
    refuses. *)
Lemma primitivesLoop_safe s ks : forall seen c,
  (forall k, k ∈ ks ->
     exists t, Js.get s k = Some t /\ objectNamesSafe k t = true) ->
  exactlySeen seen (content c) ->
  (acceptsFrom s seen ks = true ->
     exists c',
       forEach ks (createPrimitivesTable s) c = (inr tt, c')
       /\ executed c'
          = executed c ++ map createPrimitives (objectTypesAmong s ks))
  /\ (acceptsFrom s seen ks = false ->
        exists pre k fs post err c',
          ks = pre ++ k :: post
          /\ Js.get s k = Some (OBJECT fs)
          /\ forEach ks (createPrimitivesTable s) c
             = (inl (EngineError err), c')
          /\ executed c'
             = executed c ++ map createPrimitives (objectTypesAmong s pre)
               ++ [createPrimitives (k, fs)]).
Proof.
  induction ks as [|k ks IH]; intros seen c Hks Hseen.
  - split; [|done]. intros _. exists c. split; [done|].
    by rewrite app_nil_r.
  - assert (Htail : forall k', k' ∈ ks ->
              exists t, Js.get s k' = Some t /\ objectNamesSafe k' t = true)
      by (intros; apply Hks; by right).
    destruct (Hks k) as (t & Hget & Hsafe); [left|].
    cbn [forEach acceptsFrom]. rewrite bind_unfold, Hget.
    rewrite objectTypesAmong_cons, Hget.
    destruct t as [fs|cs].
    + rewrite (createPrimitivesTable_object _ _ fs) by done.
      simpl in Hsafe. apply andb_true_iff in Hsafe as [Hk Hfields].
      apply find_unsafe_none in Hfields. rewrite Hk, Hfields.
      cbn [negb]. cbv iota.
      rewrite run_data by done. unfold apply. cbn [identName].
      destruct Hseen as [Htables Hindices].
      rewrite (Hindices k), primitivesTable_column_names.
      destruct (hasName k seen) eqn:Hk_seen.
      * destruct (lookupTable _ (content c)) as [t0|] eqn:Hlook.
        2:{ apply Htables in Hlook. congruence. }
        split; [done|]. intros _.
        exists [], k, fs, ks, (TableAlreadyExists ("primitives_" ++ k)).
        eexists. repeat split; try done.
      * destruct (Htables k) as [_ Hfree]. rewrite (Hfree Hk_seen).
        cbn [negb andb].
        destruct (columnError _ _ _) as [err|] eqn:Hcols.
        -- split; [done|]. intros _.
           exists [], k, fs, ks, err. eexists. repeat split; try done.
        -- cbn [andb].
           set (c1 := mkConnection _ _ _).
           destruct (IH (k :: seen) c1 Htail) as [Hyes Hno].
           { by apply (exactlySeen_added seen (content c) k fs). }
           split.
           ++ intros Hacc. destruct (Hyes Hacc) as (c' & Hrun & Hlog).
              exists c'. split; [done|]. rewrite Hlog. simpl.
              by rewrite <- app_assoc.
           ++ intros Hacc.
              destruct (Hno Hacc)
                as (pre & k1 & fs1 & post & err & c' & -> & Hget1 & Hrun & Hlog).
              exists (k :: pre), k1, fs1, post, err, c'.
              repeat split; try done.
              rewrite Hlog, objectTypesAmong_cons, Hget. simpl.
              by rewrite <- !app_assoc.
    + rewrite (createPrimitivesTable_union _ _ cs) by done.
      destruct (IH seen c Htail Hseen) as [Hyes Hno]. split; [done|].
      intros Hacc.
      destruct (Hno Hacc)
        as (pre & k1 & fs1 & post & err & c' & -> & Hget1 & Hrun & Hlog).
      exists (k :: pre), k1, fs1, post, err, c'.
      repeat split; try done.
      by rewrite Hlog, objectTypesAmong_cons, Hget.
Qed.

(** C7, as the code has it. On a fresh database, a schema with an object
    type name or a primitive field name that does not pass [isSqlSafe]
    makes [_initialize] fail, and the database is left empty.  The name
    is checked inside the transaction, when the loop over the types
    reaches it: BEGIN, the statements on [meta] and the structural DDL
    have run by then, and ROLLBACK undoes them.  [k] is the first type,
    in the order of the keys, with a name that does not pass, and [ie]
    the identifier error for it.  When the engine takes the tables of
    the object types before [k], these tables are created and then
    [ie] is thrown, nothing else.  When the engine refuses one of these
    tables, the error of the engine is thrown at that table, and the
    check of [k] is not reached. *)
Theorem unsafe_identifier_rolled_back (stringify : MetaObject -> string) s :
  hasUnsafeName s ->
  exists pre k t post ie e c' more,
    Js.keys s = pre ++ k :: post
    /\ (forall k', k' ∈ pre ->
          exists t', Js.get s k' = Some t' /\ objectNamesSafe k' t' = true)
    /\ Js.get s k = Some t
    /\ identifierError k t = Some ie
    /\ _initialize stringify s fresh = (inl e, c')
    /\ content c' = emptyDatabase
    /\ inTransaction c' = false
    /\ executed c'
       = [BEGIN; createMeta; selectMeta;
          insertMeta (stringify (mkMeta "MIRROR_v1" s))]
         ++ structuralTables ++ more ++ [ROLLBACK]
    /\ (acceptsFrom s [] pre = true ->
          e = ie /\ more = map createPrimitives (objectTypesAmong s pre))
    /\ (acceptsFrom s [] pre = false ->
          exists pre1 k1 fs1 post1 err,
            pre = pre1 ++ k1 :: post1
            /\ Js.get s k1 = Some (OBJECT fs1)
            /\ e = EngineError err
            /\ more = map createPrimitives (objectTypesAmong s pre1)
                      ++ [createPrimitives (k1, fs1)]).
Proof.
  intros (k0 & t0 & Hget0 & Hunsafe0).
  set (blob := stringify (mkMeta "MIRROR_v1" s)).
  destruct (first_unsafe s (Js.keys s))
    as (pre & k & t & post & Hkeys & Hpre & Hget & Hunsafe); [done| |].
  { exists k0, t0. repeat split; try done. by eapply get_some_key. }
  destruct (identifierError k t) as [ie|] eqn:Hie.
  2:{ apply identifierError_none in Hie. congruence. }
  destruct (primitivesLoop_safe s pre [] (afterStructural blob) Hpre
              (exactlySeen_afterStructural blob)) as [Hyes Hno].
  assert (Hrun : _initialize stringify s fresh
            = match forEach pre (createPrimitivesTable s)
                            (afterStructural blob) with
              | (inl e, c1) =>
                  (inl e, mkConnection emptyDatabase None
                            (executed c1 ++ [ROLLBACK]))
              | (inr _, c1) =>
                  (inl ie, mkConnection emptyDatabase None
                             (executed c1 ++ [ROLLBACK]))
              end).
  { rewrite initialize_outcome by done. cbv zeta. fold blob.
    rewrite callback_fresh, Hkeys, forEach_app.
    destruct (forEach pre _ _) as [[e1|[]] c1]; [reflexivity|].
    cbn [forEach]. rewrite bind_unfold.
    rewrite (createPrimitivesTable_identifierError s k t ie c1 Hget Hie).
    reflexivity. }
  destruct (acceptsFrom s [] pre) eqn:Hacc.
  - destruct (Hyes eq_refl) as (c1 & Hloop & Hlog).
    rewrite Hloop in Hrun. cbv beta iota in Hrun.
    exists pre, k, t, post, ie, ie.
    exists (mkConnection emptyDatabase None (executed c1 ++ [ROLLBACK])).
    exists (map createPrimitives (objectTypesAmong s pre)).
    split; [exact Hkeys|]. split; [exact Hpre|]. split; [exact Hget|].
    split; [exact Hie|]. split; [exact Hrun|].
    split; [reflexivity|]. split; [reflexivity|].
    split; [|split; [intros _; split; reflexivity|rewrite Hacc; discriminate]].
    cbn [executed]. rewrite Hlog, afterStructural_executed.
    rewrite <- !app_assoc. reflexivity.
  - destruct (Hno eq_refl)
      as (pre1 & k1 & fs1 & post1 & err & c1 & Hsplit & Hget1 & Hloop & Hlog).
    rewrite Hloop in Hrun. cbv beta iota in Hrun.
    exists pre, k, t, post, ie, (EngineError err).
    exists (mkConnection emptyDatabase None (executed c1 ++ [ROLLBACK])).
    exists (map createPrimitives (objectTypesAmong s pre1)
            ++ [createPrimitives (k1, fs1)]).
    split; [exact Hkeys|]. split; [exact Hpre|]. split; [exact Hget|].
    split; [exact Hie|]. split; [exact Hrun|].
    split; [reflexivity|]. split; [reflexivity|].
    split; [|split; [rewrite Hacc; discriminate|]].
    + cbn [executed]. rewrite Hlog, afterStructural_executed.
      rewrite <- !app_assoc. reflexivity.
    + intros _. exists pre1, k1, fs1, post1, err.
      split; [exact Hsplit|]. split; [exact Hget1|]. split; reflexivity.
Qed.

Lemma unsafe_identifier_rolled_back_witness :
  exists pre k t post ie e c' more,
    Js.keys Examples.dropTableSchema = pre ++ k :: post
    /\ (forall k', k' ∈ pre ->
          exists t', Js.get Examples.dropTableSchema k' = Some t'
                     /\ objectNamesSafe k' t' = true)
    /\ Js.get Examples.dropTableSchema k = Some t
    /\ identifierError k t = Some ie
    /\ _initialize StableJson.stringify Examples.dropTableSchema fresh
       = (inl e, c')
    /\ content c' = emptyDatabase
    /\ inTransaction c' = false
    /\ executed c'
       = [BEGIN; createMeta; selectMeta;
          insertMeta (StableJson.stringify
                        (mkMeta "MIRROR_v1" Examples.dropTableSchema))]
         ++ structuralTables ++ more ++ [ROLLBACK]
    /\ (acceptsFrom Examples.dropTableSchema [] pre = true ->
          e = ie
          /\ more = map createPrimitives
                        (objectTypesAmong Examples.dropTableSchema pre))
    /\ (acceptsFrom Examples.dropTableSchema [] pre = false ->
          exists pre1 k1 fs1 post1 err,
            pre = pre1 ++ k1 :: post1
            /\ Js.get Examples.dropTableSchema k1 = Some (OBJECT fs1)
            /\ e = EngineError err
            /\ more = map createPrimitives
                          (objectTypesAmong Examples.dropTableSchema pre1)
                      ++ [createPrimitives (k1, fs1)]).
Proof.
  apply (unsafe_identifier_rolled_back StableJson.stringify
           Examples.dropTableSchema).
  exists "Issue; DROP TABLE objects;--", (OBJECT [("id", ID)]).
  split; reflexivity.
Defined.

(** C7 fails on scenario S6: the identifier error is raised after
    twelve statements have been executed on the database. *)
Lemma unsafe_identifier_found_late :
  fst (_initialize StableJson.stringify Examples.dropTableSchema fresh)
  = inl (InvalidObjectTypeName "Issue; DROP TABLE objects;--")
  /\ executed (snd (_initialize StableJson.stringify
                      Examples.dropTableSchema fresh))
     = [BEGIN; createMeta; selectMeta;
        insertMeta (StableJson.stringify
                      (mkMeta "MIRROR_v1" Examples.dropTableSchema))]
       ++ structuralTables ++ [ROLLBACK].
Proof. split; reflexivity. Qed.

(** The identifier error is not always the one thrown: here the engine
    refuses the table of the type before the one of scenario S6, whose
    name is not looked at. *)
Example unsafe_identifier_after_refusal :
  hasUnsafeName Scenarios.refusedThenUnsafe
  /\ fst (_initialize StableJson.stringify Scenarios.refusedThenUnsafe fresh)
     = inl (EngineError (DuplicateColumnName "id"))
  /\ executed (snd (_initialize StableJson.stringify Scenarios.refusedThenUnsafe fresh))
     = [BEGIN; createMeta; selectMeta;
        insertMeta (StableJson.stringify
                      (mkMeta "MIRROR_v1" Scenarios.refusedThenUnsafe))]
       ++ structuralTables
       ++ [createPrimitives ("Actor", [("id", PRIMITIVE)]); ROLLBACK].
Proof.
  split; [|split; reflexivity].
  exists "Issue; DROP TABLE objects;--", (OBJECT [("id", ID)]).
  split; reflexivity.
Qed.

(** C9, as the code has it. [_initialize] checks object type names and
    primitive field names only.  When these pass [isSqlSafe], whatever
    the names of union types, link fields and connection fields, no
    call raises an identifier error, on whatever database; and on a
    fresh database a call fails on an error of the engine or not at
    all.  That it succeeds does not follow: the engine may refuse a
    table. *)
Theorem unchecked_names_pass (stringify : MetaObject -> string) s :
  checkedNamesSafe s ->
  (forall c e c', _initialize stringify s c = (inl e, c') ->
                  isIdentifierError e = false)
  /\ (forall e c', _initialize stringify s fresh = (inl e, c') ->
                   isEngineError e = true).
Proof.
  intros Hsafe. split.
  - intros c e c'. destruct (inTransaction c) eqn:Hc.
    + unfold _initialize. rewrite inTransaction_busy by done.
      by intros [= <- _].
    + rewrite initialize_outcome by done. cbv zeta.
      destruct (initializeCallback _ s (begun c)) as [[e1|[]] c1] eqn:Hcb;
        [|done].
      intros [= <- _]. by eapply callback_safe_error.
  - intros e c'. rewrite initialize_outcome by done. cbv zeta.
    rewrite callback_fresh.
    destruct (forEach _ _ _) as [[e1|[]] c1] eqn:Hloop; [|done].
    intros [= <- _]. by eapply primitivesLoop_safe_error.
Qed.

Lemma uncheckedSchema_safe : checkedNamesSafe Examples.uncheckedSchema.
Proof.
  intros k t. unfold Examples.uncheckedSchema. cbn [Js.get].
  destruct (String.eqb_spec "Actor-Union" k) as [<-|_]; [by intros [= <-]|].
  destruct (String.eqb_spec "User" k) as [<-|_]; [by intros [= <-]|done].
Qed.

(** On the schema with the unsafe unchecked names [_initialize]
    succeeds, and on no database does it raise an identifier error. *)
Lemma unchecked_names_pass_witness :
  hasUncheckedUnsafeName Examples.uncheckedSchema
  /\ fst (_initialize StableJson.stringify Examples.uncheckedSchema fresh)
     = inr tt
  /\ (forall c e c',
        _initialize StableJson.stringify Examples.uncheckedSchema c
        = (inl e, c') ->
        isIdentifierError e = false)
  /\ (forall e c',
        _initialize StableJson.stringify Examples.uncheckedSchema fresh
        = (inl e, c') ->
        isEngineError e = true).
Proof.
  split; [|split].
  - exists "Actor-Union", (UNION [("User", tt)]). split; reflexivity.
  - reflexivity.
  - apply (unchecked_names_pass StableJson.stringify
             Examples.uncheckedSchema uncheckedSchema_safe).
Defined.

(** C9 fails when a primitive field is called [id]: every checked name
    is safe and an unchecked one is not, yet [_initialize] does not
    succeed, as the engine refuses a second column [id]. *)
Lemma safe_names_yet_refused :
  checkedNamesSafe Examples.primitiveIdSchema
  /\ hasUncheckedUnsafeName Examples.primitiveIdSchema
  /\ fst (_initialize StableJson.stringify Examples.primitiveIdSchema fresh)
     = inl (EngineError (DuplicateColumnName "id")).
Proof.
  split; [|split].
  - intros k t. unfold Examples.primitiveIdSchema. cbn [Js.get].
    destruct (String.eqb_spec "Actor-Union" k) as [<-|_];
      [by intros [= <-]|].
    destruct (String.eqb_spec "User" k) as [<-|_]; [by intros [= <-]|done].
  - exists "Actor-Union", (UNION [("User", tt)]). split; reflexivity.
  - reflexivity.
Qed.

(** * Further properties of the mirror *)

(** ** The exceptions of [_initialize] *)

(** What one turn of the loop over the types can throw. *)
Lemma createPrimitivesTable_culprit s (k : string) c e c' :
  k ∈ Js.keys s ->
  createPrimitivesTable s k c = (inl e, c') ->
  isEngineError e = true
  \/ (isIdentifierError e = true /\ namesCulprit s e).
Proof.
  intros [t Hget]%key_get_some. destruct t as [fs|cs].
  - rewrite (createPrimitivesTable_object _ _ fs) by done.
    destruct (isSqlSafe k) eqn:Hk; simpl.
    + destruct (find _ _) as [f|] eqn:Hfind.
      * intros [= <- _]. right. split; [done|]. simpl.
        apply find_some in Hfind as [Hin Hf].
        apply list_elem_of_In, elem_fieldsOfKind in Hin as ([] & Hk' & Hp);
          try done.
        exists k, fs. repeat split; try done. by apply negb_true_iff.
      * intros ->%run_error. by left.
    + intros [= <- _]. right. split; [done|]. simpl. eauto.
  - by rewrite (createPrimitivesTable_union _ _ cs).
Qed.

Lemma primitivesLoop_culprit s ks : forall c e c',
  (forall k, k ∈ ks -> k ∈ Js.keys s) ->
  forEach ks (createPrimitivesTable s) c = (inl e, c') ->
  isEngineError e = true
  \/ (isIdentifierError e = true /\ namesCulprit s e).
Proof.
  induction ks as [|k ks IH]; intros c e c' Hks; simpl; [done|].
  rewrite bind_unfold.
  destruct (createPrimitivesTable s k c) as [[e1|[]] c1] eqn:Hstep.
  - intros [= <- _].
    eapply createPrimitivesTable_culprit; [|exact Hstep]. apply Hks. left.
  - apply IH. intros; apply Hks. by right.
Qed.

(** What the callback of [_initialize] can throw. *)
Lemma callback_culprit blob s c e c' :
  initializeCallback blob s c = (inl e, c') ->
  e = IncompatibleSchema
  \/ isEngineError e = true
  \/ (isIdentifierError e = true /\ namesCulprit s e).
Proof.
  unfold initializeCallback. rewrite bind_unfold.
  destruct (run createMeta c) as [[e1|[]] c1] eqn:H1.
  { intros [= <- _]. right. left. eapply run_error, H1. }
  rewrite bind_unfold.
  destruct (pluckGet selectMeta c1) as [[e2|existing] c2] eqn:H2.
  { intros [= <- _]. right. left. eapply pluckGet_error, H2. }
  destruct (strictEqualsString existing blob); [done|].
  destruct (bool_decide (existing <> None)); [intros [= <- _]; by left|].
  rewrite bind_unfold.
  destruct (run (insertMeta blob) c2) as [[e3|[]] c3] eqn:H3.
  { intros [= <- _]. right. left. eapply run_error, H3. }
  rewrite bind_unfold.
  destruct (forEach structuralTables run c3) as [[e4|[]] c4] eqn:H4.
  { intros [= <- _]. right. left. eapply structuralLoop_error, H4. }
  intros H5. right. by eapply primitivesLoop_culprit.
Qed.

Lemma initialize_culprit stringify s c e c' :
  _initialize stringify s c = (inl e, c') ->
  (e = AlreadyInTransaction /\ inTransaction c = true)
  \/ (inTransaction c = false
      /\ (e = IncompatibleSchema
          \/ isEngineError e = true
          \/ (isIdentifierError e = true /\ namesCulprit s e))).
Proof.
  destruct (inTransaction c) eqn:Hc.
  - unfold _initialize. rewrite inTransaction_busy by done.
    intros [= <- _]. by left.
  - rewrite initialize_outcome by done. cbv zeta.
    destruct (initializeCallback _ s (begun c)) as [[e1|[]] c1] eqn:Hcb;
      [|done].
    intros [= <- _]. right. split; [done|]. by eapply callback_culprit.
Qed.

(** X1. [_initialize] never throws the invariant violation of
    [primitivesTableName], nor a TypeError for a missing type or field:
    the name has been checked by then, and every key that is read comes
    from [Object.keys].  It throws "already in transaction" exactly when
    the connection is in a transaction. *)
Theorem initialize_unreachable_errors (stringify : MetaObject -> string)
    s c e c' :
  _initialize stringify s c = (inl e, c') ->
  (forall typename, e <> InvariantViolation typename)
  /\ e <> TypeError
  /\ (e = AlreadyInTransaction <-> inTransaction c = true).
Proof.
  intros [[-> Hc]|[Hc [->|[He|[He _]]]]]%initialize_culprit;
    repeat split; try done; try (by destruct e); congruence.
Qed.

Lemma initialize_unreachable_errors_witness :
  (forall typename,
     InvalidObjectTypeName "Issue; DROP TABLE objects;--"
     <> InvariantViolation typename)
  /\ InvalidObjectTypeName "Issue; DROP TABLE objects;--" <> TypeError
  /\ (InvalidObjectTypeName "Issue; DROP TABLE objects;--"
      = AlreadyInTransaction <-> inTransaction fresh = true).
Proof.
  apply (initialize_unreachable_errors StableJson.stringify
           Examples.dropTableSchema fresh _
           (snd (_initialize StableJson.stringify
                   Examples.dropTableSchema fresh))).
  reflexivity.
Defined.

(** X2. An identifier error of [_initialize] names a culprit of the
    schema: "invalid object type name" carries the name of an object
    type that does not pass [isSqlSafe]; "invalid field name" carries
    the name of a primitive field, not passing [isSqlSafe], of an object
    type whose own name passes. *)
Theorem initialize_error_names_culprit (stringify : MetaObject -> string)
    s c e c' :
  _initialize stringify s c = (inl e, c') ->
  isIdentifierError e = true ->
  match e with
  | InvalidObjectTypeName typename =>
      exists fs, Js.get s typename = Some (OBJECT fs)
                 /\ isSqlSafe typename = false
  | InvalidFieldName fieldname =>
      exists typename fs,
        Js.get s typename = Some (OBJECT fs)
        /\ isSqlSafe typename = true
        /\ Js.get fs fieldname = Some PRIMITIVE
        /\ isSqlSafe fieldname = false
  | _ => False
  end.
Proof.
  intros [[-> _]|[_ [->|[He|[_ Hculprit]]]]]%initialize_culprit Hid;
    try done.
  - by destruct e.
  - by destruct e.
Qed.

Lemma initialize_error_names_culprit_witness :
  exists fs,
    Js.get Examples.dropTableSchema "Issue; DROP TABLE objects;--"
    = Some (OBJECT fs)
    /\ isSqlSafe "Issue; DROP TABLE objects;--" = false.
Proof.
  apply (initialize_error_names_culprit StableJson.stringify
           Examples.dropTableSchema fresh
           (InvalidObjectTypeName "Issue; DROP TABLE objects;--")
           (snd (_initialize StableJson.stringify
                   Examples.dropTableSchema fresh))).
  - reflexivity.
  - reflexivity.
Defined.

(** ** The layout a successful [_initialize] leaves *)

(** A turn of the loop that returns has done one thing for an object
    type and nothing for a union. *)
Lemma createPrimitivesTable_returns s (k : string) c c1 :
  createPrimitivesTable s k c = (inr tt, c1) ->
  match Js.get s k with
  | Some (OBJECT fs) =>
      lookupTable ("primitives_" ++ k) (content c) = None
      /\ columnError ("primitives_" ++ k) []
           ("id" :: fieldsOfKind isPrimitive fs) = None
      /\ c1 = mkConnection
                (mkDatabase (tables (content c) ++ [primitivesTable k fs])
                            (indices (content c)))
                (saved c)
                (executed c ++ [createPrimitives (k, fs)])
  | Some (UNION _) => c1 = c
  | None => False
  end.
Proof.
  destruct (Js.get s k) as [[fs|cs]|] eqn:Hget.
  - rewrite (createPrimitivesTable_object _ _ fs) by done.
    destruct (negb (isSqlSafe k)); [done|].
    destruct (find _ _); [done|].
    rewrite run_data by done. unfold apply. simpl identName.
    destruct (lookupTable _ (content c)); [done|].
    destruct (lookupIndex _ (content c)); [done|].
    rewrite primitivesTable_column_names.
    destruct (columnError _ _ _); [done|].
    by intros [= <-].
  - rewrite (createPrimitivesTable_union _ _ cs) by done. by intros [= <-].
  - unfold createPrimitivesTable, Js.prop. by rewrite Hget.
Qed.

Lemma primitivesLoop_returns s ks : forall c c',
  forEach ks (createPrimitivesTable s) c = (inr tt, c') ->
  c' = mkConnection
         (mkDatabase
            (tables (content c)
               ++ map (fun kfs => primitivesTable (fst kfs) (snd kfs))
                      (objectTypesAmong s ks))
            (indices (content c)))
         (saved c)
         (executed c ++ map createPrimitives (objectTypesAmong s ks)).
Proof.
  induction ks as [|k ks IH]; intros c c'; simpl.
  - intros [= <-]. rewrite !app_nil_r. by destruct c as [[] ? ?].
  - rewrite bind_unfold.
    destruct (createPrimitivesTable s k c) as [[e|[]] c1] eqn:Hstep;
      [done|].
    apply createPrimitivesTable_returns in Hstep.
    intros Hrest%IH. unfold objectTypesAmong. simpl.
    fold (objectTypesAmong s ks).
    destruct (Js.get s k) as [[fs|cs]|]; [| |done].
    + destruct Hstep as (_ & _ & ->). simpl in Hrest. simpl.
      by rewrite <- !app_assoc in Hrest.
    + by subst c1.
Qed.

Lemma afterStructural_content blob :
  content (afterStructural blob)
  = mkDatabase (metaTable blob :: omap createdTable structuralTables)
               (omap createdIndex structuralTables).
Proof. reflexivity. Qed.

(** X3. After a successful [_initialize] on a fresh database the
    database is exactly this: [meta] with the one row (0, blob); the
    tables [updates], [objects], [links], [connections] and
    [connection_entries] as the structural DDL declares them; one table
    [primitives_T] for each object type [T], in the order of the keys of
    the schema; the three structural indices.  No table but [meta] has a
    row, and a union type has no table. *)
Theorem initialize_layout (stringify : MetaObject -> string) s c1 :
  _initialize stringify s fresh = (inr tt, c1) ->
  content c1 = mirrorLayout (stringify (mkMeta "MIRROR_v1" s)) s
  /\ map tbl_name (tables (content c1))
     = ["meta"; "updates"; "objects"; "links"; "connections";
        "connection_entries"]
       ++ map (fun kfs => ("primitives_" ++ fst kfs)%string)
              (objectTypesOf s)
  /\ map idx_name (indices (content c1))
     = ["idx_links__parent_id__fieldname";
        "idx_connections__object_id__fieldname";
        "idx_connection_entries__connection_id"]
  /\ (forall t, t ∈ tables (content c1) -> tbl_name t <> "meta" ->
                tbl_rows t = []).
Proof.
  intros (c0 & Hloop & ->)%initialize_fresh_success.
  apply primitivesLoop_returns in Hloop.
  set (blob := stringify (mkMeta "MIRROR_v1" s)) in *.
  rewrite afterStructural_content in Hloop. subst c0. cbn [content].
  fold (objectTypesOf s).
  split; [reflexivity|]. split; [|split].
  - cbn [tables]. rewrite map_app, map_map. reflexivity.
  - reflexivity.
  - cbn [tables]. intros t [->|Ht]%elem_of_cons Hname; [done|].
    apply elem_of_app in Ht as [Ht|Ht].
    + cbn in Ht.
      repeat (apply elem_of_cons in Ht as [->|Ht]; [done|]).
      by apply elem_of_nil in Ht.
    + apply list_elem_of_fmap in Ht as ([k fs] & -> & _). done.
Qed.

Lemma initialize_layout_witness :
  content (snd (_initialize StableJson.stringify
                  Examples.uncheckedSchema fresh))
  = mirrorLayout
      (StableJson.stringify (mkMeta "MIRROR_v1" Examples.uncheckedSchema))
      Examples.uncheckedSchema
  /\ map tbl_name
       (tables (content (snd (_initialize StableJson.stringify
                                Examples.uncheckedSchema fresh))))
     = ["meta"; "updates"; "objects"; "links"; "connections";
        "connection_entries"; "primitives_User"].
Proof.
  destruct (initialize_layout StableJson.stringify Examples.uncheckedSchema
              (snd (_initialize StableJson.stringify
                      Examples.uncheckedSchema fresh)) eq_refl)
    as (H1 & H2 & _).
  split; [exact H1|exact H2].
Defined.

(** X4. A successful [_initialize] on a fresh database has executed, in
    this order and nothing else: BEGIN, the three statements on [meta],
    the eight structural statements, one CREATE TABLE for each object
    type in the order of the keys of the schema, none for a union type,
    and COMMIT. *)
Theorem initialize_statements (stringify : MetaObject -> string) s c1 :
  _initialize stringify s fresh = (inr tt, c1) ->
  executed c1
  = [BEGIN; createMeta; selectMeta;
     insertMeta (stringify (mkMeta "MIRROR_v1" s))]
    ++ structuralTables
    ++ map createPrimitives (objectTypesOf s)
    ++ [COMMIT].
Proof.
  intros (c0 & Hloop & ->)%initialize_fresh_success.
  apply primitivesLoop_returns in Hloop. subst c0. cbn [executed].
  rewrite afterStructural_executed. fold (objectTypesOf s).
  by rewrite <- !app_assoc.
Qed.

Lemma initialize_statements_witness :
  executed (snd (_initialize StableJson.stringify
                   Examples.uncheckedSchema fresh))
  = [BEGIN; createMeta; selectMeta;
     insertMeta (StableJson.stringify
                   (mkMeta "MIRROR_v1" Examples.uncheckedSchema))]
    ++ structuralTables
    ++ map createPrimitives (objectTypesOf Examples.uncheckedSchema)
    ++ [COMMIT].
Proof.
  apply (initialize_statements StableJson.stringify
           Examples.uncheckedSchema).
  reflexivity.
Defined.

(** ** When [_initialize] succeeds on a fresh database *)

(** A loop that returns has met no clash of names. *)
Lemma primitivesLoop_returns_accepted s ks : forall seen c c',
  exactlySeen seen (content c) ->
  forEach ks (createPrimitivesTable s) c = (inr tt, c') ->
  acceptsFrom s seen ks = true.
Proof.
  induction ks as [|k ks IH]; intros seen c c' Hseen;
    cbn [forEach acceptsFrom]; [done|].
  rewrite bind_unfold.
  destruct (createPrimitivesTable s k c) as [[e|[]] c1] eqn:Hstep; [done|].
  apply createPrimitivesTable_returns in Hstep.
  destruct (Js.get s k) as [[fs|cs]|]; [| |done].
  - destruct Hstep as (Hfree & -> & ->). intros Hrest.
    apply Hseen in Hfree. rewrite Hfree. cbn [negb andb].
    eapply (IH (k :: seen)); [|exact Hrest]. cbn [content].
    by apply exactlySeen_added.
  - subst c1. by apply IH.
Qed.

(** X5. On a fresh database [_initialize] succeeds exactly when every
    object type name and every primitive field name passes [isSqlSafe]
    and the engine takes every table: no two object type names are
    equal up to the case of ASCII letters, and no primitives table has
    more columns than the engine allows (2000, [id] included) or two
    columns ([id] included) equal up to the case of ASCII letters. *)
Theorem initialize_succeeds_iff (stringify : MetaObject -> string) s :
  (exists c1, _initialize stringify s fresh = (inr tt, c1))
  <-> checkedNamesSafe s /\ engineAccepts s = true.
Proof.
  set (blob := stringify (mkMeta "MIRROR_v1" s)).
  split.
  - intros (c1 & (c0 & Hloop & _)%initialize_fresh_success). fold blob in Hloop.
    split.
    + intros k t Hget.
      destruct (objectNamesSafe k t) eqn:Hsafe; [done|].
      destruct (primitivesLoop_unsafe s (Js.keys s) (afterStructural blob))
        as (e & c' & Hfail & _); [done| |congruence].
      exists k, t. repeat split; try done. by eapply get_some_key.
    + eapply primitivesLoop_returns_accepted;
        [apply exactlySeen_afterStructural|exact Hloop].
  - intros [Hsafe Hacc].
    rewrite initialize_outcome by done. cbv zeta. fold blob.
    rewrite callback_fresh.
    destruct (primitivesLoop_accepted s (Js.keys s) []
                (afterStructural blob))
      as [c0 Hloop]; [done|done|apply onlySeen_afterStructural|done|].
    rewrite Hloop. eauto.
Qed.

(** A table the engine takes has no more columns than it allows. *)
Lemma columnError_length table names : forall seen,
  columnError table seen names = None ->
  names = [] \/ length seen + length names <= SQLITE_MAX_COLUMN.
Proof.
  induction names as [|n names IH]; intros seen; cbn [columnError];
    [by left|].
  destruct (SQLITE_MAX_COLUMN <=? length seen)%nat eqn:Hmax; [done|].
  apply Nat.leb_gt in Hmax.
  destruct (hasName n seen); [done|].
  intros [->|Hlen]%IH; right; cbn [length] in *; lia.
Qed.

Lemma acceptsFrom_columns s ks : forall seen (k : string) fs,
  acceptsFrom s seen ks = true ->
  k ∈ ks -> Js.get s k = Some (OBJECT fs) ->
  columnError ("primitives_" ++ k) [] ("id" :: fieldsOfKind isPrimitive fs)
  = None.
Proof.
  induction ks as [|k0 ks IH]; intros seen k fs Hacc Hk Hget.
  - by apply elem_of_nil in Hk.
  - cbn [acceptsFrom] in Hacc.
    apply elem_of_cons in Hk as [->|Hk].
    + rewrite Hget in Hacc.
      apply andb_true_iff in Hacc as [[_ Hcols]%andb_true_iff _].
      by destruct (columnError _ _ _).
    + destruct (Js.get s k0) as [[fs0|cs0]|]; [|by eapply IH..].
      apply andb_true_iff in Hacc as [_ Hacc]. by eapply IH.
Qed.

(** The limit at work: a schema with an object type of 2000 primitive
    fields or more is refused, as its table would have more than 2000
    columns. *)
Lemma too_many_columns_refused (stringify : MetaObject -> string) s
    (T : string) fs c1 :
  Js.get s T = Some (OBJECT fs) ->
  SQLITE_MAX_COLUMN <= length (fieldsOfKind isPrimitive fs) ->
  _initialize stringify s fresh <> (inr tt, c1).
Proof.
  intros Hget Hmany (c0 & Hloop & _)%initialize_fresh_success.
  apply (primitivesLoop_returns_accepted s (Js.keys s) []) in Hloop;
    [|apply exactlySeen_afterStructural].
  eapply acceptsFrom_columns in Hloop; [|by eapply get_some_key|exact Hget].
  apply columnError_length in Hloop as [?|Hlen]; [done|].
  cbn [length] in Hlen. lia.
Qed.

(** Two object types called [Issue] and [issue]: the names are safe,
    the engine refuses the second table, and the call fails. *)
Example case_clash_refused :
  checkedNamesSafe Scenarios.caseClash
  /\ engineAccepts Scenarios.caseClash = false
  /\ fst (_initialize StableJson.stringify Scenarios.caseClash fresh)
     = inl (EngineError (TableAlreadyExists "primitives_issue")).
Proof.
  split; [|split; reflexivity].
  intros k t. unfold Scenarios.caseClash. cbn [Js.get].
  destruct (String.eqb_spec "Issue" k) as [<-|_]; [by intros [= <-]|].
  destruct (String.eqb_spec "issue" k) as [<-|_]; [by intros [= <-]|done].
Qed.

(** ** Opening a database that is initialised *)

(** X6. Whether a database that [_initialize] has set up is compatible
    with a schema is decided on the blob alone: a call with any schema
    whose serialisation equals the stored one succeeds, runs BEGIN, the
    CREATE TABLE IF NOT EXISTS, the SELECT and COMMIT, checks no name
    and changes nothing, also when the schema differs from the first one
    (in the order of its keys, say). *)
Theorem compatible_by_blob (stringify : MetaObject -> string) s s' c c1 :
  _initialize stringify s c = (inr tt, c1) ->
  stringify (mkMeta "MIRROR_v1" s') = stringify (mkMeta "MIRROR_v1" s) ->
  exists c2,
    _initialize stringify s' c1 = (inr tt, c2)
    /\ content c2 = content c1
    /\ inTransaction c2 = false
    /\ executed c2 = executed c1 ++ [BEGIN; createMeta; selectMeta; COMMIT].
Proof.
  intros [Hc1 Hblob]%initialize_success Hsame.
  rewrite (initialize_again _ _ _ _ Hc1 Hblob), Hsame, String.eqb_refl.
  eexists. split; [reflexivity|]. done.
Qed.

Lemma compatible_by_blob_witness :
  Scenarios.bodyThenTitle <> Scenarios.titleThenBody
  /\ exists c2,
       _initialize StableJson.stringify Scenarios.bodyThenTitle
         (snd (_initialize StableJson.stringify
                 Scenarios.titleThenBody fresh))
       = (inr tt, c2)
       /\ content c2
          = content (snd (_initialize StableJson.stringify
                            Scenarios.titleThenBody fresh))
       /\ inTransaction c2 = false
       /\ executed c2
          = executed (snd (_initialize StableJson.stringify
                             Scenarios.titleThenBody fresh))
            ++ [BEGIN; createMeta; selectMeta; COMMIT].
Proof.
  split; [discriminate|].
  apply (compatible_by_blob StableJson.stringify Scenarios.titleThenBody
           Scenarios.bodyThenTitle fresh).
  - reflexivity.
  - reflexivity.
Defined.

(** ** The constructor *)

Lemma buildSchemaInfo_total s : exists info, _buildSchemaInfo s = inr info.
Proof.
  destruct (forOf_addType s (Js.keys s) (mkSchemaInfo ∅ ∅))
    as (info & Hrun & _); [done|].
  by exists info.
Qed.

(** X7. The constructor of [Mirror] throws on a missing argument, the
    database first, before anything is executed.  With both arguments
    it throws what [_initialize] throws and nothing else
    ([_buildSchemaInfo] does not throw), and whenever it throws, on any
    database, the content and the transaction state of the connection
    are those from before the call.  When it returns, [_initialize] has
    succeeded, the mirror holds the [SchemaInfo] of its schema, and
    [meta] holds the blob. *)
Theorem constructor_contract (stringify : MetaObject -> string)
    (db : option Connection) (schema : option Schema) :
  match constructor stringify db schema with
  | (inl (ArgumentMissing argument), after) =>
      after = db
      /\ (argument = "db" /\ db = None
          \/ argument = "schema" /\ db <> None /\ schema = None)
  | (inl (Thrown e), after) =>
      exists c s c',
        db = Some c /\ schema = Some s /\ after = Some c'
        /\ _initialize stringify s c = (inl e, c')
        /\ content c' = content c
        /\ saved c' = saved c
  | (inr mirror, after) =>
      exists c s,
        db = Some c /\ schema = Some s /\ after = Some (_db mirror)
        /\ _initialize stringify s c = (inr tt, _db mirror)
        /\ _schema mirror = s
        /\ _buildSchemaInfo s = inr (_schemaInfo mirror)
        /\ metaBlob (content (_db mirror))
           = Some (Text (stringify (mkMeta "MIRROR_v1" s)))
  end.
Proof.
  unfold constructor.
  destruct db as [c|]; [|split; [done|by left]].
  destruct schema as [s|]; [|split; [done|by right]].
  destruct (buildSchemaInfo_total s) as [info Hinfo]. rewrite Hinfo.
  destruct (_initialize stringify s c) as [[e|[]] c'] eqn:Hinit.
  - destruct (initialize_failure _ _ _ _ _ Hinit) as [Hcontent Hsaved].
    by exists c, s, c'.
  - destruct (initialize_success _ _ _ _ Hinit) as [_ Hblob].
    exists c, s. cbn [_db _schema _schemaInfo]. by repeat split.
Qed.

(** ** More on [_inTransaction] *)

Lemma insertThenThrow_keeps_transaction :
  preserves sameTransaction Examples.insertThenThrow.
Proof.
  unfold Examples.insertThenThrow.
  apply preserves_bind; [apply sameTransaction_trans| |].
  { by apply run_sameTransaction. }
  intros _. apply preserves_bind; [apply sameTransaction_trans| |].
  { by apply run_sameTransaction. }
  intros _. apply preserves_throw, sameTransaction_refl.
Qed.

(** X9. [_inTransaction] is not re-entrant: called from within its own
    callback it throws "already in transaction" without running the
    inner callback, and the outer call rolls back.  The database is
    untouched and only BEGIN and ROLLBACK have been executed. *)
Theorem inTransaction_nested {R : Type} (fn : M R) (c : Connection) :
  inTransaction c = false ->
  _inTransaction (_inTransaction fn) c
  = (inl AlreadyInTransaction,
     mkConnection (content c) None (executed c ++ [BEGIN; ROLLBACK])).
Proof.
  intros Hc. rewrite inTransaction_outcome by done.
  rewrite (inTransaction_busy fn (begun c)) by done.
  unfold rolledBack, begun. simpl. by rewrite <- app_assoc.
Qed.

Lemma inTransaction_nested_witness :
  _inTransaction (_inTransaction Examples.insertThenReturn) fresh
  = (inl AlreadyInTransaction,
     mkConnection (content fresh) None (executed fresh ++ [BEGIN; ROLLBACK])).
Proof.
  apply (inTransaction_nested Examples.insertThenReturn fresh).
  reflexivity.
Defined.

Section MoreOnWrapper.

Import AnyEngine.

(** X8. On every transactional engine [_inTransaction] makes a
    callback that leaves transaction control alone all or nothing.
    When the call returns, the callback has returned the same value and
    the data are the ones the callback left.  When the call throws, the
    data are the ones from before the call; it throws what the callback
    threw or, the callback having returned, the error with which the
    engine refused the COMMIT.  Either way no transaction stays
    open. *)
Theorem inTransaction_atomic (E : Engine) (V : View E)
    (T : Transactional E V) {R : Type} (fn : On E R) (c : Db E) :
  (forall c1, held V (snd (fn c1)) = held V c1) ->
  active E c = false ->
  exists v0 c1 r c2 outcome c3,
    exec E BEGIN c = (inr v0, c1)
    /\ fn c1 = (r, c2)
    /\ AnyEngine._inTransaction fn c = (outcome, c3)
    /\ active E c3 = false
    /\ match outcome with
       | inl e =>
           data V c3 = data V c
           /\ (r = inl e
               \/ exists err, e = EngineError err
                              /\ fst (exec E COMMIT c2) = inl err)
       | inr x => r = inr x /\ data V c3 = data V c2
       end.
Proof.
  intros Hfn Hc.
  destruct (begin_opens E V T c Hc) as (v0 & c1 & Hbegin & Hdata1 & Hheld1).
  destruct (fn c1) as [r c2] eqn:Hrun.
  assert (Hheld2 : held V c2 = Some (data V c)).
  { specialize (Hfn c1). rewrite Hrun in Hfn. simpl in Hfn. congruence. }
  exists v0, c1, r, c2.
  rewrite (inTransaction_begun E fn c v0 c1 Hc Hbegin), Hrun.
  destruct r as [e|x]; cbv beta iota.
  - destruct (finally_outcome E V T (inl e : Result R) c2)
      as (c3 & Heq & Hc3 & _ & Hback).
    exists (inl e), c3. split; [done|]. split; [done|].
    split; [exact Heq|]. split; [done|]. split; [|by left].
    by destruct (Hback _ Hheld2).
  - rewrite (active_of_held E V T c2 _ Hheld2).
    pose proof (commit_ends E V T c2 _ Hheld2) as Hcommit.
    destruct (exec E COMMIT c2) as [[err|v] c3] eqn:Hexec; cbv beta iota.
    + destruct (finally_outcome E V T
                  (inl (EngineError err) : Result R) c3)
        as (c4 & Heq & Hc4 & Hsame & Hback).
      exists (inl (EngineError err)), c4. split; [done|]. split; [done|].
      split; [exact Heq|]. split; [done|]. split.
      * destruct Hcommit as [Hopen|[Hclosed Hdata]].
        -- by destruct (Hback _ Hopen).
        -- rewrite Hsame; [done|]. by apply (inactive_of_held E V T).
      * right. by exists err.
    + destruct Hcommit as [Hdata Hclosed].
      rewrite (inactive_of_held E V T c3 Hclosed).
      exists (inr x), c3. repeat split; try done.
      by apply (inactive_of_held E V T).
Qed.

Lemma inTransaction_atomic_witness :
  exists v0 c1 r c2 outcome c3,
    exec sqlite BEGIN fresh = (inr v0, c1)
    /\ Examples.insertThenThrow c1 = (r, c2)
    /\ AnyEngine._inTransaction (E := sqlite) Examples.insertThenThrow fresh
       = (outcome, c3)
    /\ active sqlite c3 = false
    /\ match outcome with
       | inl e =>
           data sqliteView c3 = data sqliteView fresh
           /\ (r = inl e
               \/ exists err, e = EngineError err
                              /\ fst (exec sqlite COMMIT c2) = inl err)
       | inr x => r = inr x /\ data sqliteView c3 = data sqliteView c2
       end.
Proof.
  apply (inTransaction_atomic sqlite sqliteView sqlite_transactional
           Examples.insertThenThrow fresh).
  - apply insertThenThrow_keeps_transaction.
  - reflexivity.
Defined.

(** X10. A callback may commit and begin again, as the comment of
    [_inTransaction] says.  On every transactional engine, when the
    callback does a first part, runs a COMMIT that goes through, begins
    a transaction and does a second part, what the first part wrote
    stays whatever comes after: when the call returns, the second part
    has returned the same value and what it wrote stays too; when the
    call throws, because the second part threw or because the engine
    refused the last COMMIT, the data are the ones the first part
    left. *)
Theorem inTransaction_commit_then_begin (E : Engine) (V : View E)
    (T : Transactional E V) {A B : Type}
    (first : On E A) (second : A -> On E B) (c : Db E)
    v0 c0 x c1 v1 c1' v2 c1'' r c2 :
  (forall c', held V (snd (first c')) = held V c') ->
  (forall y c', held V (snd (second y c')) = held V c') ->
  active E c = false ->
  exec E BEGIN c = (inr v0, c0) ->
  first c0 = (inr x, c1) ->
  exec E COMMIT c1 = (inr v1, c1') ->
  exec E BEGIN c1' = (inr v2, c1'') ->
  second x c1'' = (r, c2) ->
  exists outcome c3,
    AnyEngine._inTransaction (commitThenBegin first second) c = (outcome, c3)
    /\ active E c3 = false
    /\ match outcome with
       | inl e =>
           data V c3 = data V c1
           /\ (r = inl e
               \/ exists err, e = EngineError err
                              /\ fst (exec E COMMIT c2) = inl err)
       | inr y => r = inr y /\ data V c3 = data V c2
       end.
Proof.
  intros Hfirst Hsecond Hc Hbegin Hrun1 Hcommit1 Hbegin2 Hrun2.
  destruct (begin_opens E V T c Hc) as (v0' & c0' & Hbegin' & _ & Hheld0).
  rewrite Hbegin in Hbegin'. injection Hbegin' as <- <-.
  assert (Hheld1 : held V c1 = Some (data V c)).
  { specialize (Hfirst c0). rewrite Hrun1 in Hfirst. simpl in Hfirst.
    congruence. }
  pose proof (commit_ends E V T c1 _ Hheld1) as Hlaw.
  rewrite Hcommit1 in Hlaw. destruct Hlaw as [Hdata1' Hheld1'].
  destruct (begin_opens E V T c1' (inactive_of_held E V T c1' Hheld1'))
    as (v2' & c2' & Hbegin2' & Hdata1'' & Hheld1'').
  rewrite Hbegin2 in Hbegin2'. injection Hbegin2' as <- <-.
  assert (Hheld2 : held V c2 = Some (data V c1)).
  { specialize (Hsecond x c1''). rewrite Hrun2 in Hsecond. simpl in Hsecond.
    congruence. }
  assert (Hfn : commitThenBegin first second c0 = (r, c2)).
  { unfold commitThenBegin. rewrite Hrun1. unfold run.
    by rewrite Hcommit1, Hbegin2. }
  rewrite (inTransaction_begun E _ c v0 c0 Hc Hbegin), Hfn.
  destruct r as [e|y]; cbv beta iota.
  - destruct (finally_outcome E V T (inl e : Result B) c2)
      as (c3 & Heq & Hc3 & _ & Hback).
    exists (inl e), c3. split; [exact Heq|]. split; [done|].
    split; [|by left]. by destruct (Hback _ Hheld2).
  - rewrite (active_of_held E V T c2 _ Hheld2).
    pose proof (commit_ends E V T c2 _ Hheld2) as Hcommit.
    destruct (exec E COMMIT c2) as [[err|v] c3] eqn:Hexec; cbv beta iota.
    + destruct (finally_outcome E V T
                  (inl (EngineError err) : Result B) c3)
        as (c4 & Heq & Hc4 & Hsame & Hback).
      exists (inl (EngineError err)), c4. split; [exact Heq|].
      split; [done|]. split.
      * destruct Hcommit as [Hopen|[Hclosed Hdata]].
        -- by destruct (Hback _ Hopen).
        -- rewrite Hsame; [done|]. by apply (inactive_of_held E V T).
      * right. by exists err.
    + destruct Hcommit as [Hdata Hclosed].
      rewrite (inactive_of_held E V T c3 Hclosed).
      exists (inr y), c3. repeat split; try done.
      by apply (inactive_of_held E V T).
Qed.

Lemma inTransaction_commit_then_begin_witness :
  exists outcome c3,
    AnyEngine._inTransaction (E := sqlite)
      (commitThenBegin (E := sqlite) Scenarios.createMetaOnly
                       Scenarios.insertRowThenThrow) fresh
    = (outcome, c3)
    /\ active sqlite c3 = false
    /\ match outcome with
       | inl e =>
           data sqliteView c3
           = data sqliteView (snd (Scenarios.createMetaOnly (begun fresh)))
           /\ ((inl TypeError : Result nat) = inl e
               \/ exists err,
                    e = EngineError err
                    /\ fst (exec sqlite COMMIT
                              (snd (Scenarios.insertRowThenThrow 1
                                      (snd (step BEGIN
                                              (snd (step COMMIT
                                                      (snd (Scenarios.createMetaOnly
                                                              (begun fresh))))))))))
                       = inl err)
       | inr y =>
           (inl TypeError : Result nat) = inr y
           /\ data sqliteView c3
              = data sqliteView
                  (snd (Scenarios.insertRowThenThrow 1
                          (snd (step BEGIN
                                  (snd (step COMMIT
                                          (snd (Scenarios.createMetaOnly
                                                  (begun fresh)))))))))
       end.
Proof.
  apply (inTransaction_commit_then_begin sqlite sqliteView
           sqlite_transactional
           Scenarios.createMetaOnly Scenarios.insertRowThenThrow fresh
           None (begun fresh)
           1 (snd (Scenarios.createMetaOnly (begun fresh)))
           None (snd (step COMMIT (snd (Scenarios.createMetaOnly
                                          (begun fresh)))))
           None (snd (step BEGIN
                        (snd (step COMMIT
                                (snd (Scenarios.createMetaOnly
                                        (begun fresh)))))))
           (inl TypeError)
           (snd (Scenarios.insertRowThenThrow 1
                   (snd (step BEGIN
                           (snd (step COMMIT
                                   (snd (Scenarios.createMetaOnly
                                           (begun fresh))))))))));
    try reflexivity.
  - change (preserves sameTransaction Scenarios.createMetaOnly).
    unfold Scenarios.createMetaOnly.
    apply preserves_bind; [apply sameTransaction_trans| |].
    { by apply run_sameTransaction. }
    intros _. apply preserves_ret, sameTransaction_refl.
  - intros y.
    change (preserves sameTransaction (Scenarios.insertRowThenThrow y)).
    unfold Scenarios.insertRowThenThrow.
    apply preserves_bind; [apply sameTransaction_trans| |].
    { by apply run_sameTransaction. }
    intros _. apply preserves_throw, sameTransaction_refl.
Defined.

End MoreOnWrapper.

(** ** More on [_buildSchemaInfo] *)

Lemma addType_step s acc (k : string) :
  k ∈ Js.keys s ->
  exists v,
    Js.get s k = Some v
    /\ addType s acc k
       = inr match v with
             | OBJECT fs =>
                 mkSchemaInfo (<[k := entryOf fs]> (objectTypes acc))
                              (unionTypes acc)
             | UNION cs =>
                 mkSchemaInfo (objectTypes acc)
                              (<[k := mkUnionInfo (Js.keys cs)]>
                                 (unionTypes acc))
             end.
Proof.
  intros (v & Hprop & Hget)%prop_of_key. exists v. split; [done|].
  unfold addType. rewrite Hprop. destruct v as [fs|cs]; simpl; [|done].
  by rewrite buildObjectEntry_total.
Qed.

Lemma forOf_addType_lookup s ks : forall acc,
  (forall k, k ∈ ks -> k ∈ Js.keys s) ->
  exists info,
    forOf ks (addType s) acc = inr info
    /\ (forall T : string,
          objectTypes info !! T
          = match Js.get s T with
            | Some (OBJECT fs) =>
                if bool_decide (T ∈ ks) then Some (entryOf fs)
                else objectTypes acc !! T
            | _ => objectTypes acc !! T
            end)
    /\ (forall T : string,
          unionTypes info !! T
          = match Js.get s T with
            | Some (UNION cs) =>
                if bool_decide (T ∈ ks) then Some (mkUnionInfo (Js.keys cs))
                else unionTypes acc !! T
            | _ => unionTypes acc !! T
            end).
Proof.
  induction ks as [|k ks IH]; intros acc Hks; simpl.
  - exists acc. split; [done|].
    split; intros T; destruct (Js.get s T) as [[|]|]; done.
  - destruct (addType_step s acc k) as (v & Hget & ->); [apply Hks; left|].
    destruct (IH (match v with
                  | OBJECT fs =>
                      mkSchemaInfo (<[k := entryOf fs]> (objectTypes acc))
                                   (unionTypes acc)
                  | UNION cs =>
                      mkSchemaInfo (objectTypes acc)
                                   (<[k := mkUnionInfo (Js.keys cs)]>
                                      (unionTypes acc))
                  end)) as (info & Hrun & Hobj & Hun);
      [intros; apply Hks; by right|].
    exists info. split; [done|].
    split; intros T; [rewrite Hobj|rewrite Hun]; clear Hobj Hun Hrun.
    + destruct (decide (T = k)) as [->|Hne].
      * rewrite Hget. rewrite (bool_decide_eq_true_2 (k ∈ k :: ks)) by left.
        destruct v as [fs|cs]; simpl; [|done].
        rewrite lookup_insert_eq. by case_bool_decide.
      * assert (bool_decide (T ∈ k :: ks) = bool_decide (T ∈ ks)) as ->.
        { apply bool_decide_ext. rewrite elem_of_cons.
          split; [by intros [?|?]|by right]. }
        destruct v as [fs|cs]; simpl; [|done].
        by rewrite lookup_insert_ne.
    + destruct (decide (T = k)) as [->|Hne].
      * rewrite Hget. rewrite (bool_decide_eq_true_2 (k ∈ k :: ks)) by left.
        destruct v as [fs|cs]; simpl; [done|].
        rewrite lookup_insert_eq. by case_bool_decide.
      * assert (bool_decide (T ∈ k :: ks) = bool_decide (T ∈ ks)) as ->.
        { apply bool_decide_ext. rewrite elem_of_cons.
          split; [by intros [?|?]|by right]. }
        destruct v as [fs|cs]; simpl; [done|].
        by rewrite lookup_insert_ne.
Qed.

(** X11. For a schema without a type called [__proto__],
    [_buildSchemaInfo] returns, and the own properties of its result are
    the schema read type by type: [objectTypes] has an entry exactly for
    the object types, with the fields of the type and its primitive,
    link and connection field names; [unionTypes] has an entry exactly
    for the union types, with the keys of the clauses; no name is in
    both. *)
Theorem buildSchemaInfo_lookup s :
  "__proto__" ∉ Js.keys s ->
  exists info,
    _buildSchemaInfo s = inr info
    /\ (forall T : string,
          objectTypes info !! T
          = match Js.get s T with
            | Some (OBJECT fs) =>
                Some (mkObjectInfo fs (fieldsOfKind isPrimitive fs)
                                   (fieldsOfKind isLink fs)
                                   (fieldsOfKind isConnection fs))
            | _ => None
            end)
    /\ (forall T : string,
          unionTypes info !! T
          = match Js.get s T with
            | Some (UNION cs) => Some (mkUnionInfo (Js.keys cs))
            | _ => None
            end)
    /\ (forall T : string,
          objectTypes info !! T = None \/ unionTypes info !! T = None).
Proof.
  intros _.
  destruct (forOf_addType_lookup s (Js.keys s) (mkSchemaInfo ∅ ∅))
    as (info & Hrun & Hobj & Hun); [done|].
  exists info. split; [done|].
  assert (Hkey : forall (T : string) v,
            Js.get s T = Some v -> bool_decide (T ∈ Js.keys s) = true).
  { intros T v Hget. apply bool_decide_eq_true_2. by eapply get_some_key. }
  assert (Hobj' : forall T : string,
            objectTypes info !! T
            = match Js.get s T with
              | Some (OBJECT fs) => Some (entryOf fs)
              | _ => None
              end).
  { intros T. rewrite Hobj.
    destruct (Js.get s T) as [[fs|cs]|] eqn:Hget; simpl; try done.
    by rewrite (Hkey T _ Hget). }
  assert (Hun' : forall T : string,
            unionTypes info !! T
            = match Js.get s T with
              | Some (UNION cs) => Some (mkUnionInfo (Js.keys cs))
              | _ => None
              end).
  { intros T. rewrite Hun.
    destruct (Js.get s T) as [[fs|cs]|] eqn:Hget; simpl; try done.
    by rewrite (Hkey T _ Hget). }
  repeat split; try done.
  intros T. rewrite Hobj', Hun'.
  destruct (Js.get s T) as [[fs|cs]|]; auto.
Qed.

Lemma buildSchemaInfo_lookup_witness :
  exists info,
    _buildSchemaInfo Examples.uncheckedSchema = inr info
    /\ (forall T : string,
          objectTypes info !! T
          = match Js.get Examples.uncheckedSchema T with
            | Some (OBJECT fs) =>
                Some (mkObjectInfo fs (fieldsOfKind isPrimitive fs)
                                   (fieldsOfKind isLink fs)
                                   (fieldsOfKind isConnection fs))
            | _ => None
            end)
    /\ (forall T : string,
          unionTypes info !! T
          = match Js.get Examples.uncheckedSchema T with
            | Some (UNION cs) => Some (mkUnionInfo (Js.keys cs))
            | _ => None
            end)
    /\ (forall T : string,
          objectTypes info !! T = None \/ unionTypes info !! T = None).
Proof.
  apply (buildSchemaInfo_lookup Examples.uncheckedSchema).
  intros Hin. apply list_elem_of_In in Hin. simpl in Hin.
  by destruct Hin as [|[|[]]].
Defined.

Lemma sublist_List_filter {A : Type} (f : A -> bool) (l : list A) :
  sublist (List.filter f l) l.
Proof.
  induction l as [|x l IH]; simpl; [constructor|].
  destruct (f x); by constructor.
Qed.

Lemma kinds_count fs ks :
  (forall k, k ∈ ks -> k ∈ Js.keys fs) ->
  length (List.filter (fieldHas isId fs) ks)
  + length (List.filter (fieldHas isPrimitive fs) ks)
  + length (List.filter (fieldHas isLink fs) ks)
  + length (List.filter (fieldHas isConnection fs) ks)
  = length ks.
Proof.
  induction ks as [|k ks IH]; intros Hks; [done|].
  destruct (key_get_some fs k) as [v Hget]; [apply Hks; left|].
  assert (Hkind : forall q, fieldHas q fs k = q v)
    by (intros q; unfold fieldHas; by rewrite Hget).
  cbn [List.filter]. rewrite !Hkind.
  assert (Htail : forall k', k' ∈ ks -> k' ∈ Js.keys fs)
    by (intros; apply Hks; by right).
  specialize (IH Htail).
  destruct v; cbn [isId isPrimitive isLink isConnection length]; lia.
Qed.

(** X12. The three sequences of an entry of [SchemaInfo] keep the order
    of [Object.keys]: each is a subsequence of the keys of the fields.
    Every key is counted once: the lengths of the three sequences and
    the number of ID fields add up to the number of keys.  When the
    keys are distinct, as those of an object are, no name occurs twice
    in the three sequences together. *)
Theorem field_sequences_ordered s (T : string) fs :
  Js.get s T = Some (OBJECT fs) ->
  exists info entry,
    _buildSchemaInfo s = inr info
    /\ objectTypes info !! T = Some entry
    /\ sublist (primitiveFieldNames entry) (Js.keys fs)
    /\ sublist (linkFieldNames entry) (Js.keys fs)
    /\ sublist (connectionFieldNames entry) (Js.keys fs)
    /\ idFieldCount fs + length (primitiveFieldNames entry)
       + length (linkFieldNames entry)
       + length (connectionFieldNames entry)
       = length (Js.keys fs)
    /\ (NoDup (Js.keys fs) ->
        NoDup (primitiveFieldNames entry ++ linkFieldNames entry
               ++ connectionFieldNames entry)).
Proof.
  intros Hget.
  destruct (buildSchemaInfo_object s T fs Hget) as (info & Hrun & Hentry).
  exists info, (entryOf fs). simpl.
  repeat split; try done; try apply sublist_List_filter.
  - by apply kinds_count.
  - intros Hnodup.
    assert (Hfilter : forall q, NoDup (fieldsOfKind q fs)).
    { intros q. apply NoDup_ListNoDup, List.NoDup_filter.
      by apply NoDup_ListNoDup. }
    apply NoDup_app. split; [apply Hfilter|]. split.
    + intros f Hp [Hl|Hc]%elem_of_app.
      * by apply (kinds_exclusive isPrimitive isLink fs
                    ltac:(by intros []) f).
      * by apply (kinds_exclusive isPrimitive isConnection fs
                    ltac:(by intros []) f).
    + apply NoDup_app. split; [apply Hfilter|]. split; [|apply Hfilter].
      intros f Hl Hc.
      by apply (kinds_exclusive isLink isConnection fs
                  ltac:(by intros []) f).
Qed.

Lemma field_sequences_ordered_witness :
  exists info entry,
    _buildSchemaInfo Examples.issueSchema = inr info
    /\ objectTypes info !! "Issue" = Some entry
    /\ sublist (primitiveFieldNames entry)
               ["id"; "title"; "author"; "comments"]
    /\ idFieldCount [("id", ID); ("title", PRIMITIVE);
                     ("author", NODE "User");
                     ("comments", CONNECTION "Comment")]
       + length (primitiveFieldNames entry)
       + length (linkFieldNames entry)
       + length (connectionFieldNames entry)
       = 4.
Proof.
  destruct (field_sequences_ordered Examples.issueSchema "Issue"
              [("id", ID); ("title", PRIMITIVE); ("author", NODE "User");
               ("comments", CONNECTION "Comment")] eq_refl)
    as (info & entry & H1 & H2 & H3 & _ & _ & H4 & _).
  exists info, entry. split; [exact H1|]. split; [exact H2|].
  split; [exact H3|exact H4].
Defined.

(** ** More on [isSqlSafe] and [primitivesTableName] *)

Lemma isSqlSafe_app (a b : string) :
  isSqlSafe (a ++ b) = isSqlSafe a && isSqlSafe b.
Proof.
  rewrite !isSqlSafe_allWordChars.
  induction a as [|c a IH]; simpl; [done|].
  by rewrite IH, andb_assoc.
Qed.

Lemma allWordChars_elem s c :
  allWordChars s = true -> c ∈ list_ascii_of_string s -> isWordChar c = true.
Proof.
  induction s as [|c0 s IH]; simpl.
  - intros _ H. by apply elem_of_nil in H.
  - intros [Hc0 Hs]%andb_true_iff [->|H]%elem_of_cons; auto.
Qed.

(** X13. [isSqlSafe] goes through concatenation: a string made of two
    parts is safe exactly when both are.  So [primitivesTableName]
    returns a name exactly for the type names that pass [isSqlSafe], the
    name between the quotes, [primitives_] followed by the type name,
    passes [isSqlSafe] itself, and it holds no double quote, which
    would end the quoted identifier early. *)
Theorem primitivesTableName_safe (typename : string) :
  (forall a b : string, isSqlSafe (a ++ b) = isSqlSafe a && isSqlSafe b)
  /\ match primitivesTableName typename with
     | inr tableName =>
         isSqlSafe typename = true
         /\ tableName = Quoted ("primitives_" ++ typename)
         /\ isSqlSafe (identName tableName) = true
         /\ (ascii_of_nat 34 ∉ list_ascii_of_string (identName tableName))
     | inl e =>
         isSqlSafe typename = false /\ e = InvariantViolation typename
     end.
Proof.
  split; [apply isSqlSafe_app|].
  unfold primitivesTableName.
  destruct (isSqlSafe typename) eqn:Hsafe; simpl; [|done].
  assert (Hname : isSqlSafe ("primitives_" ++ typename) = true)
    by (by rewrite isSqlSafe_app, Hsafe).
  repeat split; try done.
  intros Hquote. rewrite isSqlSafe_allWordChars in Hname.
  by pose proof (allWordChars_elem _ _ Hname Hquote).
Qed.

(** ** Identity names *)

Lemma identityNameChar_lower c :
  Identity.isIdentityNameChar (lowerAscii c) = Identity.isIdentityNameChar c.
Proof.
  destruct c as [[] [] [] [] [] [] [] []]; reflexivity.
Qed.

Lemma lowerAscii_idem c : lowerAscii (lowerAscii c) = lowerAscii c.
Proof.
  destruct c as [[] [] [] [] [] [] [] []]; reflexivity.
Qed.

Lemma lowerAscii_not_upper c : inRange 65 90 (lowerAscii c) = false.
Proof.
  destruct c as [[] [] [] [] [] [] [] []]; reflexivity.
Qed.

Lemma allIdentityNameChars_foldCase s :
  Identity.allIdentityNameChars (foldCase s)
  = Identity.allIdentityNameChars s.
Proof.
  induction s as [|c s IH]; simpl; [done|].
  by rewrite identityNameChar_lower, IH.
Qed.

Lemma matchesIdentityNamePattern_foldCase s :
  Identity.matchesIdentityNamePattern (foldCase s)
  = Identity.matchesIdentityNamePattern s.
Proof.
  destruct s as [|c s]; simpl; [done|].
  by rewrite identityNameChar_lower, allIdentityNameChars_foldCase.
Qed.

Lemma foldCase_idem s : foldCase (foldCase s) = foldCase s.
Proof.
  induction s as [|c s IH]; simpl; [done|].
  by rewrite lowerAscii_idem, IH.
Qed.

Lemma foldCase_length s : String.length (foldCase s) = String.length s.
Proof. induction s as [|c s IH]; simpl; [done|]. by rewrite IH. Qed.

Lemma foldCase_not_upper s c :
  c ∈ list_ascii_of_string (foldCase s) -> inRange 65 90 c = false.
Proof.
  induction s as [|c0 s IH]; simpl.
  - intros H. by apply elem_of_nil in H.
  - intros [->|H]%elem_of_cons; [apply lowerAscii_not_upper|auto].
Qed.

Lemma identityName_normal_lemma (identityName n : string) :
  Identity.identityNameFromString identityName = inr n ->
  Identity.identityNameFromString n = inr n
  /\ String.length n = String.length identityName
  /\ (forall c, c ∈ list_ascii_of_string n -> inRange 65 90 c = false)
  /\ Identity.matchesIdentityNamePattern n = true.
Proof.
  unfold Identity.identityNameFromString, Identity.toLowerCase.
  destruct (Identity.matchesIdentityNamePattern identityName) eqn:Hmatch;
    simpl; [|done].
  intros [= <-].
  rewrite matchesIdentityNamePattern_foldCase, Hmatch. simpl.
  rewrite foldCase_idem. repeat split.
  - apply foldCase_length.
  - apply foldCase_not_upper.
Qed.

(** X14. An identity name that [identityNameFromString] returns is
    normal: it has the length of the string given, none of its letters
    is upper-case, and [identityNameFromString] returns it unchanged
    when given it again. *)
Theorem identityName_normal (identityName n : string) :
  Identity.identityNameFromString identityName = inr n ->
  Identity.identityNameFromString n = inr n
  /\ String.length n = String.length identityName
  /\ (forall c, c ∈ list_ascii_of_string n -> inRange 65 90 c = false)
  /\ Identity.matchesIdentityNamePattern n = true.
Proof. apply identityName_normal_lemma. Qed.

Lemma identityName_normal_witness :
  Identity.identityNameFromString "octo-cat" = inr "octo-cat"
  /\ String.length "octo-cat" = String.length "Octo-Cat"
  /\ (forall c, c ∈ list_ascii_of_string "octo-cat" ->
                inRange 65 90 c = false)
  /\ Identity.matchesIdentityNamePattern "octo-cat" = true.
Proof.
  apply (identityName_normal "Octo-Cat" "octo-cat"). reflexivity.
Defined.

(** X15. [identityNameFromString] tells names apart up to the case of
    their letters and no further: it rejects the empty string; a string
    that differs from an accepted one by case alone is accepted, with
    the same result; and two accepted strings with the same result
    differ by case alone. *)
Theorem identityName_up_to_case (a b n : string) :
  Identity.identityNameFromString a = inr n ->
  a <> EmptyString
  /\ (Identity.identityNameFromString b = inr n
      <-> foldCase b = foldCase a).
Proof.
  unfold Identity.identityNameFromString, Identity.toLowerCase.
  destruct (Identity.matchesIdentityNamePattern a) eqn:Ha; simpl; [|done].
  intros [= <-]. split; [by destruct a|].
  split.
  - destruct (Identity.matchesIdentityNamePattern b); simpl; [|done].
    by intros [= ->].
  - intros Hfold.
    assert (Hb : Identity.matchesIdentityNamePattern b = true).
    { by rewrite <- matchesIdentityNamePattern_foldCase, Hfold,
        matchesIdentityNamePattern_foldCase. }
    rewrite Hb. simpl. by rewrite Hfold.
Qed.

Lemma identityName_up_to_case_witness :
  "Octo-Cat" <> EmptyString
  /\ (Identity.identityNameFromString "OCTO-cat" = inr "octo-cat"
      <-> foldCase "OCTO-cat" = foldCase "Octo-Cat").
Proof.
  apply (identityName_up_to_case "Octo-Cat" "OCTO-cat" "octo-cat").
  reflexivity.
Defined.

(** X16. [newIdentity] checks the subtype first, builds the address
    next and checks the name last, and the first of these to fail gives
    the error.  An identity it returns has the identifier drawn, a
    subtype the parser accepts, the normal form of the name given, which
    [identityNameFromString] accepts unchanged, the address built from
    the prefix, the subtype and the identifier, and no alias: in
    [contractions] it replaces no node. *)
Theorem newIdentity_contract (NodeAddressT : Type)
    (append : NodeAddressT -> list string
              -> Identity.IdentityError + NodeAddressT)
    (IDENTITY_PREFIX : NodeAddressT)
    (exactly : list string -> string -> bool)
    (uuid subtype name : string) :
  match Identity.newIdentity NodeAddressT append IDENTITY_PREFIX exactly
          uuid subtype name with
  | inl e =>
      if Identity.identitySubtypeParser exactly subtype
      then match append IDENTITY_PREFIX [subtype; uuid] with
           | inl e' => e = e'
           | inr _ =>
               e = Identity.InvalidIdentityName name
               /\ Identity.matchesIdentityNamePattern name = false
           end
      else e = Identity.InvalidIdentitySubtype subtype
  | inr i =>
      Identity.identitySubtypeParser exactly subtype = true
      /\ Identity.id _ i = uuid
      /\ Identity.subtype _ i = subtype
      /\ Identity.identityNameFromString name = inr (Identity.name _ i)
      /\ Identity.identityNameFromString (Identity.name _ i)
         = inr (Identity.name _ i)
      /\ append IDENTITY_PREFIX [subtype; uuid] = inr (Identity.address _ i)
      /\ Identity.aliases _ i = []
      /\ Identity.contractions _ [i]
         = [Identity.mkContraction _ (Identity.graphNode _ i) []]
  end.
Proof.
  unfold Identity.newIdentity.
  destruct (Identity.identitySubtypeParser exactly subtype); simpl; [|done].
  destruct (append IDENTITY_PREFIX [subtype; uuid]) as [e'|address];
    [done|].
  destruct (Identity.identityNameFromString name) as [e|n] eqn:Hname.
  - unfold Identity.identityNameFromString in Hname.
    destruct (Identity.matchesIdentityNamePattern name); simpl in Hname;
      [done|].
    by injection Hname as <-.
  - destruct (identityName_normal_lemma name n Hname) as [Hnormal _].
    by repeat split.
Qed.

(** ** Databases that are not fresh *)

Lemma callback_with_meta blob s c v :
  metaBlob (content c) = Some v ->
  initializeCallback blob s c
  = (if strictEqualsString (Some v) blob then inr tt
     else inl IncompatibleSchema,
     mkConnection (content c) (saved c)
                  (executed c ++ [createMeta; selectMeta])).
Proof.
  intros [Hsel [t Ht]]%metaBlob_select.
  unfold initializeCallback.
  rewrite bind_unfold, run_data by done.
  assert (apply createMeta (content c) = inr (None, content c)) as ->
    by (unfold createMeta, apply; simpl identName; by rewrite Ht).
  rewrite bind_unfold, pluckGet_data by done. cbn [content].
  rewrite Hsel. cbn [executed saved]. rewrite <- app_assoc.
  by destruct (strictEqualsString (Some v) blob).
Qed.

(** X17. The [meta] row is written once.  On a database whose [meta]
    table has a row, whatever its value and whatever else the database
    holds, [_initialize] creates nothing and inserts nothing: it
    returns when the schema column of the row is the blob, throws the
    mismatch error when it is any other value, and either way leaves the
    database, the row included, as it was. *)
Theorem meta_written_once (stringify : MetaObject -> string) s c v :
  inTransaction c = false ->
  metaBlob (content c) = Some v ->
  exists c',
    _initialize stringify s c
    = (if valueEqb v (Text (stringify (mkMeta "MIRROR_v1" s)))
       then inr tt else inl IncompatibleSchema, c')
    /\ content c' = content c
    /\ inTransaction c' = false
    /\ metaBlob (content c') = Some v
    /\ exists last,
         executed c' = executed c ++ [BEGIN; createMeta; selectMeta; last]
         /\ (last = COMMIT \/ last = ROLLBACK).
Proof.
  intros Hc Hblob. rewrite initialize_outcome by done. cbv zeta.
  rewrite (callback_with_meta _ _ _ v) by done.
  assert (strictEqualsString (Some v)
            (stringify (mkMeta "MIRROR_v1" s))
          = valueEqb v (Text (stringify (mkMeta "MIRROR_v1" s)))) as ->
    by (by destruct v).
  destruct (valueEqb v _); eexists; (split; [reflexivity|]);
    cbn [content executed begun]; rewrite <- !app_assoc;
    repeat split; try done; eexists; split; try done; auto.
Qed.

Lemma meta_written_once_witness :
  exists c',
    _initialize StableJson.stringify Examples.issueWithBody
      (snd (_initialize StableJson.stringify Examples.issueSchema fresh))
    = (inl IncompatibleSchema, c')
    /\ content c'
       = content (snd (_initialize StableJson.stringify
                         Examples.issueSchema fresh))
    /\ metaBlob (content c')
       = Some (Text (StableJson.stringify
                       (mkMeta "MIRROR_v1" Examples.issueSchema))).
Proof.
  destruct (meta_written_once StableJson.stringify Examples.issueWithBody
              (snd (_initialize StableJson.stringify
                      Examples.issueSchema fresh))
              (Text (StableJson.stringify
                       (mkMeta "MIRROR_v1" Examples.issueSchema)))
              eq_refl eq_refl)
    as (c' & Hrun & Hcontent & _ & Hblob & _).
  exists c'. split; [exact Hrun|]. split; [exact Hcontent|exact Hblob].
Defined.

Lemma lookupTable_replaceTable_other name d t' :
  nameEq (tbl_name t') name = false ->
  is_Some (lookupTable name d) ->
  is_Some (lookupTable name (replaceTable t' d)).
Proof.
  unfold lookupTable, replaceTable. simpl. intros Hother.
  induction (tables d) as [|t0 l IH]; simpl; [done|].
  destruct (nameEq (tbl_name t0) name) eqn:Ht0.
  - intros _.
    rewrite (nameEq_sym (tbl_name t0)).
    rewrite (nameEq_trans_false _ _ _ Hother) by (by rewrite nameEq_sym).
    by rewrite Ht0.
  - intros H. destruct (nameEq (tbl_name t0) (tbl_name t')).
    + by rewrite Hother; apply IH.
    + by rewrite Ht0; apply IH.
Qed.

(** A loop of CREATE statements does not return when the name of one of
    its tables is taken. *)
Lemma structuralLoop_taken qs : forall c name columns constraints,
  (forall q, q ∈ qs -> isDdl q = true) ->
  CREATE_TABLE false name columns constraints ∈ qs ->
  is_Some (lookupTable (identName name) (content c)) ->
  exists e c', forEach qs run c = (inl e, c') /\ isEngineError e = true.
Proof.
  induction qs as [|q qs IH]; intros c name columns constraints Hddl Hin Htaken.
  - by apply elem_of_nil in Hin.
  - simpl. rewrite bind_unfold.
    destruct (run q c) as [[e|[]] c1] eqn:Hstep.
    + exists e, c1. split; [done|]. by eapply run_error.
    + apply elem_of_cons in Hin as [<-|Hin].
      * rewrite run_data in Hstep by done. simpl in Hstep.
        destruct Htaken as [t Ht]. by rewrite Ht in Hstep.
      * eapply IH; [intros; apply Hddl; by right|exact Hin|].
        pose proof (run_grown q (Hddl q ltac:(left)) c) as (_ & [ts Hts] & _).
        rewrite Hstep in Hts. destruct Htaken as [t Ht].
        exists t. by eapply lookupTable_grown.
Qed.

Lemma structuralTableNames_created (name : string) :
  name ∈ Scenarios.structuralTableNames ->
  nameEq "meta" name = false
  /\ exists ident columns constraints,
       CREATE_TABLE false ident columns constraints ∈ structuralTables
       /\ identName ident = name.
Proof.
  unfold Scenarios.structuralTableNames. cbn. intros Hname.
  repeat (apply elem_of_cons in Hname as [->|Hname];
          [split; [reflexivity|]; eexists (Bare _), _, _;
           refine (conj _ eq_refl); apply list_elem_of_In; cbn;
           repeat (first [left; reflexivity|right])|]).
  by apply elem_of_nil in Hname.
Qed.

(** X18. A database that is no mirror, having no [meta] row, and that is
    not empty, having a table under one of the names of the structural
    tables, is refused: [_initialize] fails on an error of the engine
    and the database is left as it was. *)
Theorem foreign_database_refused (stringify : MetaObject -> string) s c
    (name : string) :
  inTransaction c = false ->
  metaBlob (content c) = None ->
  name ∈ Scenarios.structuralTableNames ->
  is_Some (lookupTable name (content c)) ->
  exists e c',
    _initialize stringify s c = (inl e, c')
    /\ isEngineError e = true
    /\ content c' = content c
    /\ inTransaction c' = false.
Proof.
  intros Hc Hnometa Hname Htaken.
  destruct (structuralTableNames_created name Hname)
    as (Hnotmeta & ident & columns & constraints & Hstmt & <-).
  set (blob := stringify (mkMeta "MIRROR_v1" s)).
  assert (Hcb : exists e c1,
            initializeCallback blob s (begun c) = (inl e, c1)
            /\ isEngineError e = true).
  { unfold initializeCallback. rewrite bind_unfold.
    destruct (run createMeta (begun c)) as [[e1|[]] c1] eqn:H1.
    { exists e1, c1. split; [done|]. eapply run_error, H1. }
    pose proof (run_grown createMeta eq_refl (begun c)) as (_ & [ts Hts] & _).
    rewrite H1 in Hts. cbn [snd begun content] in Hts.
    rewrite bind_unfold.
    destruct (pluckGet selectMeta c1) as [[e2|existing] c2] eqn:H2.
    { exists e2, c2. split; [done|]. eapply pluckGet_error, H2. }
    rewrite pluckGet_data in H2 by done.
    destruct (apply selectMeta (content c1)) as [e|[v d]] eqn:Hsel; [done|].
    pose proof (apply_select_same _ _ _ _ _ Hsel) as ->.
    injection H2 as <- <-.
    assert (v = None) as ->.
    { destruct v as [v|]; [|done]. exfalso.
      rewrite run_data in H1 by done.
      unfold createMeta, apply in H1. simpl identName in H1.
      destruct (lookupTable "meta" (content (begun c))) as [t|] eqn:Ht.
      - injection H1 as <-. cbn [content begun] in Hsel.
        unfold metaBlob in Hnometa. by rewrite Hsel in Hnometa.
      - destruct (lookupIndex "meta" (content (begun c))); [done|].
        simpl in H1. injection H1 as <-. cbn [content] in Hsel.
        unfold selectMeta, apply in Hsel.
        rewrite lookupTable_snoc in Hsel. cbn [begun content] in Ht.
        destruct (content c) as [ts0 ixs0]. cbn [tables indices] in *.
        rewrite Ht in Hsel. simpl in Hsel. done. }
    cbn [strictEqualsString]. rewrite bool_decide_eq_false_2 by (by intros []).
    rewrite bind_unfold, run_data by done. cbn [content].
    assert (Htaken1 : is_Some (lookupTable (identName ident) (content c1))).
    { destruct Htaken as [t Ht]. exists t. by eapply lookupTable_grown. }
    destruct (apply (insertMeta blob) (content c1)) as [e|[v d]] eqn:Hins.
    { eexists _, _. split; [reflexivity|done]. }
    rewrite bind_unfold.
    assert (Htaken2 : is_Some (lookupTable (identName ident) d)).
    { unfold insertMeta, apply in Hins.
      destruct (lookupTable "meta" (content c1)) as [t|] eqn:Ht; [|done].
      destruct (missingColumn _ _); [done|].
      destruct (violatedColumn _ _ _ _); [done|].
      injection Hins as _ <-.
      apply lookupTable_replaceTable_other; [|done]. cbn [tbl_name].
      apply find_some in Ht as [_ Ht].
      rewrite nameEq_sym.
      by apply (nameEq_trans_false _ "meta");
        [rewrite nameEq_sym|rewrite nameEq_sym]. }
    set (c3 := mkConnection d _ _).
    destruct (structuralLoop_taken structuralTables c3 ident columns
                constraints) as (e & c4 & Hloop & He); [|done|done|].
    { intros q Hq. unfold structuralTables in Hq.
      repeat (apply elem_of_cons in Hq as [->|Hq]; [done|]).
      by apply elem_of_nil in Hq. }
    rewrite Hloop. by exists e, c4. }
  destruct Hcb as (e & c1 & Hcb & He).
  rewrite initialize_outcome by done. cbv zeta. fold blob. rewrite Hcb.
  eexists _, _. split; [reflexivity|]. done.
Qed.

Lemma foreign_database_refused_witness :
  exists e c',
    _initialize StableJson.stringify Examples.issueSchema
      Scenarios.foreignLinks = (inl e, c')
    /\ isEngineError e = true
    /\ content c' = content Scenarios.foreignLinks
    /\ inTransaction c' = false.
Proof.
  apply (foreign_database_refused StableJson.stringify Examples.issueSchema
           Scenarios.foreignLinks "links").
  - reflexivity.
  - reflexivity.
  - unfold Scenarios.structuralTableNames. cbn.
    apply list_elem_of_In. cbn. tauto.
  - by eexists.
Defined.
